(** * mast: a table-driven parser for small algebra languages

    A shallow embedding of the tokenizer (tokenizer.go), of the
    precedence-climbing parser (parser.go) and of the matrix evaluator
    (eval.go) of github.com/fatlotus/mast, followed by the properties of
    the tokenizer and the parser that the specification states and by
    further properties of the three. *)

From Stdlib Require Import String Ascii ZArith List Bool Lia Arith.
Import ListNotations.

Local Open Scope Z_scope.

(* ================================================================== *)
(** ** Go strings and runes *)

(** A Go [rune] is a code point.  A Go [string] is modelled by the sequence
    of runes that [for _, c := range s] yields and that [string(buf)]
    builds; for the strings the tokenizer produces, equality of strings is
    equality of these sequences. *)
Definition rune := Z.
Definition str := list rune.

(** [go "a+b"] is the Go string literal ["a+b"] (ASCII text). *)
Definition go (s : String.string) : str :=
  map (fun a => Z.of_N (N_of_ascii a)) (list_ascii_of_string s).

Fixpoint str_eqb (a b : str) : bool :=
  match a, b with
  | [], [] => true
  | x :: a', y :: b' => (x =? y) && str_eqb a' b'
  | _, _ => false
  end.

(** The empty string: the marker that ends the tokens. *)
Definition eof : str := [].

(** The double quote and the backslash, by code point. *)
Definition dquote : rune := 34.
Definition backslash : rune := 92.

(** The classification of the code points above ASCII by Go's [unicode]
    tables, and the escapes [strconv.Quote] writes for the runes it does not
    copy, belong to Go's library: they are taken as they come. *)
Record GoLib := {
  upper_ext : rune -> bool;
  letter_ext : rune -> bool;
  digit_ext : rune -> bool;
  quote_ext : rune -> str
}.

(** A library that knows no letter or digit beyond ASCII. *)
Definition asciiLib : GoLib :=
  {| upper_ext := fun _ => false; letter_ext := fun _ => false;
     digit_ext := fun _ => false; quote_ext := fun r => [r] |}.

Definition runePred := rune -> bool.

(* ================================================================== *)
(** ** parser.go: the grammar and the syntax tree *)

Inductive OpType := InfixLeft | InfixRight | Prefix | Suffix.

Record Prec := mkPrec {
  Glyphs : list str;
  Type_ : OpType
}.

Record Group := mkGroup {
  Left : str;
  Right : str
}.

Record Parser := mkParser {
  Operators : list Prec;
  Parens : list Group;
  Brackets : list Group;
  AdjacentIsApplication : bool
}.

(** An [Expr] is a Go interface value: one of the four node types, or
    [nil]. *)
Inductive Expr :=
| nilExpr
| Var (Name : str)
| Apply (Operator Operand : Expr)
| Unary (Op : str) (Elem : Expr)
| Binary (Op : str) (L R : Expr).

Inductive Equation := mkEquation (lhs rhs : Expr).

Definition PEMDAS : Parser :=
  {| Parens := [mkGroup (go "(") (go ")"); mkGroup (go "[") (go "]")];
     Brackets := [mkGroup (go "{") (go "}")];
     Operators :=
       [mkPrec [go ","] InfixLeft;
        mkPrec [go "+"; go "-"] InfixLeft;
        mkPrec [go "*"; go "/"; go "\"] InfixLeft;
        mkPrec [go "^"] InfixRight;
        mkPrec [go "-"; go "+"] Prefix;
        mkPrec [go "'"] Suffix];
     AdjacentIsApplication := true |}.

Record Unexpected := mkUnexpected {
  Found : str;
  Expecting : str
}.

(** A Go [error] value: [nil] or an [Unexpected]. *)
Definition error := option Unexpected.

(** What a call does: it returns, it panics (an index or a slice bound out
    of range), or the model has run out of fuel. *)
Inductive outcome (A : Type) :=
| Returns (a : A)
| Panics
| OutOfFuel.
Arguments Returns {A} a.
Arguments Panics {A}.
Arguments OutOfFuel {A}.

Definition bind {A B} (o : outcome A) (k : A -> outcome B) : outcome B :=
  match o with
  | Returns a => k a
  | Panics => Panics
  | OutOfFuel => OutOfFuel
  end.

Notation "x <- o ;; k" := (bind o (fun x => k))
  (at level 61, o at next level, right associativity).
Notation "' pat <- o ;; k" := (bind o (fun x => match x with pat => k end))
  (at level 61, pat pattern, o at next level, right associativity).

(** The three results of [parseSingle] and [parseExpr]: [lo], [e], [err]. *)
Definition parsed := (list str * Expr * error)%type.

(* ================================================================== *)
(** ** eval.go: the variables of a tree *)

(** [addVars(e, &vars)]: [vars] is passed in and the new [*vars] returned;
    the [default] case of the type switch, a nil [Expr], panics. *)
Fixpoint addVars (e : Expr) (vars : list str) : outcome (list str) :=
  match e with
  | nilExpr => Panics
  | Var x =>
      if existsb (fun v => str_eqb v x) vars then Returns vars
      else Returns (vars ++ [x])
  | Apply f a => vars1 <- addVars f vars ;; addVars a vars1
  | Unary _ a => addVars a vars
  | Binary _ l r => vars1 <- addVars l vars ;; addVars r vars1
  end.

(** The case [*Equation] of [addVars]. *)
Definition addVarsEquation (q : Equation) (vars : list str)
  : outcome (list str) :=
  match q with
  | mkEquation l r => vars1 <- addVars l vars ;; addVars r vars1
  end.

(** The names of the variables of a tree, from left to right. *)
Fixpoint varNames (e : Expr) : list str :=
  match e with
  | nilExpr => []
  | Var x => [x]
  | Apply f a => varNames f ++ varNames a
  | Unary _ a => varNames a
  | Binary _ l r => varNames l ++ varNames r
  end.

(** The tree has a nil [Expr] in it. *)
Fixpoint hasNil (e : Expr) : bool :=
  match e with
  | nilExpr => true
  | Var _ => false
  | Apply f a => hasNil f || hasNil a
  | Unary _ a => hasNil a
  | Binary _ l r => hasNil l || hasNil r
  end.

(** One name met: it goes to the end of the list unless it is there. *)
Definition addName (vars : list str) (x : str) : list str :=
  if existsb (fun v => str_eqb v x) vars then vars else vars ++ [x].

(** The names of [l] in the order of their first use, those of [seen] left
    out. *)
Fixpoint firstUse (seen : list str) (l : list str) : list str :=
  match l with
  | [] => []
  | x :: tl =>
      if existsb (fun v => str_eqb v x) seen then firstUse seen tl
      else x :: firstUse (seen ++ [x]) tl
  end.

(* ================================================================== *)
(** ** eval.go: matrices *)

(** [float64] and its arithmetic belong to Go: the type, the zero value
    that [make] writes, [x + y], and the update [acc += x * y], which Go
    may compile to one fused operation, are taken as they come. *)
Record Floats := mkFloats {
  float64 : Type;
  fzero : float64;
  fadd : float64 -> float64 -> float64;
  fmuladd : float64 -> float64 -> float64 -> float64
}.

(** The arithmetic of the floats on the integers they hold exactly. *)
Definition intFloats : Floats :=
  mkFloats Z 0 Z.add (fun acc x y => acc + x * y).

(** [l[i]], which panics out of range. *)
Definition index {A} (l : list A) (i : nat) : outcome A :=
  match nth_error l i with
  | Some x => Returns x
  | None => Panics
  end.

(** [l[i] = v], which panics out of range. *)
Fixpoint assign {A} (l : list A) (i : nat) (v : A) : outcome (list A) :=
  match l, i with
  | [], _ => Panics
  | _ :: tl, O => Returns (v :: tl)
  | x :: tl, S i' => tl' <- assign tl i' v ;; Returns (x :: tl')
  end.

(** [m[j][i] = v]. *)
Definition assign2 {A} (m : list (list A)) (j i : nat) (v : A)
  : outcome (list (list A)) :=
  row <- index m j ;;
  row' <- assign row i v ;;
  assign m j row'.

(** [for i := range l { body }], for [i] from [from] and [n] the length
    [l] has when the loop starts. *)
Fixpoint forRange {St} (n from : nat) (body : nat -> St -> outcome St)
    (s : St) : outcome St :=
  match n with
  | O => Returns s
  | S n' => s' <- body from s ;; forRange n' (S from) body s'
  end.

(** [for i, x := range l { body }], for [i] from [from]. *)
Fixpoint forEach {A St} (l : list A) (from : nat)
    (body : nat -> A -> St -> outcome St) (s : St) : outcome St :=
  match l with
  | [] => Returns s
  | x :: tl => s' <- body from x s ;; forEach tl (S from) body s'
  end.

Section Matrices.

Variable K : Floats.

Definition mat := list (list (float64 K)).

(** [make([]float64, n)]. *)
Definition zeros (n : nat) : list (float64 K) := repeat (fzero K) n.

Definition dim (x : mat) : outcome (nat * nat) :=
  match x with
  | [] => Returns (O, O)
  | x0 :: rest =>
      let cols := length x0 in
      _ <- forEach rest O
             (fun _ r u => if Nat.eqb cols (length r) then Returns u
                           else Panics) tt ;;
      Returns (length x, cols)
  end.

Definition transposeMat (a : mat) : outcome mat :=
  '(n, m) <- dim a ;;
  result <- forRange m O (fun i result => assign result i (zeros n))
              (repeat [] m) ;;
  forEach a O
    (fun i row result =>
       forEach row O
         (fun j _ result =>
            ai <- index a i ;;
            aij <- index ai j ;;
            assign2 result j i aij)
         result)
    result.

Definition addMats (a b : mat) : outcome mat :=
  forRange (length a) O
    (fun i result =>
       a0 <- index a O ;;
       result <- assign result i (zeros (length a0)) ;;
       ai <- index a i ;;
       forRange (length ai) O
         (fun j result =>
            ai <- index a i ;;
            aij <- index ai j ;;
            bi <- index b i ;;
            bij <- index bi j ;;
            assign2 result i j (fadd K aij bij))
         result)
    (repeat [] (length a)).

Definition multMats (a b : mat) : outcome mat :=
  '(na, ma) <- dim a ;;
  '(nb, mb) <- dim b ;;
  if negb (Nat.eqb ma nb) then Panics
  else
    forRange (length a) O
      (fun i result =>
         b0 <- index b O ;;
         result <- assign result i (zeros (length b0)) ;;
         b0 <- index b O ;;
         forRange (length b0) O
           (fun j result =>
              a0 <- index a O ;;
              forRange (length a0) O
                (fun k result =>
                   ri <- index result i ;;
                   rij <- index ri j ;;
                   ai <- index a i ;;
                   aik <- index ai k ;;
                   bk <- index b k ;;
                   bkj <- index bk j ;;
                   assign2 result i j (fmuladd K rij aik bkj))
                result)
           result)
      (repeat [] (length a)).

(** [vars[name]] with its [ok]: the map is a list of keys and values, the
    first entry of a key the one that counts. *)
Fixpoint lookup (vars : list (str * mat)) (name : str) : option mat :=
  match vars with
  | [] => None
  | (k, v) :: tl => if str_eqb k name then Some v else lookup tl name
  end.

Fixpoint eval (e : Expr) (vars : list (str * mat)) : outcome mat :=
  match e with
  | Var name =>
      match lookup vars name with
      | Some val => Returns val
      | None => Panics
      end
  | Apply f x =>
      a <- eval f vars ;; b <- eval x vars ;; multMats a b
  | Unary op x =>
      if str_eqb op (go "'") then a <- eval x vars ;; transposeMat a
      else Panics
  | Binary op l r =>
      if str_eqb op (go "+") then
        a <- eval l vars ;; b <- eval r vars ;; addMats a b
      else if str_eqb op (go "*") then
        a <- eval l vars ;; b <- eval r vars ;; multMats a b
      else Panics
  | nilExpr => Panics
  end.

(** What an argument of [Eval] points to: a [*float64], a [*[]float64]
    whose slice is nil or not, a [*[][]float64]; or the argument is of
    another type, or a nil pointer.  The model keeps the value behind each
    pointer, not the pointer. *)
Inductive arg :=
| ScalarPtr (x : float64 K)
| VectorPtr (x : option (list (float64 K)))
| MatrixPtr (x : mat)
| OtherArg.

Definition readMat (x : arg) : outcome mat :=
  match x with
  | ScalarPtr v => Returns [[v]]
  | VectorPtr x =>
      let xs := match x with None => [] | Some xs => xs end in
      forEach xs O (fun i v result => assign result i [v])
        (repeat [] (length xs))
  | MatrixPtr m => Returns m
  | OtherArg => Panics
  end.

(** [writeMat(x, result)]: what [x] points to afterwards. *)
Definition writeMat (x : arg) (result : mat) : outcome arg :=
  match x with
  | ScalarPtr _ =>
      if Nat.eqb (length result) 1 then
        r0 <- index result O ;;
        if Nat.eqb (length r0) 1 then
          v <- index r0 O ;; Returns (ScalarPtr v)
        else Panics
      else Panics
  | VectorPtr x =>
      xs <- match x with
            | None => Returns (zeros (length result))
            | Some xs =>
                if negb (Nat.eqb (length result) (length xs)) then Panics
                else Returns xs
            end ;;
      _ <- forEach result O
             (fun _ row u => if negb (Nat.eqb (length row) 1) then Panics
                             else Returns u) tt ;;
      xs <- forEach result O
              (fun i row xs => v <- index row O ;; assign xs i v) xs ;;
      Returns (VectorPtr (Some xs))
  | MatrixPtr _ => Returns (MatrixPtr result)
  | OtherArg => Panics
  end.

End Matrices.

Section MatricesShape.

Variable K : Floats.

(** The number of columns [dim] reads: the length of the first row. *)
Definition cols (a : mat K) : nat :=
  match a with
  | [] => O
  | r :: _ => length r
  end.

(** Every row is as long as the first. *)
Definition rect (a : mat K) : bool :=
  forallb (fun r => Nat.eqb (length r) (cols a)) a.

(** [a[i][j]] where there is one. *)
Definition entry (a : mat K) (i j : nat) : float64 K :=
  nth j (nth i a []) (fzero K).

(** The matrix of [n] rows and [m] columns with [f i j] at row [i] and
    column [j]. *)
Definition table (n m : nat) (f : nat -> nat -> float64 K) : mat K :=
  map (fun i => map (f i) (seq O m)) (seq O n).

(** No row of [a] is longer than the first row of [a] or than the row of
    [b] at its place. *)
Definition fits (a b : mat K) : bool :=
  forallb (fun i => Nat.leb (length (nth i a [])) (cols a)
                    && Nat.leb (length (nth i a [])) (length (nth i b [])))
          (seq O (length a)).

(** The sum of the products along row [i] of [a] and column [j] of [b],
    in the order of the loop. *)
Definition dot (a b : mat K) (i j : nat) : float64 K :=
  fold_left (fun acc k => fmuladd K acc (entry a i k) (entry b k j))
            (seq O (cols a)) (fzero K).

(** The trees [eval] has a case for at every node. *)
Fixpoint evaluable (e : Expr) : bool :=
  match e with
  | nilExpr => false
  | Var _ => true
  | Apply f x => evaluable f && evaluable x
  | Unary op x => str_eqb op (go "'") && evaluable x
  | Binary op l r =>
      (str_eqb op (go "+") || str_eqb op (go "*"))
      && evaluable l && evaluable r
  end.

(** The target [t] takes what [x] holds: both are of one kind, and a
    vector that is there has the length of the vector read. *)
Definition takes (t x : arg K) : bool :=
  match t, x with
  | ScalarPtr _ _, ScalarPtr _ _ => true
  | VectorPtr _ None, VectorPtr _ _ => true
  | VectorPtr _ (Some ts), VectorPtr _ None => Nat.eqb (length ts) O
  | VectorPtr _ (Some ts), VectorPtr _ (Some xs) =>
      Nat.eqb (length ts) (length xs)
  | MatrixPtr _ _, MatrixPtr _ _ => true
  | _, _ => false
  end.

(** What is there after [x] is written: a nil slice has become an empty
    one. *)
Definition written (x : arg K) : arg K :=
  match x with
  | VectorPtr _ None => VectorPtr K (Some [])
  | _ => x
  end.

End MatricesShape.

(** A call that returns or panics: no loop of eval.go runs out, there is
    no recursion but on the tree. *)
Definition settled {A} (o : outcome A) : Prop := o <> OutOfFuel.

(** The errors of [Eval]: the error of [Parse]; the equation whose left
    side is no variable; the arguments that are not as many as the
    variables.  The model keeps what the message is made from. *)
Inductive EvalError :=
| SyntaxError (u : Unexpected)
| NotAnAssignment (tree : Equation)
| ArgCount (got : nat) (vars : list str).

(** PEMDAS without juxtaposition. *)
Definition PEMDAS_apart : Parser :=
  mkParser (Operators PEMDAS) (Parens PEMDAS) (Brackets PEMDAS) false.

Section Mast.

Variable G : GoLib.

(** [unicode.IsUpper], [unicode.IsLetter], [unicode.IsDigit]. *)
Definition IsUpper : runePred := fun r =>
  if r <? 128 then (65 <=? r) && (r <=? 90) else upper_ext G r.

Definition IsLetter : runePred := fun r =>
  if r <? 128 then ((65 <=? r) && (r <=? 90)) || ((97 <=? r) && (r <=? 122))
  else letter_ext G r.

Definition IsDigit : runePred := fun r =>
  if r <? 128 then (48 <=? r) && (r <=? 57) else digit_ext G r.

(** [fmt.Sprintf("%#v", s)] for a string: [strconv.Quote]. *)
Definition quoteRune (r : rune) : str :=
  if r =? dquote then [backslash; dquote]
  else if r =? backslash then [backslash; backslash]
  else if (32 <=? r) && (r <? 127) then [r]
  else quote_ext G r.

Definition Quote (s : str) : str :=
  [dquote] ++ flat_map quoteRune s ++ [dquote].

(* ================================================================== *)
(** ** tokenizer.go *)

Definition isWsp : runePred := fun r =>
  (r =? 32) || (r =? 9) || (r =? 11).

Definition tokenPreds : list runePred := [IsUpper; IsLetter; IsDigit; isWsp].

(** The inner loop of [tokenize]: the first predicate of the table that
    holds of [c] becomes the state, except the one at index 0 (an upper
    case letter), which leaves no state. *)
Fixpoint selectPred (i : nat) (preds : list runePred) (c : rune)
  : option runePred :=
  match preds with
  | [] => None
  | pred :: rest =>
      if pred c then (if Nat.eqb i 0 then None else Some pred)
      else selectPred (S i) rest c
  end.

(** The three variables of [tokenize]. *)
Record tokState := mkTok {
  st : option runePred;
  matches : list str;
  buf : list rune
}.

Definition tokInit : tokState := mkTok None [] [].

(** [st != nil && st(c)] *)
Definition accepts (s : option runePred) (c : rune) : bool :=
  match s with
  | Some pred => pred c
  | None => false
  end.

(** [len(buf) > 0 && !isWsp(buf[0])] *)
Definition flushable (b : list rune) : bool :=
  match b with
  | [] => false
  | c :: _ => negb (isWsp c)
  end.

(** One turn of the loop over the runes of the source. *)
Definition tokStep (s : tokState) (c : rune) : tokState :=
  if accepts (st s) c then mkTok (st s) (matches s) (buf s ++ [c])
  else mkTok (selectPred 0 tokenPreds c)
             (if flushable (buf s) then matches s ++ [buf s] else matches s)
             [c].

(** After the loop: the buffer, whatever it holds, then the eof marker. *)
Definition tokFinish (s : tokState) : list str :=
  matches s ++ [buf s] ++ [[]].

Definition tokenizeFrom (s : tokState) (code : list rune) : list str :=
  tokFinish (fold_left tokStep code s).

Definition tokenize (code : str) : list str * error :=
  (tokenizeFrom tokInit code, None).

(** The tokens that are out once the loop is in the state [s] and meets a
    rune that [s] does not accept. *)
Definition emitted (s : tokState) : list str :=
  if flushable (buf s) then matches s ++ [buf s] else matches s.

(** The state of the loop after the runes [pre]. *)
Definition tokAfter (pre : list rune) : tokState :=
  fold_left tokStep pre tokInit.

(** The tokens of a source text. *)
Definition tokensOf (code : str) : list str := fst (tokenize code).

(* ================================================================== *)
(** ** parser.go: the recursive descent *)

Definition isVar (s : str) : bool :=
  forallb (fun c => IsLetter c || IsDigit c) s && negb (str_eqb s []).

Definition isEq (s : str) : bool := str_eqb s (go "=").

Definition isEof (s : str) : bool := str_eqb s [].

Definition isOp (s : str) (ops : list str) : bool :=
  if str_eqb s [] then false else existsb (fun op => str_eqb op s) ops.

(** [for _, group := range groups { if tok == group.Left { ... return } }] *)
Definition openedBy (tok : str) (groups : list Group) : option Group :=
  find (fun group => str_eqb tok (Left group)) groups.

(** The message of the last return of [parseSingle]. *)
Definition options (p : Parser) : str :=
  let opts :=
    flat_map (fun op =>
      match Type_ op with
      | Prefix => flat_map (fun glyph => [dquote] ++ glyph ++ [dquote] ++ go ", ")
                           (Glyphs op)
      | _ => []
      end) (Operators p) in
  if str_eqb opts [] then opts else opts ++ go "or a variable".

(** The [for] loop of [parseSingle] after a variable: [lo] and [e] are the
    loop's variables, [single] is [p.parseSingle(_, true)]. *)
Fixpoint applyLoop (fuel : nat) (p : Parser) (single : list str -> outcome parsed)
    (lo : list str) (e : Expr) : outcome parsed :=
  match fuel with
  | O => OutOfFuel
  | S n =>
      match lo with
      | [] => Panics
      | l0 :: _ =>
          let apply := existsb (fun group => str_eqb l0 (Left group))
                               (Parens p ++ Brackets p) in
          if apply || (isVar l0 && AdjacentIsApplication p) then
            '(lo2, e2, err) <- single lo ;;
            match err with
            | Some _ => Returns (lo2, e, err)
            | None => applyLoop n p single lo2 (Apply e e2)
            end
          else Returns (lo, e, None)
      end
  end.

(** The [for] loop of the [InfixLeft] case: [operand] is
    [p.parseExpr(prec+1, _)]; [err] is what the first operand left. *)
Fixpoint infixLeftLoop (fuel : nat) (glyphs : list str)
    (operand : list str -> outcome parsed)
    (lo : list str) (e : Expr) (err : error) : outcome parsed :=
  match fuel with
  | O => OutOfFuel
  | S n =>
      match lo with
      | [] => Panics
      | glyph :: rest =>
          if isOp glyph glyphs then
            '(lo2, e2, err2) <- operand rest ;;
            match err2 with
            | Some _ => Returns (lo2, nilExpr, err2)
            | None => infixLeftLoop n glyphs operand lo2 (Binary glyph e e2) None
            end
          else Returns (lo, e, err)
      end
  end.

(** The [for] loop of the [Suffix] case. *)
Fixpoint suffixLoop (glyphs : list str) (lo : list str) (e : Expr)
  : outcome parsed :=
  match lo with
  | [] => Panics
  | l0 :: rest =>
      if isOp l0 glyphs then suffixLoop glyphs rest (Unary l0 e)
      else Returns (lo, e, None)
  end.

(** What follows [lo, e, err = p.parseExpr(0, tokens[1:])] in a group:
    the closer is looked for whatever [err] is. *)
Definition closeGroup (group : Group) (wrap : Expr -> Expr) (r : parsed)
  : outcome parsed :=
  let '(lo, e, err) := r in
  match lo with
  | [] => Panics
  | l0 :: rest =>
      if negb (str_eqb l0 (Right group))
      then Returns (lo, nilExpr, Some (mkUnexpected l0 (Quote (Right group))))
      else Returns (rest, wrap e, err)
  end.

Fixpoint parseSingle (fuel : nat) (p : Parser) (tokens : list str)
    (inApp : bool) {struct fuel} : outcome parsed :=
  match fuel with
  | O => OutOfFuel
  | S n =>
      match tokens with
      | [] => Panics
      | t0 :: rest =>
          if isVar t0 then
            if inApp then Returns (rest, Var t0, None)
            else applyLoop n p (fun lo => parseSingle n p lo true) rest (Var t0)
          else
            match openedBy t0 (Parens p) with
            | Some group =>
                r <- parseExpr n p 0 rest ;;
                closeGroup group (fun e => e) r
            | None =>
                match openedBy t0 (Brackets p) with
                | Some group =>
                    let both := Left group ++ Right group in
                    match rest with
                    | t1 :: rest2 =>
                        if str_eqb t1 (Right group)
                        then Returns (rest2, Var both, None)
                        else r <- parseExpr n p 0 rest ;;
                             closeGroup group (Unary both) r
                    | [] =>
                        r <- parseExpr n p 0 rest ;;
                        closeGroup group (Unary both) r
                    end
                | None =>
                    Returns (tokens, nilExpr,
                             Some (mkUnexpected t0 (options p)))
                end
            end
      end
  end

with parseExpr (fuel : nat) (p : Parser) (prec : nat) (tokens : list str)
    {struct fuel} : outcome parsed :=
  match fuel with
  | O => OutOfFuel
  | S n =>
      match nth_error (Operators p) prec with
      | None => parseSingle n p tokens false
      | Some op =>
          match Type_ op with
          | Prefix =>
              match tokens with
              | [] => Panics
              | glyph :: rest =>
                  if isOp glyph (Glyphs op) then
                    '(lo, e, err) <- parseExpr n p prec rest ;;
                    match err with
                    | Some _ => Returns (lo, nilExpr, err)
                    | None => Returns (lo, Unary glyph e, None)
                    end
                  else parseExpr n p (S prec) tokens
              end
          | InfixLeft =>
              '(lo, e, err) <- parseExpr n p (S prec) tokens ;;
              infixLeftLoop n (Glyphs op) (parseExpr n p (S prec)) lo e err
          | InfixRight =>
              '(lo, e, err) <- parseExpr n p (S prec) tokens ;;
              match err with
              | Some _ => Returns (lo, nilExpr, err)
              | None =>
                  match lo with
                  | [] => Panics
                  | glyph :: rest =>
                      if isOp glyph (Glyphs op) then
                        '(lo2, e2, err2) <- parseExpr n p prec rest ;;
                        match err2 with
                        | Some _ =>
                            match lo2 with
                            | [] => Panics
                            | _ :: lo3 => Returns (lo3, nilExpr, err2)
                            end
                        | None => Returns (lo2, Binary glyph e e2, None)
                        end
                      else Returns (lo, e, None)
                  end
              end
          | Suffix =>
              '(lo, e, err) <- parseExpr n p (S prec) tokens ;;
              match err with
              | Some _ => Returns (lo, nilExpr, err)
              | None => suffixLoop (Glyphs op) lo e
              end
          end
      end
  end.

(** Fuel that is enough for [parseExpr] at level [prec] on [tokens]: every
    call made on the way either has fewer tokens or as many tokens and a
    higher level. *)
Definition fuelSingle (p : Parser) (tokens : list str) : nat :=
  (length tokens * (length (Operators p) + 2) + 1)%nat.

Definition fuelExpr (p : Parser) (prec : nat) (tokens : list str) : nat :=
  (length tokens * (length (Operators p) + 2)
   + (length (Operators p) - prec) + 2)%nat.

(** [runSingle] and [runExpr]: the calls, with fuel that is enough. *)
Definition runSingle (p : Parser) (tokens : list str) (inApp : bool)
  : outcome parsed :=
  parseSingle (fuelSingle p tokens) p tokens inApp.

Definition runExpr (p : Parser) (prec : nat) (tokens : list str)
  : outcome parsed :=
  parseExpr (fuelExpr p prec tokens) p prec tokens.

(** The two loops that call back into the parser, with fuel that is
    enough: each turn leaves fewer tokens. *)
Definition runApply (p : Parser) (lo : list str) (e : Expr) : outcome parsed :=
  applyLoop (S (length lo)) p (fun l => runSingle p l true) lo e.

Definition runInfixLeft (p : Parser) (prec : nat) (glyphs : list str)
    (lo : list str) (e : Expr) (err : error) : outcome parsed :=
  infixLeftLoop (S (length lo)) glyphs (runExpr p (S prec)) lo e err.

(** [len(lo) > 1 || lo[0] != eof]: it reads [lo[0]] when [lo] has one
    token or none, so it panics on an empty [lo]. *)
Definition leftover (lo : list str) : outcome (option str) :=
  match lo with
  | [] => Panics
  | l0 :: rest =>
      Returns (if (1 <? length rest + 1)%nat || negb (str_eqb l0 [])
               then Some l0 else None)
  end.

Definition parseEqn (p : Parser) (tokens : list str)
  : outcome (list str * option Equation * error) :=
  '(lo, lhs, err) <- runExpr p 0 tokens ;;
  match err with
  | Some _ => Returns (lo, None, err)
  | None =>
      match lo with
      | [] => Panics
      | l0 :: rest =>
          if negb (str_eqb l0 (go "="))
          then Returns (lo, None, Some (mkUnexpected l0 (go "=")))
          else
            '(lo2, rhs, err2) <- runExpr p 0 rest ;;
            match err2 with
            | Some _ => Returns (lo2, None, err2)
            | None => Returns (lo2, Some (mkEquation lhs rhs), None)
            end
      end
  end.

Definition ParseExpr (p : Parser) (source : str) : outcome (Expr * error) :=
  let '(tokens, err) := tokenize source in
  match err with
  | Some _ => Returns (nilExpr, err)
  | None =>
      '(lo, e, err) <- runExpr p 0 tokens ;;
      match err with
      | Some _ => Returns (nilExpr, err)
      | None =>
          more <- leftover lo ;;
          match more with
          | Some l0 =>
              Returns (nilExpr, Some (mkUnexpected l0 (go "end-of-input")))
          | None => Returns (e, None)
          end
      end
  end.

Definition Parse (p : Parser) (source : str)
  : outcome (option Equation * error) :=
  let '(tokens, err) := tokenize source in
  match err with
  | Some _ => Returns (None, err)
  | None =>
      '(lo, e, err) <- parseEqn p tokens ;;
      more <- leftover lo ;;
      match more, err with
      | Some l0, None =>
          Returns (None, Some (mkUnexpected l0 (go "end-of-input")))
      | _, _ => Returns (e, err)
      end
  end.

(** The token [t] goes on an application: the test of the loop of
    [parseSingle]. *)
Definition goesOn (p : Parser) (t : str) : bool :=
  existsb (fun group => str_eqb t (Left group)) (Parens p ++ Brackets p)
  || (isVar t && AdjacentIsApplication p).

(** The token [t] ends an application. *)
Definition endsApply (p : Parser) (t : str) : bool := negb (goesOn p t).

(** The levels [levels] let an operand through that starts with the token
    [h] and is followed by the token [t]: [h] is no prefix operator of
    theirs, and [t] is no infix or suffix operator of theirs. *)
Definition passes (levels : list Prec) (h t : str) : bool :=
  forallb (fun op =>
             match Type_ op with
             | Prefix => negb (isOp h (Glyphs op))
             | _ => negb (isOp t (Glyphs op))
             end) levels.

(** The levels from [prec] up to, not including, [q]. *)
Definition levelsBetween (p : Parser) (prec q : nat) : list Prec :=
  firstn (q - prec) (skipn prec (Operators p)).

(** Atoms in a row, each with its tokens and the tree it stands for:
    [operandsOK p atoms rest] holds when each of them, with what follows it
    up to [rest], starts with a token that goes on an application and is
    parsed by one call of [parseSingle] with [inApp] set. *)
Definition atomTokens (atoms : list (list str * Expr)) (rest : list str)
  : list str :=
  flat_map fst atoms ++ rest.

Fixpoint operandsOK (p : Parser) (atoms : list (list str * Expr))
    (rest : list str) : Prop :=
  match atoms with
  | [] => True
  | (ts, e) :: more =>
      (exists h tl, ts = h :: tl /\ goesOn p h = true)
      /\ runSingle p (ts ++ atomTokens more rest) true
         = Returns (atomTokens more rest, e, None)
      /\ operandsOK p more rest
  end.

(** [a o1 x1 o2 x2 ...], as tokens and as the tree that leans left. *)
Definition chainTokens (items : list (str * str)) : list str :=
  flat_map (fun ox => [fst ox; snd ox]) items.

Definition leftChain (e : Expr) (items : list (str * str)) : Expr :=
  fold_left (fun acc ox => Binary (fst ox) acc (Var (snd ox))) items e.

(** [x0 ^ x1 ^ x2 ...], as the tree that leans right. *)
Fixpoint rightChain (glyph : str) (x0 : str) (xs : list str) : Expr :=
  match xs with
  | [] => Var x0
  | x1 :: xs' => Binary glyph (Var x0) (rightChain glyph x1 xs')
  end.

(* ================================================================== *)
(** ** What the further properties speak of *)

(** A rune that is no blank, and a string with no blank in it. *)
Definition nonBlank (c : rune) : bool := negb (isWsp c).

Definition blankFree (t : str) : bool := forallb nonBlank t.

(** What the loop of [tokenize] keeps, after the runes [pre]: the tokens
    that are out are not empty and hold no blank; the buffer is empty at the
    start only, and then there is no state; the buffer is all blanks or has
    none, as its first rune has it, and so is whatever the state accepts;
    and nothing but blanks was lost. *)
Definition tokInv (pre : list rune) (s : tokState) : Prop :=
  Forall (fun t => t <> [] /\ blankFree t = true) (matches s)
  /\ (buf s = [] <-> pre = [])
  /\ (buf s = [] -> st s = None)
  /\ (forall c, hd_error (buf s) = Some c ->
        forallb (fun x => Bool.eqb (isWsp x) (isWsp c)) (buf s) = true
        /\ forall x, accepts (st s) x = true -> isWsp x = isWsp c)
  /\ filter nonBlank (concat (matches s) ++ buf s) = filter nonBlank pre.

(** The strings of a tree: the names of its variables and its operators. *)
Fixpoint names (e : Expr) : list str :=
  match e with
  | nilExpr => []
  | Var x => [x]
  | Apply f a => names f ++ names a
  | Unary op a => op :: names a
  | Binary op l r => op :: names l ++ names r
  end.

(** A string that the parser may put in a tree: a token, or the opener and
    the closer of a structural group, joined. *)
Definition known (p : Parser) (tokens : list str) (x : str) : Prop :=
  In x tokens \/ In x (map (fun group => Left group ++ Right group) (Brackets p)).

(** [lo] is what is left of [tokens] once some of them, from the left, are
    taken. *)
Definition suffix (lo tokens : list str) : Prop :=
  exists taken, tokens = taken ++ lo.

(** What every return keeps: the remainder is a suffix of the tokens, the
    token an error names is one of the tokens, and so is every string of
    the tree, but for the names of the structural groups. *)
Definition sound (p : Parser) (tokens : list str) (o : outcome parsed) : Prop :=
  match o with
  | Returns (lo, e, err) =>
      suffix lo tokens
      /\ (forall u, err = Some u -> In (Found u) tokens)
      /\ Forall (known p tokens) (names e)
  | _ => True
  end.

(** Some level from [prec] on is right-infix or suffix: the two kinds that
    return a nil tree with the error of their operand. *)
Definition clearsTree (p : Parser) (prec : nat) : bool :=
  existsb (fun op => match Type_ op with
                     | InfixRight | Suffix => true
                     | _ => false
                     end) (skipn prec (Operators p)).

(** No group of the grammar opens with the token [t]. *)
Definition opensNone (p : Parser) (t : str) : bool :=
  negb (existsb (fun group => str_eqb t (Left group)) (Parens p ++ Brackets p)).

(** What [fmt] prints for an [Expr] operand: its [String()], and for a nil
    operand what the verb makes of nil, [%v] ([v] set) or [%s]. *)
Fixpoint render (v : bool) (e : Expr) : str :=
  match e with
  | nilExpr => if v then go "<nil>" else go "%!s(<nil>)"
  | Var x => x
  | Apply f a =>
      go "(" ++ render true f ++ go " " ++ render true a ++ go ")"
  | Unary op a => go "(" ++ op ++ go " " ++ render false a ++ go ")"
  | Binary op l r =>
      go "(" ++ render false l ++ go " " ++ op ++ go " " ++ render false r
      ++ go ")"
  end.

(** The method [String()]: on a nil [Expr] the call itself panics. *)
Definition ExprString (e : Expr) : outcome str :=
  match e with
  | nilExpr => Panics
  | _ => Returns (render false e)
  end.

Definition EquationString (q : Equation) : str :=
  match q with
  | mkEquation l r => render false l ++ go " = " ++ render false r
  end.

(** The infix operators of the PEMDAS grammar. *)
Definition infixGlyphs : list str :=
  [go ","; go "+"; go "-"; go "*"; go "/"; go "\"; go "^"].

(** Trees of variables, infix operators of the PEMDAS grammar, its prefix
    operators, and applications of a variable. *)
Fixpoint plain (e : Expr) : bool :=
  match e with
  | nilExpr => false
  | Var x => isVar x
  | Apply (Var f) a => isVar f && plain a
  | Apply _ _ => false
  | Unary op a => isOp op [go "-"; go "+"] && plain a
  | Binary op l r => isOp op infixGlyphs && plain l && plain r
  end.

(** The tokens of the rendering of a tree. *)
Fixpoint treeTokens (e : Expr) : list str :=
  match e with
  | nilExpr => []
  | Var x => [x]
  | Apply f a => go "(" :: treeTokens f ++ treeTokens a ++ [go ")"]
  | Unary op a => go "(" :: op :: treeTokens a ++ [go ")"]
  | Binary op l r =>
      go "(" :: treeTokens l ++ op :: treeTokens r ++ [go ")"]
  end.

(** A string that the tokenizer makes one token of: a rune that is no
    blank, and runes that the state it selects accepts. *)
Definition oneToken (x : str) : bool :=
  match x with
  | [] => false
  | c :: run =>
      negb (isWsp c) && forallb (accepts (selectPred 0 tokenPreds c)) run
  end.

(** The tokens of what follows a token: the marker alone at the end of the
    text. *)
Definition tokensThen (k : list rune) : list str :=
  match k with
  | [] => [eof]
  | _ => tokensOf k
  end.

(** A text that starts with a rune that is no blank. *)
Definition startsText (x : list rune) : Prop :=
  exists c tl, x = c :: tl /\ isWsp c = false.

(** What may follow a rendering inside a rendering: nothing, a blank or a
    closing parenthesis. *)
Definition follows (k : list rune) : Prop :=
  match k with
  | [] => True
  | d :: _ => d = 32 \/ d = 41
  end.

(* ================================================================== *)
(** ** What the PEMDAS table asks for *)

(** The level of the PEMDAS table that builds the node at the root of a
    tree: the level of its operator, and 6, past the table, for a
    variable. *)
Definition levelOf (e : Expr) : nat :=
  match e with
  | Binary op _ _ =>
      if isOp op [go ","] then 0%nat
      else if isOp op [go "+"; go "-"] then 1%nat
      else if isOp op [go "*"; go "/"; go "\"] then 2%nat
      else 3%nat
  | Unary op _ => if isOp op [go "'"] then 5%nat else 4%nat
  | _ => 6%nat
  end.

(** Trees of variables and of the operators of the PEMDAS table, each in
    its place: an infix operator over two operands, a prefix or the suffix
    operator over one. *)
Fixpoint opTree (e : Expr) : bool :=
  match e with
  | Var x => isVar x
  | Unary op a => (isOp op [go "-"; go "+"] || isOp op [go "'"]) && opTree a
  | Binary op l r => isOp op infixGlyphs && opTree l && opTree r
  | _ => false
  end.

(** The tokens of a tree where the level [k] is asked for, with the
    parentheses that the table makes necessary and no other: around a node
    of a lower level than [k].  The left operand of a left-infix operator
    is asked at the level of the operator and the right one at the next,
    for a right-infix operator it is the other way round; the operand of a
    prefix operator is asked at the level of the operator, as is the
    operand of the suffix operator. *)
Fixpoint show (k : nat) (e : Expr) : list str :=
  let body :=
    match e with
    | Var x => [x]
    | Unary op a =>
        if isOp op [go "'"] then show 5 a ++ [op] else op :: show 4 a
    | Binary op l r =>
        if Nat.eqb (levelOf e) 3 then show 4 l ++ op :: show 3 r
        else show (levelOf e) l ++ op :: show (S (levelOf e)) r
    | _ => []
    end in
  if Nat.ltb (levelOf e) k then go "(" :: body ++ [go ")"] else body.

(** A token that ends an operand parsed from the level [k] of the PEMDAS
    table: it starts no application, and it is no infix or suffix operator
    of the levels from [k] on. *)
Definition stops (k : nat) (t : str) : bool :=
  endsApply PEMDAS t && passes (skipn k (Operators PEMDAS)) eof t.

(** The tree of a run of prefix operators over an operand, and of [n]
    suffix operators after one. *)
Definition prefixed (ops : list str) (e : Expr) : Expr :=
  fold_right Unary e ops.

Definition suffixed (g : str) (n : nat) (e : Expr) : Expr :=
  Nat.iter n (Unary g) e.

(** The text of tokens with one blank between two of them. *)
Fixpoint spaced (toks : list str) : str :=
  match toks with
  | [] => []
  | [x] => x
  | x :: tl => x ++ 32 :: spaced tl
  end.

(* ================================================================== *)
(** ** eval.go: [Eval] *)

(** [Eval(code, args...)]: the error returned, and what the arguments
    point to afterwards.  An argument stands for the value behind its
    pointer: the model is of the calls whose arguments share no memory.
    Up to the value of the right side nothing is written, so that the
    parse, the count of the arguments, the scope and the evaluation are
    those of every call. *)
Definition Eval (K : Floats) (code : str) (args : list (arg K))
  : outcome (option EvalError * list (arg K)) :=
  '(tree, err) <- Parse PEMDAS code ;;
  match err with
  | Some u => Returns (Some (SyntaxError u), args)
  | None =>
      match tree with
      | None => Panics
      | Some (mkEquation (Var y) r) =>
          vars <- addVarsEquation (mkEquation (Var y) r) [] ;;
          if negb (Nat.eqb (length vars) (length args))
          then Returns (Some (ArgCount (length args) vars), args)
          else
            rest <- match vars with
                    | [] => Panics
                    | _ :: rest => Returns rest
                    end ;;
            scope <- forEach rest O
                       (fun i v scope =>
                          x <- index args (S i) ;;
                          m <- readMat K x ;;
                          Returns ((v, m) :: scope))
                       [] ;;
            x0 <- index args O ;;
            val <- eval K r scope ;;
            x0' <- writeMat K x0 val ;;
            Returns (None, x0' :: tl args)
      | Some tree => Returns (Some (NotAnAssignment tree), args)
      end
  end.

Arguments runSingle : simpl never.
Arguments runExpr : simpl never.
Arguments runApply : simpl never.
Arguments runInfixLeft : simpl never.

(* ================================================================== *)
(** ** What is said of a call *)

(** The call came to an end: it returned or it panicked. *)
Definition halts {A} (o : outcome A) : Prop := o <> OutOfFuel.

(** [o1] is [o2], or [o1] ran out of fuel. *)
Definition upto {A} (o1 o2 : outcome A) : Prop :=
  o1 = OutOfFuel \/ o1 = o2.

(** The remainder is no longer than the tokens given, and shorter when no
    error is returned. *)
Definition consumes (tokens : list str) (o : outcome parsed) : Prop :=
  match o with
  | Returns (lo, _, err) =>
      (length lo <= length tokens)%nat
      /\ (err = None -> (length lo < length tokens)%nat)
  | _ => True
  end.

(* ================================================================== *)
(** ** Strings *)

Lemma str_eqb_eq (a b : str) : str_eqb a b = true <-> a = b.
Proof.
  revert b; induction a as [|x a IH]; intros [|y b]; simpl; split;
    try congruence; try reflexivity.
  - intros H. apply andb_true_iff in H as [H1 H2].
    apply Z.eqb_eq in H1. apply IH in H2. congruence.
  - intros H. injection H as -> ->.
    apply andb_true_iff. split; [apply Z.eqb_refl | now apply IH].
Qed.

Lemma str_eqb_refl (a : str) : str_eqb a a = true.
Proof. now apply str_eqb_eq. Qed.

Lemma str_eqb_neq (a b : str) : a <> b -> str_eqb a b = false.
Proof.
  intros H. destruct (str_eqb a b) eqn:E; [|reflexivity].
  apply str_eqb_eq in E. contradiction.
Qed.

(* ================================================================== *)
(** ** The remainder never grows *)

(** Splits on what a call did; the cases where it did not return are
    closed when they are trivial. *)
Tactic Notation "case_outcome" constr(o) "as" ident(lo) ident(e) ident(err) :=
  let r := fresh "r" in
  destruct o as [r| |]; simpl; trivial;
  try (destruct r as [[lo e] err]; simpl).

Lemma applyLoop_consumes (p : Parser) (single : list str -> outcome parsed) :
  (forall l, consumes l (single l)) ->
  forall fuel lo e,
    match applyLoop fuel p single lo e with
    | Returns (lo', _, _) => (length lo' <= length lo)%nat
    | _ => True
    end.
Proof.
  intros Hs. induction fuel as [|n IH]; intros lo e; simpl; trivial.
  destruct lo as [|l0 rest]; trivial.
  destruct (_ || _); [|simpl; lia].
  pose proof (Hs (l0 :: rest)) as H.
  case_outcome (single (l0 :: rest)) as lo2 e2 err2.
  destruct H as [H1 H2].
  destruct err2 as [u|]; [exact H1|].
  specialize (H2 eq_refl). specialize (IH lo2 (Apply e e2)).
  case_outcome (applyLoop n p single lo2 (Apply e e2)) as lo' e' err'.
  simpl in *; lia.
Qed.

Lemma infixLeftLoop_consumes (glyphs : list str)
    (operand : list str -> outcome parsed) :
  (forall l, consumes l (operand l)) ->
  forall fuel lo e err,
    match infixLeftLoop fuel glyphs operand lo e err with
    | Returns (lo', _, err') =>
        (length lo' <= length lo)%nat
        /\ (err' = None -> err = None \/ (length lo' < length lo)%nat)
    | _ => True
    end.
Proof.
  intros Hs. induction fuel as [|n IH]; intros lo e err; simpl; trivial.
  destruct lo as [|glyph rest]; trivial.
  destruct (isOp glyph glyphs); [|simpl; auto].
  pose proof (Hs rest) as H.
  case_outcome (operand rest) as lo2 e2 err2.
  destruct H as [H1 H2].
  destruct err2 as [u|].
  - split; [lia | discriminate].
  - specialize (IH lo2 (Binary glyph e e2) None). specialize (H2 eq_refl).
    case_outcome (infixLeftLoop n glyphs operand lo2 (Binary glyph e e2) None)
      as lo' e' err'.
    destruct IH as [IH1 _].
    split; [lia | intros _; right; lia].
Qed.

Lemma suffixLoop_consumes (glyphs : list str) :
  forall lo e,
    match suffixLoop glyphs lo e with
    | Returns (lo', _, _) => (length lo' <= length lo)%nat
    | _ => True
    end.
Proof.
  induction lo as [|l0 rest IH]; intros e; simpl; trivial.
  destruct (isOp l0 glyphs); [|simpl; lia].
  specialize (IH (Unary l0 e)).
  case_outcome (suffixLoop glyphs rest (Unary l0 e)) as lo' e' err'.
  lia.
Qed.

Lemma closeGroup_consumes (group : Group) (wrap : Expr -> Expr)
    (t0 : str) (rest : list str) (o : outcome parsed) :
  consumes rest o ->
  consumes (t0 :: rest) (r <- o ;; closeGroup group wrap r).
Proof.
  intros H. case_outcome o as lo e err. destruct H as [H1 H2].
  destruct lo as [|l0 lo']; simpl; trivial.
  destruct (negb _); simpl in *; split; intros; try lia; discriminate.
Qed.

Lemma parse_consumes (fuel : nat) :
  (forall p tokens inApp, consumes tokens (parseSingle fuel p tokens inApp))
  /\ (forall p prec tokens, consumes tokens (parseExpr fuel p prec tokens)).
Proof.
  induction fuel as [|n [IHs IHe]]; [split; intros; exact I|].
  split.
  - intros p tokens inApp. simpl.
    destruct tokens as [|t0 rest]; [exact I|].
    destruct (isVar t0).
    { destruct inApp; [simpl; split; intros; lia|].
      pose proof (applyLoop_consumes p (fun lo => parseSingle n p lo true)
                    (fun l => IHs p l true) n rest (Var t0)) as H.
      case_outcome (applyLoop n p (fun lo => parseSingle n p lo true) rest
                      (Var t0)) as lo e err.
      split; intros; lia. }
    destruct (openedBy t0 (Parens p)) as [group|].
    { apply closeGroup_consumes, IHe. }
    destruct (openedBy t0 (Brackets p)) as [group|].
    { destruct rest as [|t1 rest2].
      - apply closeGroup_consumes, IHe.
      - destruct (str_eqb t1 (Right group)).
        + simpl. split; intros; lia.
        + apply closeGroup_consumes, IHe. }
    simpl. split; [lia | discriminate].
  - intros p prec tokens. simpl.
    destruct (nth_error (Operators p) prec) as [op|]; [|apply IHs].
    destruct (Type_ op).
    + (* InfixLeft *)
      pose proof (IHe p (S prec) tokens) as H.
      case_outcome (parseExpr n p (S prec) tokens) as lo e err.
      destruct H as [H1 H2].
      pose proof (infixLeftLoop_consumes (Glyphs op) (parseExpr n p (S prec))
                    (IHe p (S prec)) n lo e err) as H.
      case_outcome (infixLeftLoop n (Glyphs op) (parseExpr n p (S prec))
                      lo e err) as lo' e' err'.
      destruct H as [H3 H4]. split; [lia|].
      intros E. destruct (H4 E) as [E'|]; [specialize (H2 E')|]; lia.
    + (* InfixRight *)
      pose proof (IHe p (S prec) tokens) as H.
      case_outcome (parseExpr n p (S prec) tokens) as lo e err.
      destruct H as [H1 H2].
      destruct err as [u|]; [simpl; split; [lia | discriminate]|].
      specialize (H2 eq_refl).
      destruct lo as [|glyph rest]; simpl in *; trivial.
      destruct (isOp glyph (Glyphs op)); [|simpl; split; intros; lia].
      pose proof (IHe p prec rest) as H.
      case_outcome (parseExpr n p prec rest) as lo2 e2 err2.
      destruct H as [H3 H4]. simpl in *.
      destruct err2 as [u|].
      * destruct lo2 as [|l0 lo3]; simpl; trivial.
        simpl in *. split; [lia | discriminate].
      * simpl. split; intros; lia.
    + (* Prefix *)
      destruct tokens as [|glyph rest]; [exact I|].
      destruct (isOp glyph (Glyphs op)).
      * pose proof (IHe p prec rest) as H.
        case_outcome (parseExpr n p prec rest) as lo e err.
        destruct H as [H1 H2].
        destruct err as [u|]; simpl; split; intros; try lia; discriminate.
      * apply IHe.
    + (* Suffix *)
      pose proof (IHe p (S prec) tokens) as H.
      case_outcome (parseExpr n p (S prec) tokens) as lo e err.
      destruct H as [H1 H2].
      destruct err as [u|]; [simpl; split; [lia | discriminate]|].
      specialize (H2 eq_refl).
      pose proof (suffixLoop_consumes (Glyphs op) lo e) as H.
      case_outcome (suffixLoop (Glyphs op) lo e) as lo' e' err'.
      split; intros; lia.
Qed.

(* ================================================================== *)
(** ** Enough fuel: every call comes to an end *)

Lemma halts_bind {A B} (o : outcome A) (k : A -> outcome B) :
  halts o -> (forall a, o = Returns a -> halts (k a)) -> halts (bind o k).
Proof.
  unfold halts. intros Ho Hk. destruct o as [a| |]; simpl.
  - now apply Hk.
  - discriminate.
  - contradiction.
Qed.

Lemma closeGroup_halts (group : Group) (wrap : Expr -> Expr) (r : parsed) :
  halts (closeGroup group wrap r).
Proof.
  unfold halts. destruct r as [[lo e] err]. simpl.
  destruct lo as [|l0 rest]; [discriminate|].
  destruct (negb _); discriminate.
Qed.

Lemma suffixLoop_halts (glyphs : list str) (lo : list str) (e : Expr) :
  halts (suffixLoop glyphs lo e).
Proof.
  unfold halts. revert e. induction lo as [|l0 rest IH]; intros e; simpl.
  - discriminate.
  - destruct (isOp l0 glyphs); [apply IH | discriminate].
Qed.

Lemma applyLoop_halts (p : Parser) (single : list str -> outcome parsed) :
  (forall l, consumes l (single l)) ->
  forall fuel lo e,
    (length lo < fuel)%nat ->
    (forall l, (length l <= length lo)%nat -> halts (single l)) ->
    halts (applyLoop fuel p single lo e).
Proof.
  intros Hc. induction fuel as [|n IH]; intros lo e Hn Hs; [lia|].
  simpl. destruct lo as [|l0 rest]; [discriminate|].
  destruct (_ || _); [|discriminate].
  apply halts_bind; [apply Hs; lia|].
  intros [[lo2 e2] err2] E.
  pose proof (Hc (l0 :: rest)) as H. rewrite E in H.
  destruct H as [H1 H2]. simpl in *.
  destruct err2 as [u|]; [discriminate|].
  specialize (H2 eq_refl).
  apply IH; [lia|]. intros l Hl. apply Hs. lia.
Qed.

Lemma infixLeftLoop_halts (glyphs : list str)
    (operand : list str -> outcome parsed) :
  (forall l, consumes l (operand l)) ->
  forall fuel lo e err,
    (length lo < fuel)%nat ->
    (forall l, (length l <= length lo)%nat -> halts (operand l)) ->
    halts (infixLeftLoop fuel glyphs operand lo e err).
Proof.
  intros Hc. induction fuel as [|n IH]; intros lo e err Hn Hs; [lia|].
  simpl. destruct lo as [|glyph rest]; [discriminate|].
  destruct (isOp glyph glyphs); [|discriminate].
  simpl in *.
  apply halts_bind; [apply Hs; lia|].
  intros [[lo2 e2] err2] E.
  pose proof (Hc rest) as H. rewrite E in H.
  destruct H as [H1 H2].
  destruct err2 as [u|]; [discriminate|].
  apply IH; [lia|]. intros l Hl. apply Hs. lia.
Qed.

Lemma fuelExpr_mono (p : Parser) (prec : nat) (l tokens : list str) :
  (length l <= length tokens)%nat ->
  (fuelExpr p prec l <= fuelExpr p prec tokens)%nat.
Proof. unfold fuelExpr. intros H. nia. Qed.

Lemma fuelSingle_mono (p : Parser) (l tokens : list str) :
  (length l <= length tokens)%nat ->
  (fuelSingle p l <= fuelSingle p tokens)%nat.
Proof. unfold fuelSingle. intros H. nia. Qed.

Lemma parse_halts (fuel : nat) :
  (forall p tokens inApp,
      (fuelSingle p tokens <= fuel)%nat ->
      halts (parseSingle fuel p tokens inApp))
  /\ (forall p prec tokens,
      (fuelExpr p prec tokens <= fuel)%nat ->
      halts (parseExpr fuel p prec tokens)).
Proof.
  induction fuel as [|n [IHs IHe]].
  { split; intros; [unfold fuelSingle in * | unfold fuelExpr in *]; lia. }
  split.
  - intros p tokens inApp Hn. simpl.
    destruct tokens as [|t0 rest]; [discriminate|].
    assert (He : (fuelExpr p 0 rest <= n)%nat).
    { unfold fuelSingle, fuelExpr in *. simpl in Hn. nia. }
    destruct (isVar t0).
    { destruct inApp; [discriminate|].
      apply applyLoop_halts.
      - intros l. apply (proj1 (parse_consumes n)).
      - unfold fuelSingle in Hn. simpl in Hn. nia.
      - intros l Hl. apply IHs.
        pose proof (fuelSingle_mono p l rest Hl).
        unfold fuelSingle in *. simpl in Hn. nia. }
    destruct (openedBy t0 (Parens p)) as [group|].
    { apply halts_bind; [now apply IHe|]. intros; apply closeGroup_halts. }
    destruct (openedBy t0 (Brackets p)) as [group|]; [|discriminate].
    destruct rest as [|t1 rest2].
    + apply halts_bind; [now apply IHe|]. intros; apply closeGroup_halts.
    + destruct (str_eqb t1 (Right group)); [discriminate|].
      apply halts_bind; [now apply IHe|]. intros; apply closeGroup_halts.
  - intros p prec tokens Hn. simpl.
    destruct (nth_error (Operators p) prec) as [op|] eqn:Eop.
    2:{ apply IHs. apply nth_error_None in Eop.
        unfold fuelSingle, fuelExpr in *. lia. }
    assert (Hp : (prec < length (Operators p))%nat).
    { apply nth_error_Some. congruence. }
    assert (Hup : (fuelExpr p (S prec) tokens <= n)%nat).
    { unfold fuelExpr in *. lia. }
    assert (Hlen : (length tokens < n)%nat).
    { unfold fuelExpr in *. nia. }
    destruct (Type_ op).
    + (* InfixLeft *)
      apply halts_bind; [now apply IHe|].
      intros [[lo e] err] E.
      pose proof (proj2 (parse_consumes n) p (S prec) tokens) as H.
      rewrite E in H. destruct H as [H1 _].
      apply infixLeftLoop_halts.
      * intros l. apply (proj2 (parse_consumes n)).
      * lia.
      * intros l Hl. apply IHe.
        pose proof (fuelExpr_mono p (S prec) l tokens). lia.
    + (* InfixRight *)
      apply halts_bind; [now apply IHe|].
      intros [[lo e] err] E.
      pose proof (proj2 (parse_consumes n) p (S prec) tokens) as H.
      rewrite E in H. destruct H as [H1 _].
      destruct err as [u|]; [discriminate|].
      destruct lo as [|glyph rest]; [discriminate|].
      destruct (isOp glyph (Glyphs op)); [|discriminate].
      apply halts_bind.
      * apply IHe. simpl in H1. unfold fuelExpr in *. nia.
      * intros [[lo2 e2] err2] _.
        destruct err2 as [u|]; [|discriminate].
        destruct lo2; discriminate.
    + (* Prefix *)
      destruct tokens as [|glyph rest]; [discriminate|].
      destruct (isOp glyph (Glyphs op)); [|now apply IHe].
      apply halts_bind.
      * apply IHe. unfold fuelExpr in *. simpl in Hn. nia.
      * intros [[lo e] err] _. destruct err; discriminate.
    + (* Suffix *)
      apply halts_bind; [now apply IHe|].
      intros [[lo e] err] _.
      destruct err as [u|]; [discriminate | apply suffixLoop_halts].
Qed.

(* ================================================================== *)
(** ** More fuel changes nothing *)

Lemma upto_refl {A} (o : outcome A) : upto o o.
Proof. now right. Qed.

Lemma upto_bind {A B} (o1 o2 : outcome A) (k1 k2 : A -> outcome B) :
  upto o1 o2 -> (forall a, upto (k1 a) (k2 a)) ->
  upto (bind o1 k1) (bind o2 k2).
Proof.
  intros [->| ->] Hk; [now left|].
  destruct o2 as [a| |]; simpl; [apply Hk | now right | now left].
Qed.

Lemma upto_halts {A} (o1 o2 : outcome A) : upto o1 o2 -> halts o1 -> o1 = o2.
Proof. intros [H|H] Hh; [contradiction | exact H]. Qed.

Lemma applyLoop_upto (p : Parser) (single1 single2 : list str -> outcome parsed) :
  (forall l, upto (single1 l) (single2 l)) ->
  forall fuel lo e,
    upto (applyLoop fuel p single1 lo e) (applyLoop (S fuel) p single2 lo e).
Proof.
  intros Hs. induction fuel as [|n IH]; intros lo e; [now left|].
  change (applyLoop (S (S n)) p single2 lo e) with
    (match lo with
     | [] => Panics
     | l0 :: _ =>
         if existsb (fun group => str_eqb l0 (Left group))
                    (Parens p ++ Brackets p)
            || (isVar l0 && AdjacentIsApplication p)
         then
           '(lo2, e2, err) <- single2 lo ;;
           match err with
           | Some _ => Returns (lo2, e, err)
           | None => applyLoop (S n) p single2 lo2 (Apply e e2)
           end
         else Returns (lo, e, None)
     end).
  simpl. destruct lo as [|l0 rest]; [apply upto_refl|].
  destruct (_ || _); [|apply upto_refl].
  apply upto_bind; [apply Hs|].
  intros [[lo2 e2] err]. destruct err; [apply upto_refl | apply IH].
Qed.

Lemma infixLeftLoop_upto (glyphs : list str)
    (operand1 operand2 : list str -> outcome parsed) :
  (forall l, upto (operand1 l) (operand2 l)) ->
  forall fuel lo e err,
    upto (infixLeftLoop fuel glyphs operand1 lo e err)
         (infixLeftLoop (S fuel) glyphs operand2 lo e err).
Proof.
  intros Hs. induction fuel as [|n IH]; intros lo e err; [now left|].
  change (infixLeftLoop (S (S n)) glyphs operand2 lo e err) with
    (match lo with
     | [] => Panics
     | glyph :: rest =>
         if isOp glyph glyphs then
           '(lo2, e2, err2) <- operand2 rest ;;
           match err2 with
           | Some _ => Returns (lo2, nilExpr, err2)
           | None =>
               infixLeftLoop (S n) glyphs operand2 lo2 (Binary glyph e e2) None
           end
         else Returns (lo, e, err)
     end).
  simpl. destruct lo as [|glyph rest]; [apply upto_refl|].
  destruct (isOp glyph glyphs); [|apply upto_refl].
  apply upto_bind; [apply Hs|].
  intros [[lo2 e2] err2]. destruct err2; [apply upto_refl | apply IH].
Qed.

(** One turn of each function, with the fuel that is left for its calls. *)
Lemma parseSingle_S (n : nat) (p : Parser) (tokens : list str) (inApp : bool) :
  parseSingle (S n) p tokens inApp =
  match tokens with
  | [] => Panics
  | t0 :: rest =>
      if isVar t0 then
        if inApp then Returns (rest, Var t0, None)
        else applyLoop n p (fun lo => parseSingle n p lo true) rest (Var t0)
      else
        match openedBy t0 (Parens p) with
        | Some group =>
            r <- parseExpr n p 0 rest ;; closeGroup group (fun e => e) r
        | None =>
            match openedBy t0 (Brackets p) with
            | Some group =>
                let both := Left group ++ Right group in
                match rest with
                | t1 :: rest2 =>
                    if str_eqb t1 (Right group)
                    then Returns (rest2, Var both, None)
                    else r <- parseExpr n p 0 rest ;;
                         closeGroup group (Unary both) r
                | [] =>
                    r <- parseExpr n p 0 rest ;;
                    closeGroup group (Unary both) r
                end
            | None =>
                Returns (tokens, nilExpr, Some (mkUnexpected t0 (options p)))
            end
        end
  end.
Proof. reflexivity. Qed.

Lemma parseExpr_S (n : nat) (p : Parser) (prec : nat) (tokens : list str) :
  parseExpr (S n) p prec tokens =
  match nth_error (Operators p) prec with
  | None => parseSingle n p tokens false
  | Some op =>
      match Type_ op with
      | Prefix =>
          match tokens with
          | [] => Panics
          | glyph :: rest =>
              if isOp glyph (Glyphs op) then
                '(lo, e, err) <- parseExpr n p prec rest ;;
                match err with
                | Some _ => Returns (lo, nilExpr, err)
                | None => Returns (lo, Unary glyph e, None)
                end
              else parseExpr n p (S prec) tokens
          end
      | InfixLeft =>
          '(lo, e, err) <- parseExpr n p (S prec) tokens ;;
          infixLeftLoop n (Glyphs op) (parseExpr n p (S prec)) lo e err
      | InfixRight =>
          '(lo, e, err) <- parseExpr n p (S prec) tokens ;;
          match err with
          | Some _ => Returns (lo, nilExpr, err)
          | None =>
              match lo with
              | [] => Panics
              | glyph :: rest =>
                  if isOp glyph (Glyphs op) then
                    '(lo2, e2, err2) <- parseExpr n p prec rest ;;
                    match err2 with
                    | Some _ =>
                        match lo2 with
                        | [] => Panics
                        | _ :: lo3 => Returns (lo3, nilExpr, err2)
                        end
                    | None => Returns (lo2, Binary glyph e e2, None)
                    end
                  else Returns (lo, e, None)
              end
          end
      | Suffix =>
          '(lo, e, err) <- parseExpr n p (S prec) tokens ;;
          match err with
          | Some _ => Returns (lo, nilExpr, err)
          | None => suffixLoop (Glyphs op) lo e
          end
      end
  end.
Proof. reflexivity. Qed.

Lemma parse_upto (fuel : nat) :
  (forall p tokens inApp,
      upto (parseSingle fuel p tokens inApp)
           (parseSingle (S fuel) p tokens inApp))
  /\ (forall p prec tokens,
      upto (parseExpr fuel p prec tokens) (parseExpr (S fuel) p prec tokens)).
Proof.
  induction fuel as [|n [IHs IHe]]; [split; intros; now left|].
  split.
  - intros p tokens inApp.
    rewrite (parseSingle_S (S n)), (parseSingle_S n).
    destruct tokens as [|t0 rest]; [apply upto_refl|].
    destruct (isVar t0).
    { destruct inApp; [apply upto_refl|].
      apply applyLoop_upto. intros l. apply IHs. }
    destruct (openedBy t0 (Parens p)) as [group|].
    { apply upto_bind; [apply IHe | intros; apply upto_refl]. }
    destruct (openedBy t0 (Brackets p)) as [group|]; [|apply upto_refl].
    cbv zeta.
    destruct rest as [|t1 rest2].
    + apply upto_bind; [apply IHe | intros; apply upto_refl].
    + destruct (str_eqb t1 (Right group)); [apply upto_refl|].
      apply upto_bind; [apply IHe | intros; apply upto_refl].
  - intros p prec tokens.
    rewrite (parseExpr_S (S n)), (parseExpr_S n).
    destruct (nth_error (Operators p) prec) as [op|]; [|apply IHs].
    destruct (Type_ op).
    + apply upto_bind; [apply IHe|].
      intros [[lo e] err]. apply infixLeftLoop_upto. intros l. apply IHe.
    + apply upto_bind; [apply IHe|].
      intros [[lo e] err]. destruct err; [apply upto_refl|].
      destruct lo as [|glyph rest]; [apply upto_refl|].
      destruct (isOp glyph (Glyphs op)); [|apply upto_refl].
      apply upto_bind; [apply IHe | intros; apply upto_refl].
    + destruct tokens as [|glyph rest]; [apply upto_refl|].
      destruct (isOp glyph (Glyphs op)); [|apply IHe].
      apply upto_bind; [apply IHe | intros; apply upto_refl].
    + apply upto_bind; [apply IHe | intros; apply upto_refl].
Qed.

Lemma parseExpr_more (p : Parser) (prec : nat) (tokens : list str)
    (n k : nat) :
  halts (parseExpr n p prec tokens) ->
  parseExpr (n + k) p prec tokens = parseExpr n p prec tokens.
Proof.
  intros H. induction k as [|k IH]; [now rewrite Nat.add_0_r|].
  rewrite Nat.add_succ_r.
  pose proof (proj2 (parse_upto (n + k)) p prec tokens) as U.
  rewrite <- IH. symmetry. apply upto_halts; [exact U|]. now rewrite IH.
Qed.

Lemma parseSingle_more (p : Parser) (tokens : list str) (inApp : bool)
    (n k : nat) :
  halts (parseSingle n p tokens inApp) ->
  parseSingle (n + k) p tokens inApp = parseSingle n p tokens inApp.
Proof.
  intros H. induction k as [|k IH]; [now rewrite Nat.add_0_r|].
  rewrite Nat.add_succ_r.
  pose proof (proj1 (parse_upto (n + k)) p tokens inApp) as U.
  rewrite <- IH. symmetry. apply upto_halts; [exact U|]. now rewrite IH.
Qed.

(** A result found with some fuel is what the call returns. *)
Lemma runExpr_eq (p : Parser) (prec : nat) (tokens : list str) (n : nat)
    (r : outcome parsed) :
  parseExpr n p prec tokens = r -> halts r -> runExpr p prec tokens = r.
Proof.
  intros E H. unfold runExpr.
  set (m := fuelExpr p prec tokens).
  assert (Hm : halts (parseExpr m p prec tokens)).
  { apply (proj2 (parse_halts m)). apply Nat.le_refl. }
  rewrite <- E in H.
  rewrite <- (parseExpr_more p prec tokens m n Hm).
  rewrite Nat.add_comm. rewrite (parseExpr_more p prec tokens n m H).
  exact E.
Qed.

Lemma runSingle_eq (p : Parser) (tokens : list str) (inApp : bool) (n : nat)
    (r : outcome parsed) :
  parseSingle n p tokens inApp = r -> halts r -> runSingle p tokens inApp = r.
Proof.
  intros E H. unfold runSingle.
  set (m := fuelSingle p tokens).
  assert (Hm : halts (parseSingle m p tokens inApp)).
  { apply (proj1 (parse_halts m)). apply Nat.le_refl. }
  rewrite <- E in H.
  rewrite <- (parseSingle_more p tokens inApp m n Hm).
  rewrite Nat.add_comm. rewrite (parseSingle_more p tokens inApp n m H).
  exact E.
Qed.

Lemma parseExpr_run (p : Parser) (prec : nat) (tokens : list str) (n : nat) :
  (fuelExpr p prec tokens <= n)%nat ->
  parseExpr n p prec tokens = runExpr p prec tokens.
Proof.
  intros Hn. symmetry. apply (runExpr_eq p prec tokens n); [reflexivity|].
  now apply (proj2 (parse_halts n)).
Qed.

Lemma parseSingle_run (p : Parser) (tokens : list str) (inApp : bool)
    (n : nat) :
  (fuelSingle p tokens <= n)%nat ->
  parseSingle n p tokens inApp = runSingle p tokens inApp.
Proof.
  intros Hn. symmetry. apply (runSingle_eq p tokens inApp n); [reflexivity|].
  now apply (proj1 (parse_halts n)).
Qed.

Lemma runExpr_consumes (p : Parser) (prec : nat) (tokens : list str) :
  consumes tokens (runExpr p prec tokens).
Proof. apply (proj2 (parse_consumes _)). Qed.

Lemma runSingle_consumes (p : Parser) (tokens : list str) (inApp : bool) :
  consumes tokens (runSingle p tokens inApp).
Proof. apply (proj1 (parse_consumes _)). Qed.

(* ================================================================== *)
(** ** The loops do not depend on their fuel *)

Lemma bind_ext {A B} (o : outcome A) (k1 k2 : A -> outcome B) :
  (forall a, o = Returns a -> k1 a = k2 a) -> bind o k1 = bind o k2.
Proof. intros H. destruct o; simpl; auto. Qed.

Lemma infixLeftLoop_ext (glyphs : list str)
    (operand1 operand2 : list str -> outcome parsed) :
  (forall l, consumes l (operand1 l)) ->
  forall n m lo e err,
    (length lo < n)%nat -> (length lo < m)%nat ->
    (forall l, (length l < length lo)%nat -> operand1 l = operand2 l) ->
    infixLeftLoop n glyphs operand1 lo e err
    = infixLeftLoop m glyphs operand2 lo e err.
Proof.
  intros Hc. induction n as [|n IH]; intros m lo e err Hn Hm Hx; [lia|].
  destruct m as [|m]; [lia|].
  simpl. destruct lo as [|glyph rest]; [reflexivity|].
  destruct (isOp glyph glyphs); [|reflexivity].
  simpl in *.
  rewrite <- (Hx rest) by lia.
  apply bind_ext. intros [[lo2 e2] err2] E.
  pose proof (Hc rest) as H. rewrite E in H. destruct H as [H1 _].
  destruct err2; [reflexivity|].
  apply IH; try lia. intros l Hl. apply Hx. lia.
Qed.

Lemma applyLoop_ext (p : Parser) (single1 single2 : list str -> outcome parsed) :
  (forall l, consumes l (single1 l)) ->
  forall n m lo e,
    (length lo < n)%nat -> (length lo < m)%nat ->
    (forall l, (length l <= length lo)%nat -> single1 l = single2 l) ->
    applyLoop n p single1 lo e = applyLoop m p single2 lo e.
Proof.
  intros Hc. induction n as [|n IH]; intros m lo e Hn Hm Hx; [lia|].
  destruct m as [|m]; [lia|].
  simpl. destruct lo as [|l0 rest]; [reflexivity|].
  destruct (_ || _); [|reflexivity].
  rewrite <- (Hx (l0 :: rest)) by lia.
  apply bind_ext. intros [[lo2 e2] err2] E.
  pose proof (Hc (l0 :: rest)) as H. rewrite E in H. destruct H as [H1 H2].
  destruct err2; [reflexivity|]. specialize (H2 eq_refl).
  simpl in *.
  apply IH; try lia. intros l Hl. apply Hx. lia.
Qed.

(* ================================================================== *)
(** ** The parser without its fuel

    [runSingle], [runExpr] and the two loops satisfy the equations that the
    bodies of [parseSingle] and [parseExpr] read as. *)

Lemma runApply_unfold (p : Parser) (lo : list str) (e : Expr) :
  runApply p lo e =
  match lo with
  | [] => Panics
  | l0 :: _ =>
      if existsb (fun group => str_eqb l0 (Left group)) (Parens p ++ Brackets p)
         || (isVar l0 && AdjacentIsApplication p)
      then
        '(lo2, e2, err) <- runSingle p lo true ;;
        match err with
        | Some _ => Returns (lo2, e, err)
        | None => runApply p lo2 (Apply e e2)
        end
      else Returns (lo, e, None)
  end.
Proof.
  unfold runApply at 1. simpl.
  destruct lo as [|l0 rest]; [reflexivity|].
  destruct (_ || _); [|reflexivity].
  apply bind_ext. intros [[lo2 e2] err] E.
  destruct err; [reflexivity|].
  pose proof (runSingle_consumes p (l0 :: rest) true) as H.
  rewrite E in H. destruct H as [_ H]. specialize (H eq_refl). simpl in H.
  apply applyLoop_ext; auto; try lia.
  intros l. apply runSingle_consumes.
Qed.

Lemma runInfixLeft_unfold (p : Parser) (prec : nat) (glyphs : list str)
    (lo : list str) (e : Expr) (err : error) :
  runInfixLeft p prec glyphs lo e err =
  match lo with
  | [] => Panics
  | glyph :: rest =>
      if isOp glyph glyphs then
        '(lo2, e2, err2) <- runExpr p (S prec) rest ;;
        match err2 with
        | Some _ => Returns (lo2, nilExpr, err2)
        | None => runInfixLeft p prec glyphs lo2 (Binary glyph e e2) None
        end
      else Returns (lo, e, err)
  end.
Proof.
  unfold runInfixLeft at 1. simpl.
  destruct lo as [|glyph rest]; [reflexivity|].
  destruct (isOp glyph glyphs); [|reflexivity].
  apply bind_ext. intros [[lo2 e2] err2] E.
  destruct err2; [reflexivity|].
  pose proof (runExpr_consumes p (S prec) rest) as H.
  rewrite E in H. destruct H as [H _].
  apply infixLeftLoop_ext; auto; simpl; try lia.
  intros l. apply runExpr_consumes.
Qed.

Lemma runSingle_unfold (p : Parser) (tokens : list str) (inApp : bool) :
  runSingle p tokens inApp =
  match tokens with
  | [] => Panics
  | t0 :: rest =>
      if isVar t0 then
        if inApp then Returns (rest, Var t0, None)
        else runApply p rest (Var t0)
      else
        match openedBy t0 (Parens p) with
        | Some group =>
            r <- runExpr p 0 rest ;; closeGroup group (fun e => e) r
        | None =>
            match openedBy t0 (Brackets p) with
            | Some group =>
                let both := Left group ++ Right group in
                match rest with
                | t1 :: rest2 =>
                    if str_eqb t1 (Right group)
                    then Returns (rest2, Var both, None)
                    else r <- runExpr p 0 rest ;;
                         closeGroup group (Unary both) r
                | [] =>
                    r <- runExpr p 0 rest ;; closeGroup group (Unary both) r
                end
            | None =>
                Returns (tokens, nilExpr, Some (mkUnexpected t0 (options p)))
            end
        end
  end.
Proof.
  unfold runSingle.
  replace (fuelSingle p tokens)
    with (S (length tokens * (length (Operators p) + 2)))
    by (unfold fuelSingle; lia).
  rewrite parseSingle_S.
  destruct tokens as [|t0 rest]; [reflexivity|].
  set (n := (length (t0 :: rest) * (length (Operators p) + 2))%nat).
  assert (He : parseExpr n p 0 rest = runExpr p 0 rest).
  { apply parseExpr_run. unfold fuelExpr. subst n. simpl. nia. }
  rewrite !He.
  destruct (isVar t0); [|reflexivity].
  destruct inApp; [reflexivity|].
  apply applyLoop_ext.
  - intros l. apply (proj1 (parse_consumes n)).
  - subst n. simpl. nia.
  - lia.
  - intros l Hl. apply parseSingle_run.
    unfold fuelSingle. subst n. simpl. nia.
Qed.

Lemma runExpr_unfold (p : Parser) (prec : nat) (tokens : list str) :
  runExpr p prec tokens =
  match nth_error (Operators p) prec with
  | None => runSingle p tokens false
  | Some op =>
      match Type_ op with
      | Prefix =>
          match tokens with
          | [] => Panics
          | glyph :: rest =>
              if isOp glyph (Glyphs op) then
                '(lo, e, err) <- runExpr p prec rest ;;
                match err with
                | Some _ => Returns (lo, nilExpr, err)
                | None => Returns (lo, Unary glyph e, None)
                end
              else runExpr p (S prec) tokens
          end
      | InfixLeft =>
          '(lo, e, err) <- runExpr p (S prec) tokens ;;
          runInfixLeft p prec (Glyphs op) lo e err
      | InfixRight =>
          '(lo, e, err) <- runExpr p (S prec) tokens ;;
          match err with
          | Some _ => Returns (lo, nilExpr, err)
          | None =>
              match lo with
              | [] => Panics
              | glyph :: rest =>
                  if isOp glyph (Glyphs op) then
                    '(lo2, e2, err2) <- runExpr p prec rest ;;
                    match err2 with
                    | Some _ =>
                        match lo2 with
                        | [] => Panics
                        | _ :: lo3 => Returns (lo3, nilExpr, err2)
                        end
                    | None => Returns (lo2, Binary glyph e e2, None)
                    end
                  else Returns (lo, e, None)
              end
          end
      | Suffix =>
          '(lo, e, err) <- runExpr p (S prec) tokens ;;
          match err with
          | Some _ => Returns (lo, nilExpr, err)
          | None => suffixLoop (Glyphs op) lo e
          end
      end
  end.
Proof.
  unfold runExpr at 1.
  set (L := length (Operators p)).
  replace (fuelExpr p prec tokens)
    with (S (length tokens * (L + 2) + (L - prec) + 1))
    by (unfold fuelExpr; lia).
  set (n := (length tokens * (L + 2) + (L - prec) + 1)%nat).
  rewrite parseExpr_S.
  destruct (nth_error (Operators p) prec) as [op|] eqn:Eop.
  2:{ apply parseSingle_run. apply nth_error_None in Eop.
      unfold fuelSingle. subst n L. lia. }
  assert (Hp : (prec < L)%nat) by (apply nth_error_Some; congruence).
  assert (Hup : parseExpr n p (S prec) tokens = runExpr p (S prec) tokens).
  { apply parseExpr_run. unfold fuelExpr. subst n. fold L. lia. }
  assert (Hsub : forall l q, (length l < length tokens)%nat ->
                   parseExpr n p q l = runExpr p q l).
  { intros l q Hl. apply parseExpr_run. unfold fuelExpr. subst n. fold L.
    nia. }
  destruct (Type_ op).
  - (* InfixLeft *)
    rewrite Hup. apply bind_ext. intros [[lo e] err] E.
    pose proof (runExpr_consumes p (S prec) tokens) as H.
    rewrite E in H. destruct H as [H _].
    apply infixLeftLoop_ext.
    + intros l. apply (proj2 (parse_consumes n)).
    + subst n. nia.
    + lia.
    + intros l Hl. apply Hsub. lia.
  - (* InfixRight *)
    rewrite Hup. apply bind_ext. intros [[lo e] err] E.
    pose proof (runExpr_consumes p (S prec) tokens) as H.
    rewrite E in H. destruct H as [H _].
    destruct err; [reflexivity|].
    destruct lo as [|glyph rest]; [reflexivity|].
    rewrite Hsub by (simpl in H; lia). reflexivity.
  - (* Prefix *)
    destruct tokens as [|glyph rest]; [reflexivity|].
    rewrite Hup. rewrite Hsub by (simpl; lia). reflexivity.
  - (* Suffix *)
    rewrite Hup. reflexivity.
Qed.

(* ================================================================== *)
(** ** The tokenizer *)

(** Tokens that are already emitted stay where they are. *)
Lemma tokStep_matches (m0 : list str) (s : tokState) (c : rune) :
  tokStep (mkTok (st s) (m0 ++ matches s) (buf s)) c
  = mkTok (st (tokStep s c)) (m0 ++ matches (tokStep s c)) (buf (tokStep s c)).
Proof.
  unfold tokStep. simpl.
  destruct (accepts (st s) c); simpl; [reflexivity|].
  destruct (flushable (buf s)); [now rewrite app_assoc | reflexivity].
Qed.

Lemma tokenizeFrom_matches (code : list rune) :
  forall (m0 : list str) (s : tokState),
    tokenizeFrom (mkTok (st s) (m0 ++ matches s) (buf s)) code
    = m0 ++ tokenizeFrom s code.
Proof.
  unfold tokenizeFrom.
  induction code as [|c code IH]; intros m0 s; simpl.
  - unfold tokFinish. simpl. now rewrite app_assoc.
  - rewrite tokStep_matches. apply IH.
Qed.

(** While the state accepts the runes, they pile up in the buffer. *)
Lemma fold_tokStep_run (P : runePred) (run : list rune) :
  forallb P run = true ->
  forall m b,
    fold_left tokStep run (mkTok (Some P) m b) = mkTok (Some P) m (b ++ run).
Proof.
  induction run as [|x run IH]; intros H m b; simpl.
  - now rewrite app_nil_r.
  - simpl in H. apply andb_true_iff in H as [Hx Hr].
    unfold tokStep at 2. simpl. rewrite Hx.
    rewrite (IH Hr). now rewrite <- app_assoc.
Qed.

Lemma tokStep_start (s : option runePred) (m : list str) (b : list rune)
    (c : rune) :
  accepts s c = false ->
  tokStep (mkTok s m b) c
  = mkTok (selectPred 0 tokenPreds c)
          (if flushable b then m ++ [b] else m) [c].
Proof. intros H. unfold tokStep. cbn [st matches buf]. now rewrite H. Qed.

(** A run of one class is one token, wherever the loop starts a token
    with a rune of that class. *)
Lemma tokenize_run (P : runePred) (pre : list rune) (c : rune)
    (run : list rune) :
  accepts (st (tokAfter pre)) c = false ->
  selectPred 0 tokenPreds c = Some P ->
  isWsp c = false ->
  forallb P run = true ->
  tokenizeFrom tokInit (pre ++ c :: run)
  = emitted (tokAfter pre) ++ [c :: run; eof]
  /\ forall d rest,
      P d = false ->
      tokenizeFrom tokInit (pre ++ c :: run ++ d :: rest)
      = emitted (tokAfter pre) ++ (c :: run) :: tokenizeFrom tokInit (d :: rest).
Proof.
  intros Hacc Hsel Hw Hrun.
  unfold tokenizeFrom, emitted. fold (tokAfter pre).
  destruct (tokAfter pre) as [s0 m0 b0] eqn:Epre. cbn [st matches buf] in *.
  split.
  - rewrite fold_left_app. fold (tokAfter pre). rewrite Epre.
    cbn [fold_left]. rewrite tokStep_start by exact Hacc. rewrite Hsel.
    rewrite (fold_tokStep_run P run Hrun). unfold tokFinish.
    cbn [matches buf app]. reflexivity.
  - intros d rest Hd.
    rewrite fold_left_app. fold (tokAfter pre). rewrite Epre.
    cbn [fold_left]. rewrite tokStep_start by exact Hacc. rewrite Hsel.
    rewrite fold_left_app. rewrite (fold_tokStep_run P run Hrun).
    cbn [fold_left app].
    rewrite tokStep_start by exact Hd.
    cbn [flushable app]. rewrite Hw. cbn [negb].
    unfold tokInit. rewrite (tokStep_start None) by reflexivity.
    cbn [flushable].
    set (m1 := if flushable b0 then m0 ++ [b0] else m0).
    pose proof (tokenizeFrom_matches rest (m1 ++ [c :: run])
                  (mkTok (selectPred 0 tokenPreds d) [] [d])) as H.
    unfold tokenizeFrom in H. cbn [st matches buf] in H.
    rewrite app_nil_r in H. rewrite H. now rewrite <- app_assoc.
Qed.

Lemma IsLetter_not_wsp (c : rune) : IsLetter c = true -> isWsp c = false.
Proof.
  intros H. unfold isWsp.
  destruct (Z.eqb_spec c 32) as [->|_]; [discriminate H|].
  destruct (Z.eqb_spec c 9) as [->|_]; [discriminate H|].
  destruct (Z.eqb_spec c 11) as [->|_]; [discriminate H|].
  reflexivity.
Qed.

Lemma IsDigit_not_wsp (c : rune) : IsDigit c = true -> isWsp c = false.
Proof.
  intros H. unfold isWsp.
  destruct (Z.eqb_spec c 32) as [->|_]; [discriminate H|].
  destruct (Z.eqb_spec c 9) as [->|_]; [discriminate H|].
  destruct (Z.eqb_spec c 11) as [->|_]; [discriminate H|].
  reflexivity.
Qed.

(* ================================================================== *)
(** ** Operands that the levels let through *)

Lemma isOp_eof (glyphs : list str) : isOp eof glyphs = false.
Proof. reflexivity. Qed.

Lemma isVar_neq (x g : str) :
  isVar x = true -> isVar g = false -> str_eqb g x = false.
Proof.
  intros Hx Hg. apply str_eqb_neq. intros ->. congruence.
Qed.

(** A variable is no operator, when no glyph is a variable. *)
Lemma isOp_var (x : str) (glyphs : list str) :
  isVar x = true -> forallb (fun g => negb (isVar g)) glyphs = true ->
  isOp x glyphs = false.
Proof.
  intros Hx Hg. unfold isOp. destruct (str_eqb x []); [reflexivity|].
  induction glyphs as [|g glyphs IH]; simpl in *; [reflexivity|].
  apply andb_true_iff in Hg as [Hg1 Hg2].
  rewrite (isVar_neq x g Hx); [now apply IH|].
  now destruct (isVar g).
Qed.

Lemma isOp_In (t : str) (glyphs : list str) :
  isOp t glyphs = true -> In t glyphs.
Proof.
  unfold isOp. destruct (str_eqb t []); [discriminate|].
  intros H. apply existsb_exists in H as [g [Hin Hg]].
  apply str_eqb_eq in Hg. now subst.
Qed.

Lemma skipn_nth_error {A} (l : list A) (n : nat) (a : A) :
  nth_error l n = Some a -> skipn n l = a :: skipn (S n) l.
Proof.
  revert l. induction n as [|n IH]; intros [|x l] H; simpl in *;
    try discriminate.
  - now injection H as ->.
  - now apply IH.
Qed.

Lemma levelsBetween_S (p : Parser) (prec q : nat) (op : Prec) :
  (prec < q)%nat -> nth_error (Operators p) prec = Some op ->
  levelsBetween p prec q = op :: levelsBetween p (S prec) q.
Proof.
  intros Hq Hop. unfold levelsBetween.
  rewrite (skipn_nth_error _ _ _ Hop).
  replace (q - prec)%nat with (S (q - S prec)) by lia. reflexivity.
Qed.

(** What a tighter level returned goes up through the looser levels that
    let it through. *)
Lemma runExpr_climb (p : Parser) (h t : str) (tl rest : list str) (e : Expr)
    (q : nat) :
  runExpr p q (h :: tl) = Returns (t :: rest, e, None) ->
  forall d prec,
    (prec + d = q)%nat ->
    passes (levelsBetween p prec q) h t = true ->
    runExpr p prec (h :: tl) = Returns (t :: rest, e, None).
Proof.
  intros Hq. induction d as [|d IH]; intros prec Hd Hp.
  - replace prec with q by lia. exact Hq.
  - rewrite runExpr_unfold.
    destruct (nth_error (Operators p) prec) as [op|] eqn:Eop.
    2:{ rewrite runExpr_unfold in Hq.
        apply nth_error_None in Eop.
        assert (Eq : nth_error (Operators p) q = None)
          by (apply nth_error_None; lia).
        now rewrite Eq in Hq. }
    rewrite (levelsBetween_S p prec q op) in Hp by (trivial; lia).
    simpl in Hp. apply andb_true_iff in Hp as [Hop Hrest].
    assert (Hup : runExpr p (S prec) (h :: tl) = Returns (t :: rest, e, None))
      by (apply IH; [lia | exact Hrest]).
    destruct (Type_ op).
    + rewrite Hup. simpl. rewrite runInfixLeft_unfold.
      now destruct (isOp t (Glyphs op)).
    + rewrite Hup. simpl. now destruct (isOp t (Glyphs op)).
    + now destruct (isOp h (Glyphs op)).
    + rewrite Hup. simpl. now destruct (isOp t (Glyphs op)).
Qed.

(** A variable that nothing goes on is an atom. *)
Lemma runSingle_var (p : Parser) (x t : str) (rest : list str) :
  isVar x = true -> endsApply p t = true ->
  runSingle p (x :: t :: rest) false = Returns (t :: rest, Var x, None).
Proof.
  intros Hx Ht. rewrite runSingle_unfold, Hx, runApply_unfold.
  unfold endsApply, goesOn in Ht. now destruct (_ || _).
Qed.

Lemma runExpr_var (p : Parser) (x t : str) (rest : list str) (prec : nat) :
  isVar x = true -> endsApply p t = true ->
  passes (skipn prec (Operators p)) x t = true ->
  runExpr p prec (x :: t :: rest) = Returns (t :: rest, Var x, None).
Proof.
  intros Hx Ht Hp.
  set (L := length (Operators p)).
  destruct (Nat.le_gt_cases L prec) as [Hge|Hlt].
  - rewrite runExpr_unfold.
    assert (E : nth_error (Operators p) prec = None)
      by (now apply nth_error_None).
    rewrite E. now apply runSingle_var.
  - apply (runExpr_climb p x t (t :: rest) rest (Var x) L) with (d := (L - prec)%nat).
    + rewrite runExpr_unfold.
      assert (E : nth_error (Operators p) L = None)
        by (apply nth_error_None; apply Nat.le_refl).
      rewrite E. now apply runSingle_var.
    + lia.
    + unfold levelsBetween. rewrite firstn_all2; [exact Hp|].
      rewrite length_skipn. fold L. lia.
Qed.

Lemma forallb_skipn {A} (f : A -> bool) (l : list A) (n : nat) :
  forallb f l = true -> forallb f (skipn n l) = true.
Proof.
  revert l. induction n as [|n IH]; intros [|a l] H; simpl in *; trivial.
  apply andb_true_iff in H as [_ H]. now apply IH.
Qed.

(** Where no glyph is a variable, a variable at the head of an operand
    passes as the end of input does. *)
Lemma passes_var (levels : list Prec) (x t : str) :
  isVar x = true ->
  forallb (fun op => forallb (fun g => negb (isVar g)) (Glyphs op)) levels
  = true ->
  passes levels x t = passes levels eof t.
Proof.
  intros Hx. unfold passes.
  induction levels as [|op levels IH]; intros H; simpl in *; [reflexivity|].
  apply andb_true_iff in H as [H1 H2]. rewrite (IH H2).
  destruct (Type_ op); trivial.
  now rewrite (isOp_var x (Glyphs op) Hx H1).
Qed.

Lemma PEMDAS_glyphs :
  forallb (fun op => forallb (fun g => negb (isVar g)) (Glyphs op))
          (Operators PEMDAS) = true.
Proof. reflexivity. Qed.

(** An atom of the PEMDAS grammar: a variable, and a next token that no
    level from [prec] on takes. *)
Lemma PEMDAS_var (x t : str) (rest : list str) (prec : nat) :
  isVar x = true -> endsApply PEMDAS t = true ->
  passes (skipn prec (Operators PEMDAS)) eof t = true ->
  runExpr PEMDAS prec (x :: t :: rest) = Returns (t :: rest, Var x, None).
Proof.
  intros Hx Ht Hp. apply runExpr_var; trivial.
  rewrite (passes_var _ x t Hx); [exact Hp|].
  apply forallb_skipn, PEMDAS_glyphs.
Qed.

(** The loop of a left-infix level over [o1 x1 o2 x2 ...]. *)
Lemma runInfixLeft_chain (p : Parser) (prec : nat) (glyphs : list str)
    (t : str) (rest : list str) :
  isOp t glyphs = false ->
  (forall (x nt : str) (tl : list str),
      isVar x = true -> (nt = t \/ isOp nt glyphs = true) ->
      runExpr p (S prec) (x :: nt :: tl) = Returns (nt :: tl, Var x, None)) ->
  forall items e,
    forallb (fun ox => isOp (fst ox) glyphs && isVar (snd ox)) items = true ->
    runInfixLeft p prec glyphs (chainTokens items ++ t :: rest) e None
    = Returns (t :: rest, leftChain e items, None).
Proof.
  intros Ht Hatom. induction items as [|[o x] items IH]; intros e H.
  - simpl. rewrite runInfixLeft_unfold. now rewrite Ht.
  - simpl in H. apply andb_true_iff in H as [Hox Hitems].
    apply andb_true_iff in Hox as [Ho Hx].
    cbn [chainTokens flat_map fst snd app].
    rewrite runInfixLeft_unfold, Ho.
    change (flat_map (fun ox => [fst ox; snd ox]) items)
      with (chainTokens items).
    assert (Hnext : exists nt tl,
               chainTokens items ++ t :: rest = nt :: tl
               /\ (nt = t \/ isOp nt glyphs = true)).
    { destruct items as [|[o' x'] items'].
      - exists t, rest. split; [reflexivity | now left].
      - simpl in Hitems. apply andb_true_iff in Hitems as [Hox' _].
        apply andb_true_iff in Hox' as [Ho' _].
        eexists o', _. split; [reflexivity | now right]. }
    destruct Hnext as [nt [tl [E Hnt]]].
    pose proof (IH (Binary o e (Var x)) Hitems) as IH'.
    rewrite E in *. rewrite (Hatom x nt tl Hx Hnt). cbn [bind].
    exact IH'.
Qed.

(** The loop of a suffix level over a run of one glyph. *)
Lemma suffixLoop_repeat (glyphs : list str) (g t : str) (rest : list str) :
  isOp g glyphs = true -> isOp t glyphs = false ->
  forall n e,
    suffixLoop glyphs (repeat g n ++ t :: rest) e
    = Returns (t :: rest, Nat.iter n (Unary g) e, None).
Proof.
  intros Hg Ht. induction n as [|n IH]; intros e; simpl.
  - now rewrite Ht.
  - rewrite Hg, IH. now rewrite <- Nat.iter_succ_r.
Qed.

(** Variables in a row, with juxtaposition: the loop of [parseSingle]. *)
Lemma runApply_vars (p : Parser) (t : str) (rest : list str) :
  AdjacentIsApplication p = true ->
  endsApply p t = true ->
  forall vs e,
    forallb isVar vs = true ->
    runApply p (vs ++ t :: rest) e
    = Returns (t :: rest, fold_left Apply (map Var vs) e, None).
Proof.
  intros Hadj Ht. induction vs as [|v vs IH]; intros e H.
  - simpl. rewrite runApply_unfold. unfold endsApply, goesOn in Ht.
    now destruct (_ || _).
  - simpl in H. apply andb_true_iff in H as [Hv Hvs].
    cbn [app map fold_left].
    rewrite runApply_unfold, Hv, Hadj, orb_true_r.
    rewrite runSingle_unfold, Hv. cbn [bind].
    now apply IH.
Qed.

(** Atoms in a row: the loop of [parseSingle] folds them to the left. *)
Lemma runApply_atoms (p : Parser) (t : str) (rest : list str) :
  endsApply p t = true ->
  forall atoms e,
    operandsOK p atoms (t :: rest) ->
    runApply p (atomTokens atoms (t :: rest)) e
    = Returns (t :: rest, fold_left Apply (map snd atoms) e, None).
Proof.
  intros Ht. induction atoms as [|[ts e1] atoms IH]; intros e H.
  - cbn [atomTokens flat_map app map fold_left].
    rewrite runApply_unfold. unfold endsApply, goesOn in Ht.
    now destruct (_ || _).
  - destruct H as [[h [tl [-> Hh]]] [Hone Hmore]].
    unfold atomTokens in *. cbn [flat_map fst app map snd fold_left] in *.
    rewrite <- app_assoc. cbn [app].
    rewrite runApply_unfold. unfold goesOn in Hh. rewrite Hh.
    cbn [app] in Hone. rewrite Hone. cbn [bind].
    now apply IH.
Qed.

(* ================================================================== *)
(** ** Tokens *)

(** C6, as the code has it: the classes of the table are kept apart.
    Wherever in a text the loop starts a token with a letter that is not an
    upper case one, the letters that follow, up to the end of the text or
    to the first rune that is no letter, are one token with it; and so for
    a digit and the digits that follow.  A letter that a digit follows ends
    its token: [a1] is the two tokens [a] and [1]. *)
Theorem tokenize_class_runs (pre : list rune) (c : rune) (run : list rune) :
  (accepts (st (tokAfter pre)) c = false ->
   IsUpper c = false -> IsLetter c = true -> forallb IsLetter run = true ->
   tokensOf (pre ++ c :: run) = emitted (tokAfter pre) ++ [c :: run; eof]
   /\ forall d rest,
       IsLetter d = false ->
       tokensOf (pre ++ c :: run ++ d :: rest)
       = emitted (tokAfter pre) ++ (c :: run) :: tokensOf (d :: rest))
  /\ (accepts (st (tokAfter pre)) c = false ->
      IsUpper c = false -> IsLetter c = false -> IsDigit c = true ->
      forallb IsDigit run = true ->
      tokensOf (pre ++ c :: run) = emitted (tokAfter pre) ++ [c :: run; eof]
      /\ forall d rest,
          IsDigit d = false ->
          tokensOf (pre ++ c :: run ++ d :: rest)
          = emitted (tokAfter pre) ++ (c :: run) :: tokensOf (d :: rest))
  /\ tokensOf (go "a1") = [go "a"; go "1"; eof].
Proof.
  unfold tokensOf, tokenize. cbn [fst].
  split; [|split].
  - intros Hacc Hu Hl Hrun.
    apply (tokenize_run IsLetter); auto using IsLetter_not_wsp.
    cbn. now rewrite Hu, Hl.
  - intros Hacc Hu Hl Hd Hrun.
    apply (tokenize_run IsDigit); auto using IsDigit_not_wsp.
    cbn. now rewrite Hu, Hl, Hd.
  - reflexivity.
Qed.

(** C9: the flush after the loop has no guard, so the blanks that end a
    text are a token: [tokenize] of [a], blank, is [a], the blank, eof. *)
Theorem tokenize_trailing_blank :
  tokensOf (go "a ") = [go "a"; go " "; eof]
  /\ existsb isWsp (go " ") = true
  /\ tokensOf (go "a b") = [go "a"; go "b"; eof]
  /\ ParseExpr PEMDAS (go "a ")
     = Returns (nilExpr,
                Some (mkUnexpected (go " ") (go "end-of-input"))).
Proof. repeat split; vm_compute; reflexivity. Qed.

(* ================================================================== *)
(** ** Termination *)

(** C10: for every grammar and every list of tokens, [parseExpr] and
    [parseSingle] come to an end (they return or panic) with the fuel
    [fuelExpr] and [fuelSingle] and with any more, and more fuel does not
    change what they do; the fuel is a measure of the tokens left and the
    levels left that every call lowers: a call on fewer tokens, or on as
    many tokens and the next level; and the remainder a call returns is
    never longer than its tokens. *)
Theorem parse_terminates (p : Parser) (prec : nat) (t0 : str)
    (tokens : list str) (inApp : bool) (k : nat) :
  halts (parseExpr (fuelExpr p prec tokens + k) p prec tokens)
  /\ halts (parseSingle (fuelSingle p tokens + k) p tokens inApp)
  /\ parseExpr (fuelExpr p prec tokens + k) p prec tokens
     = runExpr p prec tokens
  /\ parseSingle (fuelSingle p tokens + k) p tokens inApp
     = runSingle p tokens inApp
  /\ (fuelExpr p prec tokens < fuelExpr p prec (t0 :: tokens))%nat
  /\ (fuelExpr p 0 tokens < fuelSingle p (t0 :: tokens))%nat
  /\ (fuelSingle p tokens < fuelSingle p (t0 :: tokens))%nat
  /\ (fuelSingle p tokens < fuelExpr p prec tokens)%nat
  /\ ((prec < length (Operators p))%nat ->
      (fuelExpr p (S prec) tokens < fuelExpr p prec tokens)%nat)
  /\ consumes tokens (runExpr p prec tokens)
  /\ consumes tokens (runSingle p tokens inApp).
Proof.
  assert (He : halts (parseExpr (fuelExpr p prec tokens + k) p prec tokens)).
  { apply (proj2 (parse_halts _)). lia. }
  assert (Hs : halts (parseSingle (fuelSingle p tokens + k) p tokens inApp)).
  { apply (proj1 (parse_halts _)). lia. }
  split; [exact He|]. split; [exact Hs|].
  split; [apply parseExpr_run; lia|].
  split; [apply parseSingle_run; lia|].
  split; [unfold fuelExpr; simpl; lia|].
  split; [unfold fuelExpr, fuelSingle; simpl; lia|].
  split; [unfold fuelSingle; simpl; lia|].
  split; [unfold fuelExpr, fuelSingle; lia|].
  split; [unfold fuelExpr; lia|].
  split; [apply runExpr_consumes | apply runSingle_consumes].
Qed.

(* ================================================================== *)
(** ** Panics and errors *)

(** C2: at the input [a^] the code panics.  The [InfixRight] case returns
    [lo[1:]] with the error of its right operand: here the empty slice, out
    of the tokens [a], [^], eof; the [InfixLeft] level above then reads
    [lo[0]]. *)
Theorem ParseExpr_panics :
  tokensOf (go "a^") = [go "a"; go "^"; eof]
  /\ (exists u, runExpr PEMDAS 3 [go "a"; go "^"; eof]
                = Returns ([], nilExpr, Some u))
  /\ runExpr PEMDAS 2 [go "a"; go "^"; eof] = Panics
  /\ ParseExpr PEMDAS (go "a^") = Panics
  /\ Parse PEMDAS (go "x=a^") = Panics.
Proof.
  split; [reflexivity|]. split; [eexists; vm_compute; reflexivity|].
  repeat split; vm_compute; reflexivity.
Qed.

(** C7: an error of the descent that the caller never sees, and one that is
    replaced.  On [*a] the atom parser reports the star, the [InfixLeft]
    level of the star goes on without looking at the error, and [ParseExpr]
    returns a tree with a nil operand and no error.  On [r=({a+b]] the
    error that expects the closing brace is replaced by the one that
    expects the closing parenthesis. *)
Theorem first_error_lost :
  runSingle PEMDAS [go "*"; go "a"; eof] false
  = Returns ([go "*"; go "a"; eof], nilExpr,
             Some (mkUnexpected (go "*") (options PEMDAS)))
  /\ ParseExpr PEMDAS (go "*a")
     = Returns (Binary (go "*") nilExpr (Var (go "a")), None)
  /\ runSingle PEMDAS [go "{"; go "a"; go "+"; go "b"; go "]"; eof] false
     = Returns ([go "]"; eof], nilExpr,
                Some (mkUnexpected (go "]") (Quote (go "}"))))
  /\ Parse PEMDAS (go "r=({a+b]")
     = Returns (None, Some (mkUnexpected (go "]") (Quote (go ")")))).
Proof. repeat split; vm_compute; reflexivity. Qed.

(** C8: parsing [r=({a+b]] fails with [Found] the closing square bracket
    and [Expecting] the closing parenthesis between two double quotes.  It
    is the group that was opened first that speaks: whatever its interior
    returned, a group that does not meet its closer returns [Unexpected]
    with the token met and the quoted closer. *)
Theorem mismatched_closer (group : Group) (wrap : Expr -> Expr)
    (l0 : str) (lo : list str) (e : Expr) (err : error) :
  Parse PEMDAS (go "r=({a+b]")
  = Returns (None, Some (mkUnexpected (go "]") [dquote; 41; dquote]))
  /\ Quote (go ")") = [dquote; 41; dquote]
  /\ go "]" = [93] /\ go ")" = [41]
  /\ (str_eqb l0 (Right group) = false ->
      closeGroup group wrap (l0 :: lo, e, err)
      = Returns (l0 :: lo, nilExpr,
                 Some (mkUnexpected l0 (Quote (Right group))))).
Proof.
  repeat split; try (vm_compute; reflexivity).
  intros H. unfold closeGroup. now rewrite H.
Qed.

(* ================================================================== *)
(** ** The levels of the PEMDAS grammar *)

Lemma PEMDAS_level0 (tokens : list str) :
  runExpr PEMDAS 0 tokens =
  '(lo, e, err) <- runExpr PEMDAS 1 tokens ;;
  runInfixLeft PEMDAS 0 [go ","] lo e err.
Proof. now rewrite runExpr_unfold. Qed.

Lemma PEMDAS_level1 (tokens : list str) :
  runExpr PEMDAS 1 tokens =
  '(lo, e, err) <- runExpr PEMDAS 2 tokens ;;
  runInfixLeft PEMDAS 1 [go "+"; go "-"] lo e err.
Proof. now rewrite runExpr_unfold. Qed.

Lemma PEMDAS_level3 (tokens : list str) :
  runExpr PEMDAS 3 tokens =
  '(lo, e, err) <- runExpr PEMDAS 4 tokens ;;
  match err with
  | Some _ => Returns (lo, nilExpr, err)
  | None =>
      match lo with
      | [] => Panics
      | glyph :: rest =>
          if isOp glyph [go "^"] then
            '(lo2, e2, err2) <- runExpr PEMDAS 3 rest ;;
            match err2 with
            | Some _ =>
                match lo2 with
                | [] => Panics
                | _ :: lo3 => Returns (lo3, nilExpr, err2)
                end
            | None => Returns (lo2, Binary glyph e e2, None)
            end
          else Returns (lo, e, None)
      end
  end.
Proof. now rewrite runExpr_unfold. Qed.

Lemma PEMDAS_level4 (glyph : str) (rest : list str) :
  runExpr PEMDAS 4 (glyph :: rest) =
  if isOp glyph [go "-"; go "+"] then
    '(lo, e, err) <- runExpr PEMDAS 4 rest ;;
    match err with
    | Some _ => Returns (lo, nilExpr, err)
    | None => Returns (lo, Unary glyph e, None)
    end
  else runExpr PEMDAS 5 (glyph :: rest).
Proof. now rewrite runExpr_unfold. Qed.

Lemma PEMDAS_level5 (tokens : list str) :
  runExpr PEMDAS 5 tokens =
  '(lo, e, err) <- runExpr PEMDAS 6 tokens ;;
  match err with
  | Some _ => Returns (lo, nilExpr, err)
  | None => suffixLoop [go "'"] lo e
  end.
Proof. now rewrite runExpr_unfold. Qed.

(** After a variable, an operator of the sums, of the powers or of the
    transposition, or the end of input: the variable is the operand of the
    levels that do not own the operator. *)
Lemma PEMDAS_var_then (x nt : str) (tl : list str) :
  isVar x = true ->
  (nt = eof \/ isOp nt [go "+"; go "-"] = true) ->
  runExpr PEMDAS 2 (x :: nt :: tl) = Returns (nt :: tl, Var x, None).
Proof.
  intros Hx [->|H]; [now apply PEMDAS_var|].
  apply isOp_In in H. simpl in H.
  destruct H as [<-|[<-|[]]]; now apply PEMDAS_var.
Qed.

Lemma PEMDAS_left_chain (x0 : str) (items : list (str * str)) :
  isVar x0 = true ->
  forallb (fun ox => isOp (fst ox) [go "+"; go "-"] && isVar (snd ox)) items
  = true ->
  runExpr PEMDAS 0 (x0 :: chainTokens items ++ [eof])
  = Returns ([eof], leftChain (Var x0) items, None).
Proof.
  intros Hx0 Hitems.
  apply (runExpr_climb PEMDAS x0 eof (chainTokens items ++ [eof]) [] _ 1)
    with (d := 1%nat); [|reflexivity|reflexivity].
  rewrite PEMDAS_level1.
  assert (Hatom : forall (x nt : str) (tl : list str),
             isVar x = true ->
             nt = eof \/ isOp nt [go "+"; go "-"] = true ->
             runExpr PEMDAS 2 (x :: nt :: tl) = Returns (nt :: tl, Var x, None))
    by (intros; now apply PEMDAS_var_then).
  assert (Hnext : exists nt tl,
             chainTokens items ++ [eof] = nt :: tl
             /\ (nt = eof \/ isOp nt [go "+"; go "-"] = true)).
  { destruct items as [|[o x] items'].
    - exists eof, (@nil str). split; [reflexivity | now left].
    - simpl in Hitems. apply andb_true_iff in Hitems as [Hox _].
      apply andb_true_iff in Hox as [Ho _].
      eexists o, _. split; [reflexivity | now right]. }
  destruct Hnext as [nt [tl [E Hnt]]].
  pose proof (runInfixLeft_chain PEMDAS 1 [go "+"; go "-"] eof (@nil str)
                (isOp_eof _) Hatom items (Var x0) Hitems) as Hloop.
  rewrite E in *. rewrite (Hatom x0 nt tl Hx0 Hnt). cbn [bind].
  exact Hloop.
Qed.

Lemma PEMDAS_right_chain_level (xs : list str) :
  forall x0,
    isVar x0 = true -> forallb isVar xs = true ->
    runExpr PEMDAS 3 (x0 :: flat_map (fun x => [go "^"; x]) xs ++ [eof])
    = Returns ([eof], rightChain (go "^") x0 xs, None).
Proof.
  induction xs as [|x1 xs IH]; intros x0 Hx0 Hxs.
  - cbn [flat_map app rightChain]. rewrite PEMDAS_level3.
    rewrite (PEMDAS_var x0 eof [] 4 Hx0) by reflexivity. reflexivity.
  - simpl in Hxs. apply andb_true_iff in Hxs as [Hx1 Hxs].
    cbn [flat_map app rightChain].
    rewrite PEMDAS_level3.
    rewrite (PEMDAS_var x0 (go "^") _ 4 Hx0) by reflexivity.
    cbn [bind].
    change (isOp (go "^") [go "^"]) with true. cbv iota.
    rewrite (IH x1 Hx1 Hxs). reflexivity.
Qed.

Lemma PEMDAS_right_chain (x0 : str) (xs : list str) :
  isVar x0 = true -> forallb isVar xs = true ->
  runExpr PEMDAS 0 (x0 :: flat_map (fun x => [go "^"; x]) xs ++ [eof])
  = Returns ([eof], rightChain (go "^") x0 xs, None).
Proof.
  intros Hx0 Hxs.
  apply (runExpr_climb PEMDAS x0 eof _ [] _ 3) with (d := 3%nat);
    [|reflexivity|reflexivity].
  now apply PEMDAS_right_chain_level.
Qed.

Lemma PEMDAS_suffix_level (x : str) (n : nat) :
  isVar x = true ->
  runExpr PEMDAS 5 (x :: repeat (go "'") n ++ [eof])
  = Returns ([eof], Nat.iter n (Unary (go "'")) (Var x), None).
Proof.
  intros Hx. rewrite PEMDAS_level5.
  assert (E : runExpr PEMDAS 6 (x :: repeat (go "'") n ++ [eof])
              = Returns (repeat (go "'") n ++ [eof], Var x, None)).
  { destruct n as [|n]; cbn [repeat app]; now apply PEMDAS_var. }
  rewrite E. cbn [bind].
  now apply suffixLoop_repeat.
Qed.

Lemma PEMDAS_prefix_level (x : str) (n : nat) (ops : list str) :
  forallb (fun o => isOp o [go "-"; go "+"]) ops = true ->
  isVar x = true ->
  runExpr PEMDAS 4 (ops ++ x :: repeat (go "'") n ++ [eof])
  = Returns ([eof],
             fold_right Unary (Nat.iter n (Unary (go "'")) (Var x)) ops,
             None).
Proof.
  intros Hops Hx. induction ops as [|o ops IH]; cbn [app fold_right].
  - rewrite PEMDAS_level4.
    rewrite (isOp_var x [go "-"; go "+"] Hx) by reflexivity.
    now apply PEMDAS_suffix_level.
  - simpl in Hops. apply andb_true_iff in Hops as [Ho Hops].
    rewrite PEMDAS_level4, Ho, (IH Hops). reflexivity.
Qed.

(* ================================================================== *)
(** ** Trees *)

(** C3: where juxtaposition applies, a variable and the variables that
    follow it fold to the left into [Apply] nodes, each operand one
    variable; more generally a variable and the atoms that follow it,
    variables or groups, fold to the left, each operand what one call of
    [parseSingle] with [inApp] set returns; and with [inApp] set a variable
    is returned as it is, with no chain of its own.  So [log a b c] and,
    with the tokenizer that splits upper case letters, [ABC]. *)
Theorem juxtaposition_folds_left (p : Parser) (v t : str)
    (vs rest : list str) (atoms : list (list str * Expr)) :
  (AdjacentIsApplication p = true -> isVar v = true ->
   forallb isVar vs = true -> endsApply p t = true ->
   runSingle p (v :: vs ++ t :: rest) false
   = Returns (t :: rest, fold_left Apply (map Var vs) (Var v), None))
  /\ (isVar v = true -> endsApply p t = true ->
      operandsOK p atoms (t :: rest) ->
      runSingle p (v :: atomTokens atoms (t :: rest)) false
      = Returns (t :: rest, fold_left Apply (map snd atoms) (Var v), None))
  /\ (isVar v = true ->
      runSingle p (v :: rest) true = Returns (rest, Var v, None))
  /\ AdjacentIsApplication PEMDAS = true
  /\ ParseExpr PEMDAS (go "log a b c")
     = Returns (Apply (Apply (Apply (Var (go "log")) (Var (go "a")))
                         (Var (go "b")))
                  (Var (go "c")), None)
  /\ tokensOf (go "ABC") = [go "A"; go "B"; go "C"; eof]
  /\ ParseExpr PEMDAS (go "ABC")
     = Returns (Apply (Apply (Var (go "A")) (Var (go "B"))) (Var (go "C")),
                None).
Proof.
  split.
  { intros Hadj Hv Hvs Ht. rewrite runSingle_unfold, Hv.
    now apply runApply_vars. }
  split.
  { intros Hv Ht Hatoms. rewrite runSingle_unfold, Hv.
    now apply runApply_atoms. }
  split.
  { intros Hv. now rewrite runSingle_unfold, Hv. }
  split; [reflexivity|].
  split; [vm_compute; reflexivity|].
  split; [reflexivity | vm_compute; reflexivity].
Qed.

(** C5: a transparent group adds no node and a structural group adds one.
    With the PEMDAS grammar [[([a+b])*c]] is the product of the sum and
    [c], the empty braces are the variable named by the two braces, and
    [{a}] is the [Unary] node of the two braces over [a].  For every
    grammar: an opener of [Parens] returns what its interior returned; an
    opener of [Brackets] that its closer follows returns the [Var] named
    opener and closer; any other returns the [Unary] node named opener and
    closer over its interior. *)
Theorem groups_and_nodes (p : Parser) (t0 : str) (group : Group)
    (rest lo : list str) (e : Expr) (err : error) (inApp : bool) :
  ParseExpr PEMDAS (go "[([a+b])*c]")
  = Returns (Binary (go "*")
               (Binary (go "+") (Var (go "a")) (Var (go "b")))
               (Var (go "c")), None)
  /\ ParseExpr PEMDAS (go "{}") = Returns (Var (go "{}"), None)
  /\ ParseExpr PEMDAS (go "{a}")
     = Returns (Unary (go "{}") (Var (go "a")), None)
  /\ (isVar t0 = false -> openedBy t0 (Parens p) = Some group ->
      runExpr p 0 rest = Returns (Right group :: lo, e, err) ->
      runSingle p (t0 :: rest) inApp = Returns (lo, e, err))
  /\ (isVar t0 = false -> openedBy t0 (Parens p) = None ->
      openedBy t0 (Brackets p) = Some group ->
      runSingle p (t0 :: Right group :: rest) inApp
      = Returns (rest, Var (Left group ++ Right group), None))
  /\ (isVar t0 = false -> openedBy t0 (Parens p) = None ->
      openedBy t0 (Brackets p) = Some group ->
      (forall rest2, rest <> Right group :: rest2) ->
      runExpr p 0 rest = Returns (Right group :: lo, e, err) ->
      runSingle p (t0 :: rest) inApp
      = Returns (lo, Unary (Left group ++ Right group) e, err)).
Proof.
  split; [vm_compute; reflexivity|].
  split; [vm_compute; reflexivity|].
  split; [vm_compute; reflexivity|].
  split.
  { intros Hv Hp Hr. rewrite runSingle_unfold, Hv, Hp, Hr.
    cbn [bind closeGroup]. now rewrite str_eqb_refl. }
  split.
  { intros Hv Hp Hb. rewrite runSingle_unfold, Hv, Hp, Hb.
    cbv zeta. now rewrite str_eqb_refl. }
  intros Hv Hp Hb Hne Hr. rewrite runSingle_unfold, Hv, Hp, Hb. cbv zeta.
  destruct rest as [|t1 rest2].
  - rewrite Hr. cbn [bind closeGroup]. now rewrite str_eqb_refl.
  - destruct (str_eqb t1 (Right group)) eqn:E.
    + apply str_eqb_eq in E. subst t1. now destruct (Hne rest2).
    + rewrite Hr. cbn [bind closeGroup]. now rewrite str_eqb_refl.
Qed.

(* ================================================================== *)
(** ** Further properties of the tokenizer *)

(** The state that a rune selects accepts blanks only, if the rune is a
    blank, and no blank otherwise. *)
Lemma selectPred_blank (c x : rune) :
  accepts (selectPred 0 tokenPreds c) x = true -> isWsp x = isWsp c.
Proof.
  unfold tokenPreds. cbn [selectPred Nat.eqb].
  destruct (IsUpper c); [discriminate|].
  destruct (IsLetter c) eqn:El.
  { cbn [accepts]. intros Hx.
    now rewrite (IsLetter_not_wsp x Hx), (IsLetter_not_wsp c El). }
  destruct (IsDigit c) eqn:Ed.
  { cbn [accepts]. intros Hx.
    now rewrite (IsDigit_not_wsp x Hx), (IsDigit_not_wsp c Ed). }
  destruct (isWsp c) eqn:Ew; [|discriminate].
  cbn [accepts]. now intros ->.
Qed.

Lemma tokAfter_snoc (pre : list rune) (c : rune) :
  tokAfter (pre ++ [c]) = tokStep (tokAfter pre) c.
Proof. unfold tokAfter. now rewrite fold_left_app. Qed.

Lemma same_blank_nonBlank (c : rune) (b : list rune) :
  forallb (fun x => Bool.eqb (isWsp x) (isWsp c)) b = true ->
  (isWsp c = false -> blankFree b = true)
  /\ (isWsp c = true -> filter nonBlank b = []).
Proof.
  unfold blankFree, nonBlank.
  induction b as [|x b IH]; intros H; simpl in *; [split; reflexivity|].
  apply andb_true_iff in H as [Hx Hb]. apply eqb_prop in Hx.
  destruct (IH Hb) as [IH1 IH2]. split; intros Hc; rewrite Hx, Hc; simpl; auto.
Qed.

Lemma tokInv_step (pre : list rune) (s : tokState) (c : rune) :
  tokInv pre s -> tokInv (pre ++ [c]) (tokStep s c).
Proof.
  intros (Hm & Hb & Hst & Hsame & Hlost).
  unfold tokStep. destruct (accepts (st s) c) eqn:Eacc.
  - (* the rune joins the buffer *)
    destruct (buf s) as [|c0 b] eqn:Ebuf.
    { rewrite (Hst eq_refl) in Eacc. discriminate. }
    destruct (Hsame c0 eq_refl) as [Hall Hacc].
    unfold tokInv. cbn [st matches buf].
    split; [exact Hm|].
    split; [split; intros H; [discriminate | now destruct pre]|].
    split; [discriminate|].
    split.
    + intros c1 Hc1. cbn in Hc1. injection Hc1 as <-.
      split; [|exact Hacc].
      rewrite forallb_app, Hall. cbn.
      rewrite (Hacc c Eacc). now rewrite eqb_reflx.
    + rewrite app_assoc, !filter_app. rewrite filter_app in Hlost.
      now rewrite Hlost.
  - (* the rune starts a buffer *)
    unfold tokInv. cbn [st matches buf].
    assert (Hflush : Forall (fun t => t <> [] /\ blankFree t = true)
                       (if flushable (buf s) then matches s ++ [buf s]
                        else matches s)
                     /\ filter nonBlank
                          (concat (if flushable (buf s)
                                   then matches s ++ [buf s] else matches s))
                        = filter nonBlank pre).
    { destruct (buf s) as [|c0 b] eqn:Ebuf; cbn [flushable].
      { split; [exact Hm|]. now rewrite app_nil_r in Hlost. }
      destruct (Hsame c0 eq_refl) as [Hall _].
      destruct (same_blank_nonBlank c0 (c0 :: b) Hall) as [Hfree Hnone].
      destruct (isWsp c0) eqn:Ew; cbn [negb].
      - split; [exact Hm|].
        rewrite filter_app, (Hnone eq_refl), app_nil_r in Hlost. exact Hlost.
      - split.
        + apply Forall_app. split; [exact Hm|].
          constructor; [|constructor]. split; [discriminate | now apply Hfree].
        + rewrite concat_app. cbn [concat]. now rewrite app_nil_r. }
    destruct Hflush as [Hm' Hlost'].
    split; [exact Hm'|].
    split; [split; intros H; [discriminate | now destruct pre]|].
    split; [discriminate|].
    split.
    + intros c1 Hc1. cbn in Hc1. injection Hc1 as <-.
      split; [cbn; now rewrite eqb_reflx | apply selectPred_blank].
    + rewrite !filter_app. f_equal. exact Hlost'.
Qed.

Lemma tokInv_after (pre : list rune) : tokInv pre (tokAfter pre).
Proof.
  induction pre as [|c pre IH] using rev_ind.
  - unfold tokAfter, tokInv. cbn.
    repeat split; trivial; try constructor; discriminate.
  - rewrite tokAfter_snoc. now apply tokInv_step.
Qed.

(** X1: the shape of what [tokenize] returns, for every text: no error;
    tokens that are not empty and hold no blank; then one more token, the
    last buffer, which is empty for the empty text only and is either free
    of blanks or made of blanks; then the marker. *)
Theorem tokenize_shape (code : str) :
  snd (tokenize code) = None
  /\ exists toks last,
      tokensOf code = toks ++ [last; eof]
      /\ Forall (fun t => t <> [] /\ blankFree t = true) toks
      /\ (last = [] <-> code = [])
      /\ (blankFree last = true \/ forallb isWsp last = true).
Proof.
  split; [reflexivity|].
  destruct (tokInv_after code) as (Hm & Hb & _ & Hsame & _).
  exists (matches (tokAfter code)), (buf (tokAfter code)).
  split; [reflexivity|]. split; [exact Hm|]. split; [exact Hb|].
  destruct (buf (tokAfter code)) as [|c0 b] eqn:Ebuf; [now left|].
  destruct (Hsame c0 eq_refl) as [Hall _].
  destruct (same_blank_nonBlank c0 (c0 :: b) Hall) as [Hfree _].
  destruct (isWsp c0) eqn:Ew; [right | left; now apply Hfree].
  clear Hfree. revert Hall. generalize (c0 :: b).
  induction l as [|x l IH]; simpl; [reflexivity|].
  intros H. apply andb_true_iff in H as [Hx Hl]. apply eqb_prop in Hx.
  now rewrite Hx, IH.
Qed.

(** X2: the tokenizer loses nothing but blanks, and keeps the order: the
    runes of the tokens that are no blanks are the runes of the text that
    are no blanks. *)
Theorem tokenize_keeps_text (code : str) :
  filter nonBlank (concat (tokensOf code)) = filter nonBlank code.
Proof.
  destruct (tokInv_after code) as (_ & _ & _ & _ & Hlost).
  unfold tokensOf, tokenize, tokenizeFrom, tokFinish. cbn [fst].
  fold (tokAfter code). rewrite concat_app. cbn [concat app].
  now rewrite !app_nil_r.
Qed.

Lemma fold_tokStep_accepts (s1 : option runePred) (run : list rune) :
  forallb (accepts s1) run = true ->
  forall m b,
    fold_left tokStep run (mkTok s1 m b) = mkTok s1 m (b ++ run).
Proof.
  induction run as [|x run IH]; intros H m b; simpl.
  - now rewrite app_nil_r.
  - simpl in H. apply andb_true_iff in H as [Hx Hr].
    unfold tokStep at 2. cbn [st matches buf]. rewrite Hx.
    rewrite (IH Hr). now rewrite <- app_assoc.
Qed.

(** One token of the text: the rune that starts it, the runes that the
    state it selects accepts, up to the end of the text or to a rune that
    the state does not accept.  Blanks are not kept, unless the text ends
    with them. *)
Lemma tokenize_token (pre : list rune) (c : rune) (run : list rune) :
  accepts (st (tokAfter pre)) c = false ->
  forallb (accepts (selectPred 0 tokenPreds c)) run = true ->
  tokenizeFrom tokInit (pre ++ c :: run)
  = emitted (tokAfter pre) ++ [c :: run; eof]
  /\ forall d rest,
      accepts (selectPred 0 tokenPreds c) d = false ->
      tokenizeFrom tokInit (pre ++ c :: run ++ d :: rest)
      = emitted (tokAfter pre)
        ++ (if isWsp c then [] else [c :: run])
        ++ tokenizeFrom tokInit (d :: rest).
Proof.
  intros Hacc Hrun.
  unfold tokenizeFrom, emitted. fold (tokAfter pre).
  destruct (tokAfter pre) as [s0 m0 b0] eqn:Epre. cbn [st matches buf] in *.
  split.
  - rewrite fold_left_app. fold (tokAfter pre). rewrite Epre.
    cbn [fold_left]. rewrite tokStep_start by exact Hacc.
    rewrite (fold_tokStep_accepts _ run Hrun). unfold tokFinish.
    cbn [matches buf app]. reflexivity.
  - intros d rest Hd.
    rewrite fold_left_app. fold (tokAfter pre). rewrite Epre.
    cbn [fold_left]. rewrite tokStep_start by exact Hacc.
    rewrite fold_left_app. rewrite (fold_tokStep_accepts _ run Hrun).
    cbn [fold_left app].
    rewrite tokStep_start by exact Hd.
    cbn [flushable app].
    unfold tokInit. rewrite (tokStep_start None) by reflexivity.
    cbn [flushable].
    set (m1 := if flushable b0 then m0 ++ [b0] else m0).
    set (m2 := if isWsp c then [] else [c :: run]).
    replace (if negb (isWsp c) then m1 ++ [c :: run] else m1)
      with (m1 ++ m2)
      by (subst m2; destruct (isWsp c); cbn; now rewrite ?app_nil_r).
    pose proof (tokenizeFrom_matches rest (m1 ++ m2)
                  (mkTok (selectPred 0 tokenPreds d) [] [d])) as H.
    unfold tokenizeFrom in H. cbn [st matches buf] in H.
    rewrite app_nil_r in H. rewrite H. now rewrite <- app_assoc.
Qed.

Lemma IsUpper_not_wsp (c : rune) : IsUpper c = true -> isWsp c = false.
Proof.
  intros H. unfold isWsp.
  destruct (Z.eqb_spec c 32) as [->|_]; [discriminate H|].
  destruct (Z.eqb_spec c 9) as [->|_]; [discriminate H|].
  destruct (Z.eqb_spec c 11) as [->|_]; [discriminate H|].
  reflexivity.
Qed.

Lemma selectPred_isWsp (w : rune) :
  isWsp w = true -> accepts (selectPred 0 tokenPreds w) = isWsp.
Proof.
  intros Hw. unfold tokenPreds. cbn [selectPred Nat.eqb].
  destruct (IsUpper w) eqn:Eu.
  { apply IsUpper_not_wsp in Eu. congruence. }
  destruct (IsLetter w) eqn:El.
  { apply IsLetter_not_wsp in El. congruence. }
  destruct (IsDigit w) eqn:Ed.
  { apply IsDigit_not_wsp in Ed. congruence. }
  now rewrite Hw.
Qed.

(** X3: an upper case letter, or a rune that is no letter, no digit and no
    blank, is a token of one rune where the loop starts a token with it,
    whatever rune follows it. *)
Theorem tokenize_single_rune (pre : list rune) (c d : rune)
    (rest : list rune) :
  accepts (st (tokAfter pre)) c = false ->
  IsUpper c = true
  \/ (IsLetter c = false /\ IsDigit c = false /\ isWsp c = false) ->
  tokensOf (pre ++ c :: d :: rest)
  = emitted (tokAfter pre) ++ [c] :: tokensOf (d :: rest).
Proof.
  intros Hacc Hc.
  assert (Hsel : selectPred 0 tokenPreds c = None
                 /\ isWsp c = false).
  { unfold tokenPreds. cbn [selectPred Nat.eqb].
    destruct Hc as [Hu|(Hl & Hd & Hw)].
    - rewrite Hu. split; [reflexivity | now apply IsUpper_not_wsp].
    - rewrite Hl, Hd, Hw. now destruct (IsUpper c). }
  destruct Hsel as [Hsel Hw].
  destruct (tokenize_token pre c [] Hacc eq_refl) as [_ H].
  specialize (H d rest). rewrite Hsel, Hw in H.
  unfold tokensOf, tokenize. cbn [fst]. now apply H.
Qed.

(** X4: blanks between two tokens leave no token: where the loop starts a
    token with a blank, the blanks up to the next rune that is no blank are
    dropped. *)
Theorem tokenize_blanks_between (pre : list rune) (w : rune)
    (ws : list rune) (d : rune) (rest : list rune) :
  accepts (st (tokAfter pre)) w = false ->
  isWsp w = true -> forallb isWsp ws = true -> isWsp d = false ->
  tokensOf (pre ++ w :: ws ++ d :: rest)
  = emitted (tokAfter pre) ++ tokensOf (d :: rest).
Proof.
  intros Hacc Hw Hws Hd.
  pose proof (selectPred_isWsp w Hw) as Hsel.
  assert (Hrun : forallb (accepts (selectPred 0 tokenPreds w)) ws = true)
    by now rewrite Hsel.
  destruct (tokenize_token pre w ws Hacc Hrun) as [_ H].
  specialize (H d rest). rewrite Hsel, Hw in H.
  unfold tokensOf, tokenize. cbn [fst]. now apply H.
Qed.

(* ================================================================== *)
(** ** Further properties of the parser: what a return is made of *)

Lemma suffix_refl (l : list str) : suffix l l.
Proof. now exists []. Qed.

Lemma suffix_tail (x : str) (l : list str) : suffix l (x :: l).
Proof. now exists [x]. Qed.

Lemma suffix_trans (a b c : list str) : suffix a b -> suffix b c -> suffix a c.
Proof.
  intros [t1 ->] [t2 ->]. exists (t2 ++ t1). now rewrite app_assoc.
Qed.

Lemma suffix_In (x : str) (lo tokens : list str) :
  suffix lo tokens -> In x lo -> In x tokens.
Proof. intros [t ->] H. apply in_or_app. now right. Qed.

Lemma known_suffix (p : Parser) (lo tokens : list str) (x : str) :
  suffix lo tokens -> known p lo x -> known p tokens x.
Proof.
  intros Hs [H|H]; [left; now apply (suffix_In x lo) | now right].
Qed.

Lemma sound_suffix (p : Parser) (lo tokens : list str) (o : outcome parsed) :
  suffix lo tokens -> sound p lo o -> sound p tokens o.
Proof.
  intros Hs. destruct o as [[[lo' e] err]| |]; simpl; trivial.
  intros (H1 & H2 & H3). split; [now apply (suffix_trans lo' lo)|].
  split.
  - intros u Hu. apply (suffix_In _ lo); auto.
  - eapply Forall_impl; [|exact H3]. intros x. now apply known_suffix.
Qed.

Lemma openedBy_In (t : str) (groups : list Group) (group : Group) :
  openedBy t groups = Some group -> In group groups /\ t = Left group.
Proof.
  unfold openedBy. intros H. apply find_some in H as [Hin Heq].
  apply str_eqb_eq in Heq. now split.
Qed.

Lemma applyLoop_sound (p : Parser) (single : list str -> outcome parsed)
    (tokens : list str) :
  (forall l, sound p l (single l)) ->
  forall fuel lo e,
    suffix lo tokens -> Forall (known p tokens) (names e) ->
    sound p tokens (applyLoop fuel p single lo e).
Proof.
  intros Hs. induction fuel as [|n IH]; intros lo e Hlo He; simpl; trivial.
  destruct lo as [|l0 rest]; [exact I|].
  destruct (_ || _); [|simpl; repeat split; trivial; discriminate].
  pose proof (sound_suffix p _ tokens _ Hlo (Hs (l0 :: rest))) as H.
  case_outcome (single (l0 :: rest)) as lo2 e2 err2.
  destruct H as (H1 & H2 & H3).
  destruct err2 as [u|]; [repeat split; trivial|].
  apply IH; trivial. cbn [names]. apply Forall_app. now split.
Qed.

Lemma infixLeftLoop_sound (p : Parser) (glyphs : list str)
    (operand : list str -> outcome parsed) (tokens : list str) :
  (forall l, sound p l (operand l)) ->
  forall fuel lo e err,
    suffix lo tokens -> Forall (known p tokens) (names e) ->
    (forall u, err = Some u -> In (Found u) tokens) ->
    sound p tokens (infixLeftLoop fuel glyphs operand lo e err).
Proof.
  intros Hs. induction fuel as [|n IH]; intros lo e err Hlo He Herr; simpl;
    trivial.
  destruct lo as [|glyph rest]; [exact I|].
  destruct (isOp glyph glyphs); [|simpl; repeat split; trivial].
  assert (Hrest : suffix rest tokens)
    by (apply (suffix_trans _ (glyph :: rest)); [apply suffix_tail | trivial]).
  pose proof (sound_suffix p _ tokens _ Hrest (Hs rest)) as H.
  case_outcome (operand rest) as lo2 e2 err2.
  destruct H as (H1 & H2 & H3).
  destruct err2 as [u|]; [repeat split; trivial; constructor|].
  apply IH; trivial.
  cbn [names]. constructor.
  - left. apply (suffix_In _ (glyph :: rest)); [trivial | now left].
  - apply Forall_app. now split.
Qed.

Lemma suffixLoop_sound (p : Parser) (glyphs : list str) (tokens : list str) :
  forall lo e,
    suffix lo tokens -> Forall (known p tokens) (names e) ->
    sound p tokens (suffixLoop glyphs lo e).
Proof.
  induction lo as [|l0 rest IH]; intros e Hlo He; simpl; trivial.
  destruct (isOp l0 glyphs); [|simpl; repeat split; trivial; discriminate].
  apply IH.
  - apply (suffix_trans _ (l0 :: rest)); [apply suffix_tail | trivial].
  - cbn [names]. constructor; [|trivial].
    left. apply (suffix_In _ (l0 :: rest)); [trivial | now left].
Qed.

Lemma closeGroup_sound (p : Parser) (group : Group) (wrap : Expr -> Expr)
    (t0 : str) (rest : list str) (o : outcome parsed) :
  (forall e, Forall (known p (t0 :: rest)) (names e) ->
             Forall (known p (t0 :: rest)) (names (wrap e))) ->
  sound p rest o ->
  sound p (t0 :: rest) (r <- o ;; closeGroup group wrap r).
Proof.
  intros Hwrap H.
  apply (sound_suffix p rest (t0 :: rest)) in H; [|apply suffix_tail].
  case_outcome o as lo e err. destruct H as (H1 & H2 & H3).
  destruct lo as [|l0 lo']; simpl; trivial.
  destruct (negb _); simpl.
  - split; [trivial|]. split; [|constructor].
    intros u Hu. injection Hu as <-.
    exact (suffix_In l0 (l0 :: lo') (t0 :: rest) H1 (or_introl eq_refl)).
  - split; [|split; auto].
    apply (suffix_trans _ (l0 :: lo')); [apply suffix_tail | trivial].
Qed.

Lemma parse_sound (fuel : nat) :
  (forall p tokens inApp, sound p tokens (parseSingle fuel p tokens inApp))
  /\ (forall p prec tokens, sound p tokens (parseExpr fuel p prec tokens)).
Proof.
  induction fuel as [|n [IHs IHe]]; [split; intros; exact I|].
  split.
  - intros p tokens inApp. rewrite parseSingle_S.
    destruct tokens as [|t0 rest]; [exact I|].
    assert (Ht0 : Forall (known p (t0 :: rest)) (names (Var t0))).
    { constructor; [left; now left | constructor]. }
    destruct (isVar t0).
    { destruct inApp.
      - simpl. split; [apply suffix_tail|]. split; [discriminate | exact Ht0].
      - apply applyLoop_sound;
          [intros l; apply IHs | apply suffix_tail | exact Ht0]. }
    destruct (openedBy t0 (Parens p)) as [group|].
    { apply closeGroup_sound; [auto | apply IHe]. }
    destruct (openedBy t0 (Brackets p)) as [group|] eqn:Eb.
    2:{ simpl. split; [apply suffix_refl|]. split; [|constructor].
        intros u Hu. injection Hu as <-. now left. }
    apply openedBy_In in Eb as [Hin _].
    assert (Hboth : known p (t0 :: rest) (Left group ++ Right group)).
    { right. now apply (in_map (fun g => Left g ++ Right g)). }
    cbv zeta.
    assert (Hgen : sound p (t0 :: rest)
                     (r <- parseExpr n p 0 rest ;;
                      closeGroup group (Unary (Left group ++ Right group)) r)).
    { apply closeGroup_sound; [|apply IHe].
      intros e He. cbn [names]. now constructor. }
    destruct rest as [|t1 rest2]; [exact Hgen|].
    destruct (str_eqb t1 (Right group)); [|exact Hgen].
    simpl. split; [now exists [t0; t1]|].
    split; [discriminate | constructor; [exact Hboth | constructor]].
  - intros p prec tokens. rewrite parseExpr_S.
    destruct (nth_error (Operators p) prec) as [op|]; [|apply IHs].
    destruct (Type_ op).
    + (* InfixLeft *)
      pose proof (IHe p (S prec) tokens) as H.
      case_outcome (parseExpr n p (S prec) tokens) as lo e err.
      destruct H as (H1 & H2 & H3).
      apply infixLeftLoop_sound; trivial.
    + (* InfixRight *)
      pose proof (IHe p (S prec) tokens) as H.
      case_outcome (parseExpr n p (S prec) tokens) as lo e err.
      destruct H as (H1 & H2 & H3).
      destruct err as [u|]; [simpl; repeat split; trivial; constructor|].
      destruct lo as [|glyph rest]; simpl; trivial.
      destruct (isOp glyph (Glyphs op));
        [|simpl; repeat split; trivial; discriminate].
      assert (Hrest : suffix rest tokens)
        by (apply (suffix_trans _ (glyph :: rest));
            [apply suffix_tail | trivial]).
      pose proof (sound_suffix p _ tokens _ Hrest (IHe p prec rest)) as H.
      case_outcome (parseExpr n p prec rest) as lo2 e2 err2.
      destruct H as (H4 & H5 & H6).
      destruct err2 as [u|].
      * destruct lo2 as [|l0 lo3]; simpl; trivial.
        split; [|split; [trivial | constructor]].
        apply (suffix_trans _ (l0 :: lo3)); [apply suffix_tail | trivial].
      * simpl. split; [trivial|]. split; [discriminate|].
        constructor.
        -- left. apply (suffix_In _ (glyph :: rest)); [trivial | now left].
        -- apply Forall_app. now split.
    + (* Prefix *)
      destruct tokens as [|glyph rest]; [exact I|].
      destruct (isOp glyph (Glyphs op)); [|apply IHe].
      pose proof (sound_suffix p _ (glyph :: rest) _ (suffix_tail glyph rest)
                    (IHe p prec rest)) as H.
      case_outcome (parseExpr n p prec rest) as lo e err.
      destruct H as (H1 & H2 & H3).
      destruct err as [u|]; simpl.
      * repeat split; trivial.
      * split; [trivial|]. split; [discriminate|].
        constructor; [left; now left | trivial].
    + (* Suffix *)
      pose proof (IHe p (S prec) tokens) as H.
      case_outcome (parseExpr n p (S prec) tokens) as lo e err.
      destruct H as (H1 & H2 & H3).
      destruct err as [u|]; [simpl; repeat split; trivial; constructor|].
      now apply suffixLoop_sound.
Qed.

Lemma runExpr_sound (p : Parser) (prec : nat) (tokens : list str) :
  sound p tokens (runExpr p prec tokens).
Proof. apply (proj2 (parse_sound _)). Qed.

Lemma runSingle_sound (p : Parser) (tokens : list str) (inApp : bool) :
  sound p tokens (runSingle p tokens inApp).
Proof. apply (proj1 (parse_sound _)). Qed.

(** X5: for every grammar, level and list of tokens, the remainder that
    [parseExpr] or [parseSingle] returns is the tokens it was given less
    some tokens taken from the left, at least one of them when it returns
    no error. *)
Theorem remainder_is_suffix (p : Parser) (prec : nat) (tokens lo : list str)
    (inApp : bool) (e : Expr) (err : error) :
  runExpr p prec tokens = Returns (lo, e, err)
  \/ runSingle p tokens inApp = Returns (lo, e, err) ->
  exists taken, tokens = taken ++ lo /\ (err = None -> taken <> []).
Proof.
  intros H.
  assert (Hboth : suffix lo tokens
                  /\ (err = None -> (length lo < length tokens)%nat)).
  { destruct H as [H|H].
    - pose proof (runExpr_sound p prec tokens) as Hs.
      pose proof (runExpr_consumes p prec tokens) as Hc.
      rewrite H in Hs, Hc. simpl in Hs, Hc. now destruct Hs, Hc.
    - pose proof (runSingle_sound p tokens inApp) as Hs.
      pose proof (runSingle_consumes p tokens inApp) as Hc.
      rewrite H in Hs, Hc. simpl in Hs, Hc. now destruct Hs, Hc. }
  destruct Hboth as [[taken ->] Hlen].
  exists taken. split; [reflexivity|].
  intros Herr ->. specialize (Hlen Herr). simpl in Hlen. lia.
Qed.

Lemma leftover_In (lo : list str) (l0 : str) :
  leftover lo = Returns (Some l0) -> In l0 lo.
Proof.
  destruct lo as [|x rest]; simpl; [discriminate|].
  destruct (_ || _); intros H; inversion H. now left.
Qed.

(** X6: the token that an error of [ParseExpr] or of [Parse] names in
    [Found] is one of the tokens of the source, for every grammar and
    source. *)
Theorem error_names_a_token (p : Parser) (source : str) (u : Unexpected) :
  (forall e, ParseExpr p source = Returns (e, Some u) ->
             In (Found u) (tokensOf source))
  /\ (forall q, Parse p source = Returns (q, Some u) ->
                In (Found u) (tokensOf source)).
Proof.
  unfold ParseExpr, Parse, parseEqn, tokensOf, tokenize. cbn [fst].
  set (tokens := tokenizeFrom tokInit source).
  pose proof (runExpr_sound p 0 tokens) as Hs.
  destruct (runExpr p 0 tokens) as [[[lo e1] err1]| |]; cbn [bind];
    [|split; intros; discriminate..].
  destruct Hs as (Hlo & Herr & _).
  split.
  - intros e. destruct err1 as [u1|].
    + intros H. inversion H; subst. now apply Herr.
    + destruct (leftover lo) as [[l0|]| |] eqn:El; cbn [bind];
        intros H; inversion H; subst.
      apply (suffix_In _ lo); [trivial | now apply leftover_In].
  - intros q. destruct err1 as [u1|]; cbn [bind].
    + destruct (leftover lo) as [[l0|]| |]; cbn [bind];
        intros H; inversion H; subst; now apply Herr.
    + destruct lo as [|l0 rest]; [discriminate|].
      destruct (negb (str_eqb l0 (go "="))); cbn [bind].
      * destruct (leftover (l0 :: rest)) as [[l1|]| |]; cbn [bind];
          intros H; inversion H; subst;
          exact (suffix_In l0 (l0 :: rest) tokens Hlo (or_introl eq_refl)).
      * assert (Hrest : suffix rest tokens)
          by (apply (suffix_trans _ (l0 :: rest));
              [apply suffix_tail | trivial]).
        pose proof (sound_suffix p _ tokens _ Hrest (runExpr_sound p 0 rest))
          as Hs2.
        destruct (runExpr p 0 rest) as [[[lo2 e2] err2]| |]; cbn [bind];
          [|discriminate..].
        destruct Hs2 as (Hlo2 & Herr2 & _).
        destruct err2 as [u2|]; cbn [bind].
        -- destruct (leftover lo2) as [[l1|]| |]; cbn [bind];
             intros H; inversion H; subst; now apply Herr2.
        -- destruct (leftover lo2) as [[l1|]| |] eqn:El; cbn [bind];
             intros H; inversion H; subst.
           apply (suffix_In _ lo2); [trivial | now apply leftover_In].
Qed.

(** X7: every name of a variable and every operator in a tree that
    [ParseExpr] or [Parse] returns is a token of the source, or the opener
    and the closer of a structural group of the grammar, joined: the parser
    makes up no name. *)
Theorem tree_names_are_tokens (p : Parser) (source : str) :
  (forall e err, ParseExpr p source = Returns (e, err) ->
                 Forall (known p (tokensOf source)) (names e))
  /\ (forall l r err,
        Parse p source = Returns (Some (mkEquation l r), err) ->
        Forall (known p (tokensOf source)) (names l ++ names r)).
Proof.
  unfold ParseExpr, Parse, parseEqn, tokensOf, tokenize. cbn [fst].
  set (tokens := tokenizeFrom tokInit source).
  pose proof (runExpr_sound p 0 tokens) as Hs.
  destruct (runExpr p 0 tokens) as [[[lo e1] err1]| |]; cbn [bind];
    [|split; intros; discriminate..].
  destruct Hs as (Hlo & _ & Hnames).
  split.
  - intros e err. destruct err1 as [u1|].
    + intros H. inversion H; subst. constructor.
    + destruct (leftover lo) as [[l0|]| |]; cbn [bind];
        intros H; inversion H; subst; [constructor | trivial].
  - intros l r err. destruct err1 as [u1|]; cbn [bind].
    + destruct (leftover lo) as [[l0|]| |]; cbn [bind]; discriminate.
    + destruct lo as [|l0 rest]; [discriminate|].
      destruct (negb (str_eqb l0 (go "="))); cbn [bind].
      * destruct (leftover (l0 :: rest)) as [[l1|]| |]; cbn [bind];
          discriminate.
      * assert (Hrest : suffix rest tokens)
          by (apply (suffix_trans _ (l0 :: rest));
              [apply suffix_tail | trivial]).
        pose proof (sound_suffix p _ tokens _ Hrest (runExpr_sound p 0 rest))
          as Hs2.
        destruct (runExpr p 0 rest) as [[[lo2 e2] err2]| |]; cbn [bind];
          [|discriminate..].
        destruct Hs2 as (_ & _ & Hnames2).
        destruct err2 as [u2|]; cbn [bind].
        -- destruct (leftover lo2) as [[l1|]| |]; cbn [bind]; discriminate.
        -- destruct (leftover lo2) as [[l1|]| |]; cbn [bind];
             intros H; inversion H; subst.
           apply Forall_app. now split.
Qed.

(* ================================================================== *)
(** ** Further properties of the parser: the end of input, errors *)

Lemma openedBy_none (p : Parser) (t : str) :
  opensNone p t = true ->
  openedBy t (Parens p) = None /\ openedBy t (Brackets p) = None.
Proof.
  unfold opensNone, openedBy. intros H. apply negb_true_iff in H.
  rewrite existsb_app in H. apply orb_false_iff in H as [H1 H2].
  split.
  - destruct (find _ (Parens p)) as [g|] eqn:E; [|reflexivity].
    apply find_some in E as [Hin Hg].
    assert (existsb (fun group => str_eqb t (Left group)) (Parens p) = true)
      by (apply existsb_exists; now exists g).
    congruence.
  - destruct (find _ (Brackets p)) as [g|] eqn:E; [|reflexivity].
    apply find_some in E as [Hin Hg].
    assert (existsb (fun group => str_eqb t (Left group)) (Brackets p) = true)
      by (apply existsb_exists; now exists g).
    congruence.
Qed.

Lemma runExpr_eof_level (p : Parser) (rest : list str) :
  opensNone p eof = true ->
  forall d prec,
    (prec + d = length (Operators p))%nat ->
    runExpr p prec (eof :: rest)
    = Returns (eof :: rest, nilExpr, Some (mkUnexpected eof (options p))).
Proof.
  intros Hopen.
  assert (Hbase : runSingle p (eof :: rest) false
                  = Returns (eof :: rest, nilExpr,
                             Some (mkUnexpected eof (options p)))).
  { rewrite runSingle_unfold.
    destruct (openedBy_none p eof Hopen) as [-> ->]. reflexivity. }
  induction d as [|d IH]; intros prec Hd.
  - rewrite runExpr_unfold.
    assert (E : nth_error (Operators p) prec = None)
      by (apply nth_error_None; lia).
    now rewrite E.
  - rewrite runExpr_unfold.
    destruct (nth_error (Operators p) prec) as [op|]; [|exact Hbase].
    assert (Hup := IH (S prec) ltac:(lia)).
    destruct (Type_ op).
    + rewrite Hup. cbn [bind]. now rewrite runInfixLeft_unfold.
    + now rewrite Hup.
    + cbn [isOp eof str_eqb]. exact Hup.
    + now rewrite Hup.
Qed.

(** X8: at the end of input there is no operand.  For every grammar none
    of whose groups opens with the empty string, [parseExpr] at any level
    on tokens that start with the marker returns the tokens as they are, a
    nil tree and [Unexpected] with [Found] empty and [Expecting] the list of
    the prefix operators; so [ParseExpr] and [Parse] fail this way on the
    empty text. *)
Theorem nothing_to_parse (p : Parser) (prec : nat) (rest : list str) :
  opensNone p eof = true ->
  runExpr p prec (eof :: rest)
  = Returns (eof :: rest, nilExpr, Some (mkUnexpected eof (options p)))
  /\ ParseExpr p [] = Returns (nilExpr, Some (mkUnexpected eof (options p)))
  /\ Parse p [] = Returns (None, Some (mkUnexpected eof (options p))).
Proof.
  intros Hopen.
  assert (H : forall q tl,
             runExpr p q (eof :: tl)
             = Returns (eof :: tl, nilExpr,
                        Some (mkUnexpected eof (options p)))).
  { intros q tl.
    destruct (Nat.le_gt_cases (length (Operators p)) q) as [Hge|Hlt].
    - rewrite runExpr_unfold.
      assert (E : nth_error (Operators p) q = None)
        by (now apply nth_error_None).
      rewrite E, runSingle_unfold.
      destruct (openedBy_none p eof Hopen) as [-> ->]. reflexivity.
    - apply (runExpr_eof_level p tl Hopen (length (Operators p) - q)). lia. }
  split; [apply H|].
  unfold ParseExpr, Parse, parseEqn, tokenize, tokenizeFrom, tokFinish.
  cbn [fold_left tokInit matches buf app].
  change [[]; []] with (eof :: [eof]).
  rewrite (H 0%nat [eof]). split; reflexivity.
Qed.

Lemma infixLeftLoop_error (glyphs : list str)
    (operand : list str -> outcome parsed) :
  forall fuel lo e err lo' e' u,
    infixLeftLoop fuel glyphs operand lo e err = Returns (lo', e', Some u) ->
    e' = nilExpr \/ (e' = e /\ err = Some u).
Proof.
  induction fuel as [|n IH]; intros lo e err lo' e' u; simpl;
    [discriminate|].
  destruct lo as [|glyph rest]; [discriminate|].
  destruct (isOp glyph glyphs).
  - destruct (operand rest) as [[[lo2 e2] err2]| |]; cbn [bind];
      [|discriminate..].
    destruct err2 as [u2|].
    + intros H. inversion H. now left.
    + intros H. apply IH in H as [H|[_ H]]; [now left | discriminate].
  - intros H. inversion H; subst. now right.
Qed.

Lemma suffixLoop_no_error (glyphs : list str) :
  forall lo e lo' e' u, suffixLoop glyphs lo e <> Returns (lo', e', Some u).
Proof.
  induction lo as [|l0 rest IH]; intros e lo' e' u; simpl; [discriminate|].
  destruct (isOp l0 glyphs); [apply IH | discriminate].
Qed.

Lemma clearsTree_S (p : Parser) (prec : nat) (op : Prec) :
  nth_error (Operators p) prec = Some op ->
  clearsTree p prec
  = match Type_ op with
    | InfixRight | Suffix => true
    | _ => clearsTree p (S prec)
    end.
Proof.
  intros H. unfold clearsTree. rewrite (skipn_nth_error _ _ _ H).
  cbn [existsb]. now destruct (Type_ op).
Qed.

Lemma error_clears_tree_level (p : Parser) :
  forall d prec tokens lo e u,
    (prec + d = length (Operators p))%nat ->
    clearsTree p prec = true ->
    runExpr p prec tokens = Returns (lo, e, Some u) -> e = nilExpr.
Proof.
  induction d as [|d IH]; intros prec tokens lo e u Hd Hc.
  { unfold clearsTree in Hc. rewrite skipn_all2 in Hc by lia. discriminate. }
  destruct tokens as [|t0 rest];
    rewrite runExpr_unfold;
    (destruct (nth_error (Operators p) prec) as [op|] eqn:Eop;
     [|apply nth_error_None in Eop; lia]);
    rewrite (clearsTree_S p prec op Eop) in Hc;
    destruct (Type_ op).
  all: try (destruct (runExpr p (S prec) _) as [[[lo1 e1] err1]| |] eqn:E1;
            cbn [bind]; [|discriminate..]).
  all: try discriminate.
  - (* InfixLeft, no token *)
    unfold runInfixLeft. intros H.
    apply infixLeftLoop_error in H as [H|[-> ->]]; [exact H|].
    apply (IH (S prec) [] lo1 e1 u); auto; lia.
  - (* InfixRight, no token *)
    destruct err1 as [u1|]; [intros H; now inversion H|].
    destruct lo1 as [|glyph tl]; [discriminate|].
    destruct (isOp glyph (Glyphs op)); [|discriminate].
    destruct (runExpr p prec tl) as [[[lo2 e2] err2]| |]; cbn [bind];
      [|discriminate..].
    destruct err2 as [u2|]; [|discriminate].
    destruct lo2; [discriminate|]. intros H. now inversion H.
  - (* Suffix, no token *)
    destruct err1 as [u1|]; [intros H; now inversion H|].
    intros H. now apply suffixLoop_no_error in H.
  - (* InfixLeft *)
    unfold runInfixLeft. intros H.
    apply infixLeftLoop_error in H as [H|[-> ->]]; [exact H|].
    apply (IH (S prec) (t0 :: rest) lo1 e1 u); auto; lia.
  - (* InfixRight *)
    destruct err1 as [u1|]; [intros H; now inversion H|].
    destruct lo1 as [|glyph tl]; [discriminate|].
    destruct (isOp glyph (Glyphs op)); [|discriminate].
    destruct (runExpr p prec tl) as [[[lo2 e2] err2]| |]; cbn [bind];
      [|discriminate..].
    destruct err2 as [u2|]; [|discriminate].
    destruct lo2; [discriminate|]. intros H. now inversion H.
  - (* Prefix *)
    destruct (isOp t0 (Glyphs op)).
    + destruct (runExpr p prec rest) as [[[lo1 e1] err1]| |] eqn:E1;
        cbn [bind]; [|discriminate..].
      destruct err1 as [u1|]; [intros H; now inversion H | discriminate].
    + intros H. apply (IH (S prec) (t0 :: rest) lo e u); auto; lia.
  - (* Suffix *)
    destruct err1 as [u1|]; [intros H; now inversion H|].
    intros H. now apply suffixLoop_no_error in H.
Qed.

(** X9: no partial tree comes with an error out of the levels of the
    operators.  For every grammar, at a level at or below which the table
    has a right-infix or a suffix level, as at every level of the PEMDAS
    table, [parseExpr] returns a nil tree with every error it returns. *)
Theorem error_clears_tree (p : Parser) (prec : nat) (tokens lo : list str)
    (e : Expr) (u : Unexpected) :
  clearsTree p prec = true ->
  runExpr p prec tokens = Returns (lo, e, Some u) ->
  e = nilExpr
  /\ forallb (clearsTree PEMDAS) (seq 0 (length (Operators PEMDAS))) = true.
Proof.
  intros Hc H. split; [|reflexivity].
  destruct (Nat.le_gt_cases (length (Operators p)) prec) as [Hge|Hlt].
  - unfold clearsTree in Hc. rewrite skipn_all2 in Hc by lia. discriminate.
  - apply (error_clears_tree_level p (length (Operators p) - prec) prec
             tokens lo e u); auto. lia.
Qed.

(* ================================================================== *)
(** ** Further properties of the parser: juxtaposition, the two entries *)

Lemma tokensOf_ParseExpr (p : Parser) (source : str) (tokens : list str) :
  tokensOf source = tokens ->
  ParseExpr p source =
  '(lo, e, err) <- runExpr p 0 tokens ;;
  match err with
  | Some _ => Returns (nilExpr, err)
  | None =>
      more <- leftover lo ;;
      match more with
      | Some l0 => Returns (nilExpr, Some (mkUnexpected l0 (go "end-of-input")))
      | None => Returns (e, None)
      end
  end.
Proof. intros <-. reflexivity. Qed.

Lemma isVar_leftover (x : str) (rest : list str) :
  isVar x = true -> leftover (x :: rest) = Returns (Some x).
Proof.
  intros H. unfold isVar in H. apply andb_true_iff in H as [_ H].
  cbn [leftover]. now rewrite H, orb_true_r.
Qed.

(** What [parseSingle] returns at the end of input goes up through the
    levels of the PEMDAS grammar, when a variable started it. *)
Lemma PEMDAS_climb_var (h : str) (tl rest : list str) (e : Expr) :
  isVar h = true ->
  runSingle PEMDAS (h :: tl) false = Returns (eof :: rest, e, None) ->
  runExpr PEMDAS 0 (h :: tl) = Returns (eof :: rest, e, None).
Proof.
  intros Hh Hs.
  apply (runExpr_climb PEMDAS h eof tl rest e 6) with (d := 6%nat).
  - now rewrite runExpr_unfold.
  - reflexivity.
  - change (levelsBetween PEMDAS 0 6) with (Operators PEMDAS).
    rewrite (passes_var _ h eof Hh PEMDAS_glyphs). reflexivity.
Qed.

(** X10: what the comment on [AdjacentIsApplication] says.  With the flag
    off, a variable that follows a variable is a syntax error of
    [ParseExpr]: it is the token found where the end of input is expected
    (for a grammar where the first variable is no prefix operator, and the
    second is no infix or suffix operator and opens no group).  With the
    PEMDAS grammar, where the flag is on, [f x] parses as [f(x)] does: to
    the application of [f] to [x]. *)
Theorem adjacency_is_application (p : Parser) (source : str) (v x : str)
    (rest : list str) :
  isVar v = true -> isVar x = true ->
  (AdjacentIsApplication p = false -> opensNone p x = true ->
   passes (Operators p) v x = true ->
   tokensOf source = v :: x :: rest ->
   ParseExpr p source
   = Returns (nilExpr, Some (mkUnexpected x (go "end-of-input"))))
  /\ (tokensOf source = [v; x; eof] ->
      ParseExpr PEMDAS source = Returns (Apply (Var v) (Var x), None))
  /\ (tokensOf source = [v; go "("; x; go ")"; eof] ->
      ParseExpr PEMDAS source = Returns (Apply (Var v) (Var x), None)).
Proof.
  intros Hv Hx. split; [|split].
  - intros Hadj Hopen Hpass Htok.
    rewrite (tokensOf_ParseExpr p source _ Htok).
    rewrite (runExpr_var p v x rest 0 Hv); trivial.
    + cbn [bind]. now rewrite (isVar_leftover x rest Hx).
    + unfold endsApply, goesOn. unfold opensNone in Hopen.
      apply negb_true_iff in Hopen. now rewrite Hopen, Hadj, andb_false_r.
  - intros Htok. rewrite (tokensOf_ParseExpr PEMDAS source _ Htok).
    rewrite (PEMDAS_climb_var v [x; eof] [] (Apply (Var v) (Var x)) Hv);
      [reflexivity|].
    rewrite runSingle_unfold, Hv.
    apply (runApply_vars PEMDAS eof [] eq_refl eq_refl [x] (Var v)).
    cbn [forallb]. now rewrite Hx.
  - intros Htok. rewrite (tokensOf_ParseExpr PEMDAS source _ Htok).
    rewrite (PEMDAS_climb_var v [go "("; x; go ")"; eof] []
               (Apply (Var v) (Var x)) Hv); [reflexivity|].
    rewrite runSingle_unfold, Hv.
    apply (runApply_atoms PEMDAS eof [] eq_refl
             [([go "("; x; go ")"], Var x)] (Var v)).
    cbn [operandsOK atomTokens flat_map fst app].
    split; [eexists _, _; split; reflexivity|]. split; [|exact I].
    rewrite runSingle_unfold.
    change (isVar (go "(")) with false. cbv iota.
    change (openedBy (go "(") (Parens PEMDAS))
      with (Some (mkGroup (go "(") (go ")"))). cbv iota.
    rewrite (PEMDAS_var x (go ")") [eof] 0 Hx) by reflexivity.
    reflexivity.
Qed.

Lemma leftover_none (lo : list str) :
  leftover lo = Returns None -> lo = [eof].
Proof.
  destruct lo as [|l0 rest]; cbn [leftover]; [discriminate|].
  destruct (Nat.ltb_spec 1 (length rest + 1)) as [Hlt|Hge]; cbn [orb];
    [discriminate|].
  destruct (str_eqb l0 []) eqn:E; cbn [negb]; [|discriminate].
  intros _. apply str_eqb_eq in E. subst l0.
  destruct rest; [reflexivity | simpl in Hge; lia].
Qed.

(** X11: the two entries accept no source in common, for every grammar.
    A source that [ParseExpr] parses is refused by [Parse], which finds the
    end of input where it expects the equals sign; a source that [Parse]
    parses is refused by [ParseExpr], which finds the equals sign where it
    expects the end of input. *)
Theorem expression_or_equation (p : Parser) (source : str) :
  (forall e, ParseExpr p source = Returns (e, None) ->
             Parse p source
             = Returns (None, Some (mkUnexpected eof (go "="))))
  /\ (forall q, Parse p source = Returns (Some q, None) ->
                ParseExpr p source
                = Returns (nilExpr,
                           Some (mkUnexpected (go "=") (go "end-of-input")))).
Proof.
  unfold ParseExpr, Parse, parseEqn, tokenize. cbn [fst].
  set (tokens := tokenizeFrom tokInit source).
  destruct (runExpr p 0 tokens) as [[[lo e1] err1]| |]; cbn [bind];
    [|split; intros; discriminate..].
  split.
  - intros e. destruct err1 as [u1|]; [discriminate|].
    destruct (leftover lo) as [[l0|]| |] eqn:El; cbn [bind];
      try discriminate.
    apply leftover_none in El. subst lo. intros _. reflexivity.
  - intros q. destruct err1 as [u1|]; cbn [bind].
    { destruct (leftover lo) as [[l0|]| |]; cbn [bind]; discriminate. }
    destruct lo as [|l0 rest]; [discriminate|].
    destruct (str_eqb l0 (go "=")) eqn:Eq; cbn [negb bind].
    2:{ destruct (leftover (l0 :: rest)) as [[l1|]| |]; cbn [bind];
          discriminate. }
    apply str_eqb_eq in Eq. subst l0. intros _.
    cbn [leftover]. change (str_eqb (go "=") []) with false.
    now rewrite orb_true_r.
Qed.

(* ================================================================== *)
(** ** Rendering, and back *)

Lemma forallb_firstn {A} (f : A -> bool) (l : list A) (n : nat) :
  forallb f l = true -> forallb f (firstn n l) = true.
Proof.
  revert l. induction n as [|n IH]; intros [|a l] H; simpl in *; trivial.
  apply andb_true_iff in H as [Ha H]. now rewrite Ha, IH.
Qed.

(** A first token that is no prefix operator passes as the end of input
    does. *)
Lemma passes_head (levels : list Prec) (h t : str) :
  forallb (fun op => match Type_ op with
                     | Prefix => negb (isOp h (Glyphs op))
                     | _ => true
                     end) levels = true ->
  passes levels h t = passes levels eof t.
Proof.
  unfold passes.
  induction levels as [|op levels IH]; intros H; simpl in *; [reflexivity|].
  apply andb_true_iff in H as [H1 H2]. rewrite (IH H2).
  destruct (Type_ op); trivial. now rewrite H1.
Qed.

(** An atom of the PEMDAS grammar that starts with no prefix operator is
    the operand of every level that does not take the token after it. *)
Lemma PEMDAS_operand (h t : str) (tl rest : list str) (e : Expr)
    (prec : nat) :
  runSingle PEMDAS (h :: tl) false = Returns (t :: rest, e, None) ->
  isOp h [go "-"; go "+"] = false ->
  (prec <= 6)%nat ->
  passes (levelsBetween PEMDAS prec 6) eof t = true ->
  runExpr PEMDAS prec (h :: tl) = Returns (t :: rest, e, None).
Proof.
  intros Hs Hh Hp Hpass.
  apply (runExpr_climb PEMDAS h t tl rest e 6) with (d := (6 - prec)%nat).
  - now rewrite runExpr_unfold.
  - lia.
  - rewrite passes_head; [exact Hpass|].
    unfold levelsBetween. apply forallb_firstn, forallb_skipn.
    cbn [forallb Operators PEMDAS Type_ Glyphs andb]. now rewrite Hh.
Qed.

Lemma infixLeft_once (p : Parser) (k : nat) (opc : Prec)
    (toks toks2 rest : list str) (op t : str) (l r : Expr) :
  nth_error (Operators p) k = Some opc -> Type_ opc = InfixLeft ->
  runExpr p (S k) toks = Returns (op :: toks2, l, None) ->
  isOp op (Glyphs opc) = true ->
  runExpr p (S k) toks2 = Returns (t :: rest, r, None) ->
  isOp t (Glyphs opc) = false ->
  runExpr p k toks = Returns (t :: rest, Binary op l r, None).
Proof.
  intros Hn Ht H1 Hop H2 Hstop.
  rewrite runExpr_unfold, Hn, Ht, H1. cbn [bind].
  rewrite runInfixLeft_unfold, Hop, H2. cbn [bind].
  now rewrite runInfixLeft_unfold, Hstop.
Qed.

Lemma infixRight_once (p : Parser) (k : nat) (opc : Prec)
    (toks toks2 rest : list str) (op t : str) (l r : Expr) :
  nth_error (Operators p) k = Some opc -> Type_ opc = InfixRight ->
  runExpr p (S k) toks = Returns (op :: toks2, l, None) ->
  isOp op (Glyphs opc) = true ->
  runExpr p k toks2 = Returns (t :: rest, r, None) ->
  runExpr p k toks = Returns (t :: rest, Binary op l r, None).
Proof.
  intros Hn Ht H1 Hop H2.
  rewrite runExpr_unfold, Hn, Ht, H1. cbn [bind].
  now rewrite Hop, H2.
Qed.

(** The rendering of a plain tree starts with a variable or with the
    opening parenthesis. *)
Lemma plain_head (e : Expr) :
  plain e = true ->
  exists h tl, treeTokens e = h :: tl
               /\ isOp h [go "-"; go "+"] = false
               /\ goesOn PEMDAS h = true.
Proof.
  assert (Hparen : isOp (go "(") [go "-"; go "+"] = false
                   /\ goesOn PEMDAS (go "(") = true) by (split; reflexivity).
  destruct e as [|x|f a|op a|op l r]; cbn [plain treeTokens]; intros H;
    try discriminate; try (eexists _, _; split; [reflexivity | exact Hparen]).
  exists x, []. split; [reflexivity|]. split.
  - now apply isOp_var.
  - unfold goesOn. now rewrite H, orb_true_r.
Qed.

Lemma PEMDAS_paren (rest lo : list str) (e : Expr) (inApp : bool) :
  runExpr PEMDAS 0 rest = Returns (go ")" :: lo, e, None) ->
  runSingle PEMDAS (go "(" :: rest) inApp = Returns (lo, e, None).
Proof.
  intros H. rewrite runSingle_unfold.
  change (isVar (go "(")) with false. cbv iota.
  change (openedBy (go "(") (Parens PEMDAS))
    with (Some (mkGroup (go "(") (go ")"))). cbv iota.
  now rewrite H.
Qed.

Lemma plain_atom (e : Expr) :
  plain e = true ->
  forall nt rest inApp,
    inApp = true \/ endsApply PEMDAS nt = true ->
    runSingle PEMDAS (treeTokens e ++ nt :: rest) inApp
    = Returns (nt :: rest, e, None).
Proof.
  induction e as [|x|f IHf a IHa|op a IHa|op l IHl r IHr];
    cbn [plain]; intros Hplain nt rest inApp Hnt.
  - discriminate.
  - (* a variable *)
    cbn [treeTokens app]. rewrite runSingle_unfold, Hplain.
    destruct Hnt as [->|Hnt]; [reflexivity|].
    destruct inApp; [reflexivity|].
    rewrite runApply_unfold. unfold endsApply, goesOn in Hnt.
    now destruct (_ || _).
  - (* the application of a variable *)
    destruct f as [|f0| | |]; try discriminate.
    apply andb_true_iff in Hplain as [Hf Ha].
    cbn [treeTokens app]. repeat (rewrite <- app_assoc; cbn [app]).
    apply PEMDAS_paren.
    apply PEMDAS_operand; [|now apply isOp_var| lia | reflexivity].
    rewrite runSingle_unfold, Hf, runApply_unfold.
    destruct (plain_head a Ha) as (h & tl & Eh & _ & Hgo).
    rewrite Eh. cbn [app]. unfold goesOn in Hgo. rewrite Hgo.
    change (h :: tl ++ go ")" :: nt :: rest)
      with ((h :: tl) ++ go ")" :: nt :: rest).
    rewrite <- Eh.
    rewrite (IHa Ha (go ")") (nt :: rest) true) by now left.
    cbn [bind]. now rewrite runApply_unfold.
  - (* a prefix operator *)
    apply andb_true_iff in Hplain as [Hop Ha].
    cbn [treeTokens app]. repeat (rewrite <- app_assoc; cbn [app]).
    apply PEMDAS_paren.
    apply (runExpr_climb PEMDAS op (go ")") _ (nt :: rest) _ 4)
      with (d := 4%nat); [|reflexivity|reflexivity].
    rewrite PEMDAS_level4, Hop.
    destruct (plain_head a Ha) as (h & tl & Eh & Hh & _).
    assert (E : runExpr PEMDAS 4 (treeTokens a ++ go ")" :: nt :: rest)
                = Returns (go ")" :: nt :: rest, a, None)).
    { pose proof (IHa Ha (go ")") (nt :: rest) false) as Hs.
      rewrite Eh in *. cbn [app] in *.
      apply PEMDAS_operand; [|exact Hh| lia | reflexivity].
      apply Hs. now right. }
    now rewrite E.
  - (* an infix operator *)
    apply andb_true_iff in Hplain as [Hplain Hr].
    apply andb_true_iff in Hplain as [Hop Hl].
    cbn [treeTokens app]. repeat (rewrite <- app_assoc; cbn [app]).
    apply PEMDAS_paren.
    destruct (plain_head l Hl) as (hl & tll & El & Hhl & _).
    destruct (plain_head r Hr) as (hr & tlr & Er & Hhr & _).
    pose proof (IHr Hr (go ")") (nt :: rest) false (or_intror eq_refl))
      as Hsr.
    assert (Hsl : endsApply PEMDAS op = true ->
                  runSingle PEMDAS
                    (treeTokens l ++ op :: treeTokens r ++ go ")" :: nt :: rest)
                    false
                  = Returns (op :: treeTokens r ++ go ")" :: nt :: rest, l,
                             None))
      by (intros E; apply IHl; [exact Hl | now right]).
    rewrite El, Er in *. cbn [app] in *.
    apply isOp_In in Hop. unfold infixGlyphs in Hop. cbn [In] in Hop.
    destruct Hop as [<-|[<-|[<-|[<-|[<-|[<-|[<-|[]]]]]]]].
    + (* , *)
      apply (infixLeft_once PEMDAS 0 _ _ (hr :: tlr ++ go ")" :: nt :: rest)
               (nt :: rest) (go ",") (go ")") l r eq_refl eq_refl);
        try reflexivity;
        (apply PEMDAS_operand; [auto | trivial | lia | reflexivity]).
    + (* + *)
      apply (runExpr_climb PEMDAS hl (go ")") _ (nt :: rest) _ 1)
        with (d := 1%nat); [|reflexivity|reflexivity].
      apply (infixLeft_once PEMDAS 1 _ _ (hr :: tlr ++ go ")" :: nt :: rest)
               (nt :: rest) (go "+") (go ")") l r eq_refl eq_refl);
        try reflexivity;
        (apply PEMDAS_operand; [auto | trivial | lia | reflexivity]).
    + (* - *)
      apply (runExpr_climb PEMDAS hl (go ")") _ (nt :: rest) _ 1)
        with (d := 1%nat); [|reflexivity|reflexivity].
      apply (infixLeft_once PEMDAS 1 _ _ (hr :: tlr ++ go ")" :: nt :: rest)
               (nt :: rest) (go "-") (go ")") l r eq_refl eq_refl);
        try reflexivity;
        (apply PEMDAS_operand; [auto | trivial | lia | reflexivity]).
    + (* * *)
      apply (runExpr_climb PEMDAS hl (go ")") _ (nt :: rest) _ 2)
        with (d := 2%nat); [|reflexivity|reflexivity].
      apply (infixLeft_once PEMDAS 2 _ _ (hr :: tlr ++ go ")" :: nt :: rest)
               (nt :: rest) (go "*") (go ")") l r eq_refl eq_refl);
        try reflexivity;
        (apply PEMDAS_operand; [auto | trivial | lia | reflexivity]).
    + (* / *)
      apply (runExpr_climb PEMDAS hl (go ")") _ (nt :: rest) _ 2)
        with (d := 2%nat); [|reflexivity|reflexivity].
      apply (infixLeft_once PEMDAS 2 _ _ (hr :: tlr ++ go ")" :: nt :: rest)
               (nt :: rest) (go "/") (go ")") l r eq_refl eq_refl);
        try reflexivity;
        (apply PEMDAS_operand; [auto | trivial | lia | reflexivity]).
    + (* \ *)
      apply (runExpr_climb PEMDAS hl (go ")") _ (nt :: rest) _ 2)
        with (d := 2%nat); [|reflexivity|reflexivity].
      apply (infixLeft_once PEMDAS 2 _ _ (hr :: tlr ++ go ")" :: nt :: rest)
               (nt :: rest) (go "\") (go ")") l r eq_refl eq_refl);
        try reflexivity;
        (apply PEMDAS_operand; [auto | trivial | lia | reflexivity]).
    + (* ^ *)
      apply (runExpr_climb PEMDAS hl (go ")") _ (nt :: rest) _ 3)
        with (d := 3%nat); [|reflexivity|reflexivity].
      apply (infixRight_once PEMDAS 3 _ _ (hr :: tlr ++ go ")" :: nt :: rest)
               (nt :: rest) (go "^") (go ")") l r eq_refl eq_refl);
        try reflexivity;
        (apply PEMDAS_operand; [auto | trivial | lia | reflexivity]).
Qed.

Lemma plain_expr (e : Expr) :
  plain e = true ->
  runExpr PEMDAS 0 (treeTokens e ++ [eof]) = Returns ([eof], e, None).
Proof.
  intros Hplain.
  destruct (plain_head e Hplain) as (h & tl & Eh & Hh & _).
  pose proof (plain_atom e Hplain eof [] false (or_intror eq_refl)) as Hs.
  rewrite Eh in *. cbn [app] in *.
  apply PEMDAS_operand; [exact Hs | exact Hh | lia | reflexivity].
Qed.

(** X12: the parser reads back the tokens of a rendering.  For every tree
    made of variables, of the infix and the prefix operators of the PEMDAS
    grammar and of applications of a variable, the tokens of the tree, each
    node but a variable between parentheses as [String()] writes it, parse
    to the tree, with the PEMDAS grammar: as the whole text, by [parseExpr]
    from the lowest level, and as the operand of an application, by
    [parseSingle], whatever follows them. *)
Theorem render_tokens_parse_back (e : Expr) :
  plain e = true ->
  runExpr PEMDAS 0 (treeTokens e ++ [eof]) = Returns ([eof], e, None)
  /\ forall nt rest,
       runSingle PEMDAS (treeTokens e ++ nt :: rest) true
       = Returns (nt :: rest, e, None).
Proof.
  intros Hplain. split; [exact (plain_expr e Hplain)|].
  intros nt rest. apply plain_atom; [exact Hplain | now left].
Qed.

(** A blank or a closing parenthesis ends every token. *)
Lemma token_ends (c d : rune) :
  isWsp c = false -> d = 32 \/ d = 41 ->
  accepts (selectPred 0 tokenPreds c) d = false.
Proof.
  intros Hc Hd.
  destruct (accepts (selectPred 0 tokenPreds c) d) eqn:E; [|reflexivity].
  destruct Hd as [->| ->].
  - apply selectPred_blank in E. rewrite Hc in E. discriminate E.
  - revert E. unfold tokenPreds. cbn [selectPred Nat.eqb].
    destruct (IsUpper c); [discriminate|].
    destruct (IsLetter c); [discriminate|].
    destruct (IsDigit c); [discriminate|].
    destruct (isWsp c); discriminate.
Qed.

(** One token, and then the rest of the text. *)
Lemma tokensOf_token (x : str) (k : list rune) :
  oneToken x = true ->
  match k with [] => True | d :: _ => d = 32 \/ d = 41 end ->
  tokensOf (x ++ k) = x :: tokensThen k.
Proof.
  destruct x as [|c run]; [discriminate|]. cbn [oneToken].
  intros H Hk. apply andb_true_iff in H as [Hc Hrun].
  apply negb_true_iff in Hc.
  destruct (tokenize_token [] c run eq_refl Hrun) as [Hend Hnext].
  unfold tokensOf, tokenize. cbn [fst].
  destruct k as [|d rest].
  - rewrite app_nil_r. exact Hend.
  - rewrite <- app_comm_cons.
    pose proof (Hnext d rest (token_ends c d Hc Hk)) as H.
    rewrite Hc in H. exact H.
Qed.

(** A blank before a rune that is no blank is dropped. *)
Lemma tokensOf_blank (d : rune) (rest : list rune) :
  isWsp d = false -> tokensOf (32 :: d :: rest) = tokensOf (d :: rest).
Proof.
  intros Hd.
  destruct (tokenize_token [] 32 [] eq_refl eq_refl) as [_ Hnext].
  unfold tokensOf, tokenize. cbn [fst].
  assert (Hacc : accepts (selectPred 0 tokenPreds 32) d = false) by exact Hd.
  exact (Hnext d rest Hacc).
Qed.

Lemma oneToken_glyph (op : str) :
  isOp op infixGlyphs = true \/ isOp op [go "-"; go "+"] = true ->
  oneToken op = true /\ exists c, op = [c] /\ isWsp c = false.
Proof.
  intros [H|H]; apply isOp_In in H; cbn [In infixGlyphs] in H;
    repeat (destruct H as [<-|H]; [split; [reflexivity | eexists; split; reflexivity]|]);
    destruct H.
Qed.

Lemma render_plain (e : Expr) :
  plain e = true -> render true e = render false e.
Proof. destruct e; cbn; trivial; discriminate. Qed.

(** The rendering of a plain tree starts with a rune that is no blank. *)
Lemma render_head (e : Expr) :
  plain e = true -> forallb oneToken (names e) = true ->
  exists c tl, render false e = c :: tl /\ isWsp c = false.
Proof.
  destruct e as [|x|f a|op a|op l r]; cbn [plain names render forallb];
    intros Hp Hn; try discriminate;
    try (eexists _, _; split; reflexivity).
  apply andb_true_iff in Hn as [Hx _].
  destruct x as [|c run]; [discriminate|]. cbn [oneToken] in Hx.
  apply andb_true_iff in Hx as [Hc _]. apply negb_true_iff in Hc.
  now exists c, run.
Qed.

Lemma oneToken_starts (x : str) : oneToken x = true -> startsText x.
Proof.
  destruct x as [|c run]; [discriminate|]. cbn [oneToken]. intros H.
  apply andb_true_iff in H as [Hc _]. apply negb_true_iff in Hc.
  now exists c, run.
Qed.

Lemma toks_open (x k : list rune) :
  startsText x -> tokensOf (40 :: x ++ k) = go "(" :: tokensOf (x ++ k).
Proof.
  intros (c & tl & -> & _).
  destruct (tokenize_token [] 40 [] eq_refl eq_refl) as [_ Hnext].
  unfold tokensOf, tokenize. cbn [fst].
  exact (Hnext c (tl ++ k) eq_refl).
Qed.

Lemma toks_blank (x k : list rune) :
  startsText x -> tokensOf (32 :: x ++ k) = tokensOf (x ++ k).
Proof. intros (c & tl & -> & Hc). now apply tokensOf_blank. Qed.

Lemma toks_word (x : str) (d : rune) (k : list rune) :
  oneToken x = true -> d = 32 \/ d = 41 ->
  tokensOf (x ++ d :: k) = x :: tokensOf (d :: k).
Proof. intros Hx Hd. now apply (tokensOf_token x (d :: k)). Qed.

Lemma toks_close (k : list rune) :
  follows k -> tokensOf (41 :: k) = go ")" :: tokensThen k.
Proof. intros Hk. now apply (tokensOf_token (go ")") k). Qed.

(** The tokens of the rendering of a plain tree whose names are one token
    each are the tokens of the tree. *)
Lemma render_tokens (e : Expr) :
  plain e = true -> forallb oneToken (names e) = true ->
  forall k, follows k ->
    tokensOf (render false e ++ k) = treeTokens e ++ tokensThen k.
Proof.
  induction e as [|x|f IHf a IHa|op a IHa|op l IHl r IHr];
    cbn [plain names]; intros Hp Hn k Hk.
  - discriminate.
  - cbn [forallb] in Hn. apply andb_true_iff in Hn as [Hx _].
    now apply tokensOf_token.
  - destruct f as [|f0| | |]; try discriminate.
    apply andb_true_iff in Hp as [_ Ha].
    cbn [names app forallb] in Hn. apply andb_true_iff in Hn as [Hf Hna].
    cbn [render]. rewrite (render_plain a Ha).
    change (go "(") with (@cons rune 40 nil).
    change (go " ") with (@cons rune 32 nil).
    change (go ")") with (@cons rune 41 nil).
    repeat (rewrite <- app_assoc; cbn [app]).
    rewrite toks_open by now apply oneToken_starts.
    rewrite toks_word by (trivial; now left).
    rewrite toks_blank by now apply render_head.
    rewrite (IHa Ha Hna (@cons rune 41 k)) by (now right).
    cbn [tokensThen]. rewrite toks_close by exact Hk.
    cbn [treeTokens app]. now repeat (rewrite <- app_assoc; cbn [app]).
  - apply andb_true_iff in Hp as [Hop Ha].
    cbn [forallb] in Hn. apply andb_true_iff in Hn as [Hopt Hna].
    cbn [render].
    change (go "(") with (@cons rune 40 nil).
    change (go " ") with (@cons rune 32 nil).
    change (go ")") with (@cons rune 41 nil).
    repeat (rewrite <- app_assoc; cbn [app]).
    rewrite toks_open by now apply oneToken_starts.
    rewrite toks_word by (trivial; now left).
    rewrite toks_blank by now apply render_head.
    rewrite (IHa Ha Hna (@cons rune 41 k)) by (now right).
    cbn [tokensThen]. rewrite toks_close by exact Hk.
    cbn [treeTokens app]. now repeat (rewrite <- app_assoc; cbn [app]).
  - apply andb_true_iff in Hp as [Hp Hr].
    apply andb_true_iff in Hp as [Hop Hl].
    cbn [forallb] in Hn. apply andb_true_iff in Hn as [Hopt Hn].
    rewrite forallb_app in Hn. apply andb_true_iff in Hn as [Hnl Hnr].
    cbn [render].
    change (go "(") with (@cons rune 40 nil).
    change (go " ") with (@cons rune 32 nil).
    change (go ")") with (@cons rune 41 nil).
    repeat (rewrite <- app_assoc; cbn [app]).
    rewrite toks_open by now apply render_head.
    rewrite (IHl Hl Hnl (@cons rune 32 _)) by (now left).
    cbn [tokensThen]. rewrite toks_blank by now apply oneToken_starts.
    rewrite toks_word by (trivial; now left).
    rewrite toks_blank by now apply render_head.
    rewrite (IHr Hr Hnr (@cons rune 41 k)) by (now right).
    cbn [tokensThen]. rewrite toks_close by exact Hk.
    cbn [treeTokens app]. now repeat (rewrite <- app_assoc; cbn [app]).
Qed.

(** X13: what [String()] writes, [ParseExpr] reads back.  For every tree
    made of variables, of the infix and the prefix operators of the PEMDAS
    grammar and of applications of a variable, each name one token of the
    tokenizer, [String()] returns a text that [ParseExpr] with the PEMDAS
    grammar parses to the tree itself. *)
Theorem String_then_ParseExpr (e : Expr) :
  plain e = true -> forallb oneToken (names e) = true ->
  ExprString e = Returns (render false e)
  /\ tokensOf (render false e) = treeTokens e ++ [eof]
  /\ ParseExpr PEMDAS (render false e) = Returns (e, None).
Proof.
  intros Hp Hn.
  assert (Htok : tokensOf (render false e) = treeTokens e ++ [eof]).
  { pose proof (render_tokens e Hp Hn [] I) as H.
    now rewrite app_nil_r in H. }
  split; [destruct e; trivial; discriminate|].
  split; [exact Htok|].
  rewrite (tokensOf_ParseExpr PEMDAS _ _ Htok).
  now rewrite (plain_expr e Hp).
Qed.

(** X14: what [String()] writes of an equation, [Parse] reads back: for
    two trees as in X13, the text of the equation of the two parses, with
    the PEMDAS grammar, to the equation of the two. *)
Theorem String_then_Parse (l r : Expr) :
  plain l = true -> forallb oneToken (names l) = true ->
  plain r = true -> forallb oneToken (names r) = true ->
  tokensOf (EquationString (mkEquation l r))
  = treeTokens l ++ go "=" :: treeTokens r ++ [eof]
  /\ Parse PEMDAS (EquationString (mkEquation l r))
     = Returns (Some (mkEquation l r), None).
Proof.
  intros Hl Hnl Hr Hnr.
  assert (Htok : tokensOf (EquationString (mkEquation l r))
                 = treeTokens l ++ go "=" :: treeTokens r ++ [eof]).
  { cbn [EquationString].
    change (go " = ") with (@cons rune 32 (@cons rune 61 (@cons rune 32 nil))).
    cbn [app].
    rewrite (render_tokens l Hl Hnl (@cons rune 32 _)) by (now left).
    cbn [tokensThen].
    change (@cons rune 32 (@cons rune 61 (@cons rune 32 (render false r))))
      with (@cons rune 32 (go "=" ++ @cons rune 32 (render false r))).
    pose proof (render_tokens r Hr Hnr [] I) as Hrt. cbn [tokensThen] in Hrt.
    rewrite toks_blank by (now apply oneToken_starts).
    rewrite toks_word by (trivial; now left).
    rewrite <- (app_nil_r (render false r)).
    rewrite toks_blank by (now apply render_head).
    now rewrite Hrt. }
  split; [exact Htok|].
  unfold tokensOf, tokenize in Htok. cbn [fst] in Htok.
  unfold Parse, parseEqn, tokenize. rewrite Htok.
  destruct (plain_head l Hl) as (h & tl & Eh & Hh & _).
  assert (El : runExpr PEMDAS 0
                 (treeTokens l ++ go "=" :: treeTokens r ++ [eof])
               = Returns (go "=" :: treeTokens r ++ [eof], l, None)).
  { pose proof (plain_atom l Hl (go "=") (treeTokens r ++ [eof]) false
                  (or_intror eq_refl)) as Hs.
    rewrite Eh in *. cbn [app] in *.
    apply PEMDAS_operand; [exact Hs | exact Hh | lia | reflexivity]. }
  rewrite El. cbn [bind].
  change (negb (str_eqb (go "=") (go "="))) with false. cbv iota.
  rewrite (plain_expr r Hr). reflexivity.
Qed.

(* ================================================================== *)
(** ** The table of the PEMDAS grammar, in full *)

Lemma show_body (k : nat) (e : Expr) :
  show k e
  = if Nat.ltb (levelOf e) k then go "(" :: show 0 e ++ [go ")"]
    else show 0 e.
Proof. destruct e; reflexivity. Qed.

Lemma show_le (k : nat) (e : Expr) :
  (k <= levelOf e)%nat -> show k e = show 0 e.
Proof.
  intros H. rewrite show_body.
  destruct (Nat.ltb_spec (levelOf e) k); [lia | reflexivity].
Qed.

Lemma show_S (q : nat) (e : Expr) :
  levelOf e <> q -> show q e = show (S q) e.
Proof.
  intros H. rewrite (show_body q), (show_body (S q)).
  destruct (Nat.ltb_spec (levelOf e) q), (Nat.ltb_spec (levelOf e) (S q));
    trivial; lia.
Qed.

Lemma show0_Unary (op : str) (a : Expr) :
  show 0 (Unary op a)
  = if isOp op [go "'"] then show 5 a ++ [op] else op :: show 4 a.
Proof. reflexivity. Qed.

Lemma show0_Binary (op : str) (l r : Expr) :
  show 0 (Binary op l r)
  = if Nat.eqb (levelOf (Binary op l r)) 3 then show 4 l ++ op :: show 3 r
    else show (levelOf (Binary op l r)) l
         ++ op :: show (S (levelOf (Binary op l r))) r.
Proof. reflexivity. Qed.

Lemma suffixLoop_cons (glyphs : list str) (l0 : str) (rest : list str)
    (e : Expr) :
  suffixLoop glyphs (l0 :: rest) e
  = if isOp l0 glyphs then suffixLoop glyphs rest (Unary l0 e)
    else Returns (l0 :: rest, e, None).
Proof. reflexivity. Qed.

Lemma stops_ends (k : nat) (t : str) :
  stops k t = true -> endsApply PEMDAS t = true.
Proof. unfold stops. intros H. now apply andb_true_iff in H. Qed.

Lemma stops_passes (k : nat) (t : str) :
  stops k t = true -> passes (skipn k (Operators PEMDAS)) eof t = true.
Proof. unfold stops. intros H. now apply andb_true_iff in H. Qed.

Lemma stops_mono (k k' : nat) (t : str) :
  (k <= k')%nat -> stops k t = true -> stops k' t = true.
Proof.
  intros Hk H. unfold stops. rewrite (stops_ends k t H). cbn [andb].
  replace k' with ((k' - k) + k)%nat by lia. rewrite <- skipn_skipn.
  unfold passes. apply forallb_skipn. exact (stops_passes k t H).
Qed.

(** A token that stops at the level [k] is no operator of an infix or
    suffix level from [k] on. *)
Lemma stops_isOp (k q : nat) (opc : Prec) (t : str) :
  stops k t = true -> (k <= q)%nat ->
  nth_error (Operators PEMDAS) q = Some opc -> Type_ opc <> Prefix ->
  isOp t (Glyphs opc) = false.
Proof.
  intros H Hk Hn Ht. apply stops_passes in H. unfold passes in H.
  rewrite forallb_forall in H.
  assert (Hin : In opc (skipn k (Operators PEMDAS))).
  { apply (nth_error_In _ (q - k)). rewrite nth_error_skipn.
    now replace (k + (q - k))%nat with q by lia. }
  specialize (H opc Hin). destruct (Type_ opc); try congruence;
    now apply negb_true_iff in H.
Qed.

(** What the levels between two levels let through. *)
Lemma stops_between (k q : nat) (h t : str) :
  stops k t = true -> (k <= q)%nat ->
  ((4 < q)%nat -> isOp h [go "-"; go "+"] = false) ->
  passes (levelsBetween PEMDAS k q) h t = true.
Proof.
  intros H Hk Hh. apply stops_passes in H.
  assert (Hc : forallb (fun op => match Type_ op with
                                  | Prefix => negb (isOp h (Glyphs op))
                                  | _ => true
                                  end) (levelsBetween PEMDAS k q) = true).
  { destruct (Nat.lt_ge_cases 4 q) as [H4|H4].
    - unfold levelsBetween. apply forallb_firstn, forallb_skipn.
      cbn [forallb Operators PEMDAS Type_ Glyphs andb].
      now rewrite (Hh H4).
    - unfold levelsBetween.
      destruct q as [|[|[|[|[|q]]]]]; [| | | | |lia];
        destruct k as [|[|[|[|[|k]]]]]; try lia; reflexivity. }
  rewrite (passes_head _ h t Hc).
  unfold levelsBetween, passes. apply forallb_firstn. exact H.
Qed.

Lemma levelOf_le (e : Expr) : (levelOf e <= 6)%nat.
Proof.
  destruct e as [|x|f a|op a|op l r]; cbn [levelOf]; try lia.
  - destruct (isOp op _); lia.
  - repeat (destruct (isOp op _); try lia).
Qed.

Lemma levelOf_Binary (op : str) (l r : Expr) :
  (levelOf (Binary op l r) <= 3)%nat.
Proof. cbn [levelOf]. repeat (destruct (isOp op _); try lia). Qed.

(** An infix operator of the PEMDAS table: its level, and the token it is
    for the operand on its left. *)
Lemma infix_level (op : str) (l r : Expr) :
  isOp op infixGlyphs = true ->
  exists q opc,
    levelOf (Binary op l r) = q
    /\ nth_error (Operators PEMDAS) q = Some opc
    /\ isOp op (Glyphs opc) = true
    /\ stops (S q) op = true
    /\ (((q < 3)%nat /\ Type_ opc = InfixLeft)
        \/ (q = 3%nat /\ Type_ opc = InfixRight)).
Proof.
  intros H. apply isOp_In in H. unfold infixGlyphs in H. cbn [In] in H.
  destruct H as [<-|[<-|[<-|[<-|[<-|[<-|[<-|[]]]]]]]].
  - exists 0%nat, (mkPrec [go ","] InfixLeft).
    repeat split; try reflexivity. left. split; [lia|reflexivity].
  - exists 1%nat, (mkPrec [go "+"; go "-"] InfixLeft).
    repeat split; try reflexivity. left. split; [lia|reflexivity].
  - exists 1%nat, (mkPrec [go "+"; go "-"] InfixLeft).
    repeat split; try reflexivity. left. split; [lia|reflexivity].
  - exists 2%nat, (mkPrec [go "*"; go "/"; go "\"] InfixLeft).
    repeat split; try reflexivity. left. split; [lia|reflexivity].
  - exists 2%nat, (mkPrec [go "*"; go "/"; go "\"] InfixLeft).
    repeat split; try reflexivity. left. split; [lia|reflexivity].
  - exists 2%nat, (mkPrec [go "*"; go "/"; go "\"] InfixLeft).
    repeat split; try reflexivity. left. split; [lia|reflexivity].
  - exists 3%nat, (mkPrec [go "^"] InfixRight).
    repeat split; try reflexivity. right. split; reflexivity.
Qed.

Lemma infixLeft_levels (q : nat) (opc : Prec) :
  nth_error (Operators PEMDAS) q = Some opc -> Type_ opc = InfixLeft ->
  (q < 3)%nat.
Proof.
  intros Hn Ht.
  destruct q as [|[|[|[|[|[|q]]]]]]; try lia; cbn in Hn;
    try (injection Hn as <-; discriminate Ht).
  now destruct q.
Qed.

(** The first token of an operand of the suffix level is no prefix
    operator. *)
Lemma show_head (e : Expr) :
  opTree e = true ->
  forall k, exists h tl,
    show k e = h :: tl
    /\ ((5 <= k)%nat -> isOp h [go "-"; go "+"] = false).
Proof.
  induction e as [|x|f IHf a IHa|op a IHa|op l IHl r IHr];
    cbn [opTree]; intros He k; try discriminate;
    rewrite show_body;
    (destruct (Nat.ltb_spec (levelOf (Var x)) k) as [Hlt|Hge]
     || destruct (Nat.ltb_spec (levelOf (Unary op a)) k) as [Hlt|Hge]
     || destruct (Nat.ltb_spec (levelOf (Binary op l r)) k) as [Hlt|Hge]);
    try (eexists _, _; split; [reflexivity|intros _; reflexivity]).
  - exists x, []. split; [reflexivity|]. intros _.
    now apply isOp_var.
  - apply andb_true_iff in He as [Hop Ha]. rewrite show0_Unary.
    cbn [levelOf] in Hge. destruct (isOp op [go "'"]) eqn:Esuf.
    + destruct (IHa Ha 5%nat) as (h & tl & Eh & Hh). rewrite Eh.
      exists h, (tl ++ [op]). split; [reflexivity|]. intros _. apply Hh. lia.
    + exists op, (show 4 a). split; [reflexivity|]. intros H5. lia.
  - apply andb_true_iff in He as [He Hr].
    apply andb_true_iff in He as [Hop Hl].
    pose proof (levelOf_Binary op l r) as H3. rewrite show0_Binary.
    destruct (Nat.eqb _ 3).
    + destruct (IHl Hl 4%nat) as (h & tl & Eh & _). rewrite Eh.
      eexists _, _. split; [reflexivity|]. intros H5. lia.
    + destruct (IHl Hl (levelOf (Binary op l r))) as (h & tl & Eh & _).
      rewrite Eh. eexists _, _. split; [reflexivity|]. intros H5. lia.
Qed.

(** From the level of its root a tree goes to every level: down, through
    the levels that let it pass, and up, between parentheses. *)
Lemma show_lift (e : Expr) :
  opTree e = true ->
  (forall nt rest,
      stops (levelOf e) nt = true ->
      runExpr PEMDAS (levelOf e) (show 0 e ++ nt :: rest)
      = Returns (nt :: rest, e, None)) ->
  forall k, (k <= 6)%nat ->
  forall nt rest,
    stops k nt = true ->
    runExpr PEMDAS k (show k e ++ nt :: rest) = Returns (nt :: rest, e, None).
Proof.
  intros He Hown.
  assert (Hlow : forall k, (k <= levelOf e)%nat ->
            forall nt rest, stops k nt = true ->
              runExpr PEMDAS k (show 0 e ++ nt :: rest)
              = Returns (nt :: rest, e, None)).
  { intros k Hk nt rest Hs.
    destruct (show_head e He (levelOf e)) as (h & tl & Eh & Hh).
    rewrite show_le in Eh by lia.
    pose proof (Hown nt rest (stops_mono k _ nt Hk Hs)) as H.
    rewrite Eh in *. cbn [app] in *.
    apply (runExpr_climb PEMDAS h nt _ rest e (levelOf e))
      with (d := (levelOf e - k)%nat); [exact H | lia |].
    apply stops_between; [exact Hs | exact Hk |].
    intros H5. apply Hh. lia. }
  intros k Hk6 nt rest Hs. rewrite show_body.
  destruct (Nat.ltb_spec (levelOf e) k) as [Hlt|Hge].
  - cbn [app]. rewrite <- app_assoc. cbn [app].
    apply PEMDAS_operand; [| reflexivity | exact Hk6 |].
    + apply PEMDAS_paren. apply Hlow; [lia | reflexivity].
    + unfold levelsBetween, passes. apply forallb_firstn.
      exact (stops_passes k nt Hs).
  - now apply Hlow.
Qed.

(** What a left-infix level makes of an operand of the next level. *)
Lemma infixLeft_enters (e : Expr) (q : nat) (opc : Prec) :
  (forall nt rest,
      stops (S q) nt = true ->
      runExpr PEMDAS (S q) (show (S q) e ++ nt :: rest)
      = Returns (nt :: rest, e, None)) ->
  levelOf e <> q ->
  nth_error (Operators PEMDAS) q = Some opc -> Type_ opc = InfixLeft ->
  forall t toks,
    stops (S q) t = true ->
    runExpr PEMDAS q (show q e ++ t :: toks)
    = runInfixLeft PEMDAS q (Glyphs opc) (t :: toks) e None.
Proof.
  intros HP Hne Hn Ht t toks Hs.
  rewrite runExpr_unfold, Hn, Ht, (show_S q e Hne), (HP t toks Hs).
  reflexivity.
Qed.

(** What the suffix level makes of an atom. *)
Lemma suffix_enters (e : Expr) :
  (forall nt rest,
      stops 6 nt = true ->
      runExpr PEMDAS 6 (show 6 e ++ nt :: rest)
      = Returns (nt :: rest, e, None)) ->
  levelOf e <> 5%nat ->
  forall t toks,
    endsApply PEMDAS t = true ->
    runExpr PEMDAS 5 (show 5 e ++ t :: toks)
    = suffixLoop [go "'"] (t :: toks) e.
Proof.
  intros HP Hne t toks Hs.
  rewrite PEMDAS_level5, (show_S 5 e Hne), (HP t toks); [reflexivity|].
  unfold stops. now rewrite Hs.
Qed.

(** The parser reads the tokens of a tree of operators as the table asks:
    at every level, before every token that stops the level; and the loop
    of a left-infix level, like the loop of the suffix level, goes on from
    the tree with the tokens that follow. *)
Lemma show_parses (e : Expr) :
  opTree e = true ->
  (forall k, (k <= 6)%nat ->
   forall nt rest,
     stops k nt = true ->
     runExpr PEMDAS k (show k e ++ nt :: rest)
     = Returns (nt :: rest, e, None))
  /\ (forall q opc,
        nth_error (Operators PEMDAS) q = Some opc ->
        Type_ opc = InfixLeft ->
        forall t toks,
          stops (S q) t = true ->
          runExpr PEMDAS q (show q e ++ t :: toks)
          = runInfixLeft PEMDAS q (Glyphs opc) (t :: toks) e None)
  /\ (forall t toks,
        endsApply PEMDAS t = true ->
        runExpr PEMDAS 5 (show 5 e ++ t :: toks)
        = suffixLoop [go "'"] (t :: toks) e).
Proof.
  induction e as [|x|f IHf a IHa|op a IHa|op l IHl r IHr];
    intros He; try discriminate.
  - (* a variable *)
    assert (HP : forall k, (k <= 6)%nat ->
              forall nt rest, stops k nt = true ->
                runExpr PEMDAS k (show k (Var x) ++ nt :: rest)
                = Returns (nt :: rest, Var x, None)).
    { apply show_lift; [exact He|]. intros nt rest Hs.
      apply PEMDAS_var; [exact He | exact (stops_ends _ _ Hs) |].
      exact (stops_passes _ _ Hs). }
    split; [exact HP|]. split.
    + intros q opc Hn Ht.
      pose proof (infixLeft_levels q opc Hn Ht) as Hq.
      apply infixLeft_enters; trivial; [apply HP; lia | cbn; lia].
    + apply suffix_enters; [apply HP; lia | cbn; lia].
  - (* a prefix or the suffix operator *)
    pose proof He as Htree.
    cbn [opTree] in He. apply andb_true_iff in He as [Hop Ha].
    destruct (IHa Ha) as (Pa & La & Sa).
    destruct (isOp op [go "'"]) eqn:Esuf.
    + (* the suffix operator *)
      assert (Hlev : levelOf (Unary op a) = 5%nat)
        by (cbn [levelOf]; now rewrite Esuf).
      assert (Hshow : show 0 (Unary op a) = show 5 a ++ [op])
        by (rewrite show0_Unary; now rewrite Esuf).
      assert (Hends : endsApply PEMDAS op = true).
      { apply isOp_In in Esuf. destruct Esuf as [<-|[]]. reflexivity. }
      assert (HS : forall t toks, endsApply PEMDAS t = true ->
                runExpr PEMDAS 5 (show 5 (Unary op a) ++ t :: toks)
                = suffixLoop [go "'"] (t :: toks) (Unary op a)).
      { intros t toks Ht. rewrite show_le by lia.
        rewrite Hshow, <- app_assoc. cbn [app].
        rewrite (Sa op (t :: toks) Hends), suffixLoop_cons, Esuf.
        reflexivity. }
      assert (HP : forall k, (k <= 6)%nat ->
                forall nt rest, stops k nt = true ->
                  runExpr PEMDAS k (show k (Unary op a) ++ nt :: rest)
                  = Returns (nt :: rest, Unary op a, None)).
      { apply show_lift; [exact Htree|].
        rewrite Hlev. intros nt rest Hs.
        rewrite <- (show_le 5) by lia.
        rewrite (HS nt rest (stops_ends _ _ Hs)), suffixLoop_cons.
        assert (Hnt : isOp nt [go "'"] = false).
        { apply (stops_isOp 5 5 (mkPrec [go "'"] Suffix) nt Hs);
            [lia | reflexivity | discriminate]. }
        now rewrite Hnt. }
      split; [exact HP|]. split; [|exact HS].
      intros q opc Hn Ht.
      pose proof (infixLeft_levels q opc Hn Ht) as Hq.
      apply infixLeft_enters; trivial; [apply HP; lia | lia].
    + (* a prefix operator *)
      rewrite Bool.orb_false_r in Hop.
      assert (Hlev : levelOf (Unary op a) = 4%nat)
        by (cbn [levelOf]; now rewrite Esuf).
      assert (Hshow : show 0 (Unary op a) = op :: show 4 a)
        by (rewrite show0_Unary; now rewrite Esuf).
      assert (HP : forall k, (k <= 6)%nat ->
                forall nt rest, stops k nt = true ->
                  runExpr PEMDAS k (show k (Unary op a) ++ nt :: rest)
                  = Returns (nt :: rest, Unary op a, None)).
      { apply show_lift; [exact Htree|].
        rewrite Hlev, Hshow. intros nt rest Hs. cbn [app].
        rewrite PEMDAS_level4, Hop, (Pa 4%nat) by (trivial; lia).
        reflexivity. }
      split; [exact HP|]. split.
      * intros q opc Hn Ht.
        pose proof (infixLeft_levels q opc Hn Ht) as Hq.
        apply infixLeft_enters; trivial; [apply HP; lia | lia].
      * apply suffix_enters; [apply HP; lia | lia].
  - (* an infix operator *)
    cbn [opTree] in He. apply andb_true_iff in He as [He Hr].
    apply andb_true_iff in He as [Hop Hl].
    destruct (IHl Hl) as (Pl & Ll & Sl). destruct (IHr Hr) as (Pr & Lr & Sr).
    assert (Htree : opTree (Binary op l r) = true)
      by (cbn [opTree]; now rewrite Hop, Hl, Hr).
    destruct (infix_level op l r Hop)
      as (q & opc & Hq & Hn & Hg & Hstop & [[Hq3 Ht]|[-> Ht]]).
    + (* on a left-infix level *)
      assert (Hshow : show 0 (Binary op l r)
                      = show q l ++ op :: show (S q) r).
      { rewrite show0_Binary, Hq.
        destruct (Nat.eqb_spec q 3); [lia|reflexivity]. }
      assert (HL : forall t toks, stops (S q) t = true ->
                runExpr PEMDAS q (show q (Binary op l r) ++ t :: toks)
                = runInfixLeft PEMDAS q (Glyphs opc) (t :: toks)
                    (Binary op l r) None).
      { intros t toks Hs. rewrite show_le by lia.
        rewrite Hshow, <- app_assoc. cbn [app].
        rewrite (Ll q opc Hn Ht op _ Hstop).
        rewrite runInfixLeft_unfold, Hg, (Pr (S q)) by (trivial; lia).
        reflexivity. }
      assert (HP : forall k, (k <= 6)%nat ->
                forall nt rest, stops k nt = true ->
                  runExpr PEMDAS k (show k (Binary op l r) ++ nt :: rest)
                  = Returns (nt :: rest, Binary op l r, None)).
      { apply show_lift; [exact Htree|].
        rewrite Hq. intros nt rest Hs.
        rewrite <- (show_le q) by lia.
        rewrite (HL nt rest (stops_mono q (S q) nt (Nat.le_succ_diag_r q) Hs)).
        rewrite runInfixLeft_unfold.
        rewrite (stops_isOp q q opc nt Hs (Nat.le_refl q) Hn); [reflexivity|].
        congruence. }
      split; [exact HP|]. split.
      * intros q' opc' Hn' Ht'.
        destruct (Nat.eq_dec q' q) as [->|Hne].
        -- rewrite Hn in Hn'. injection Hn' as <-. exact HL.
        -- pose proof (infixLeft_levels q' opc' Hn' Ht') as Hq'.
           apply infixLeft_enters; trivial; [apply HP; lia | lia].
      * apply suffix_enters; [apply HP; lia | lia].
    + (* on the right-infix level *)
      assert (Hshow : show 0 (Binary op l r) = show 4 l ++ op :: show 3 r)
        by (rewrite show0_Binary, Hq; reflexivity).
      assert (HP : forall k, (k <= 6)%nat ->
                forall nt rest, stops k nt = true ->
                  runExpr PEMDAS k (show k (Binary op l r) ++ nt :: rest)
                  = Returns (nt :: rest, Binary op l r, None)).
      { apply show_lift; [exact Htree|].
        rewrite Hq, Hshow. intros nt rest Hs.
        rewrite <- app_assoc. cbn [app].
        apply (infixRight_once PEMDAS 3 opc _ (show 3 r ++ nt :: rest)
                 rest op nt l r Hn Ht); [| exact Hg |].
        - apply Pl; [lia | exact Hstop].
        - apply Pr; [lia | exact Hs]. }
      split; [exact HP|]. split.
      * intros q' opc' Hn' Ht'.
        pose proof (infixLeft_levels q' opc' Hn' Ht') as Hq'.
        apply infixLeft_enters; trivial; [apply HP; lia | lia].
      * apply suffix_enters; [apply HP; lia | lia].
Qed.

(** The tokenizer gives back tokens that one blank keeps apart. *)
Lemma tokensOf_spaced (toks : list str) :
  forallb oneToken toks = true -> toks <> [] ->
  tokensOf (spaced toks) = toks ++ [eof].
Proof.
  induction toks as [|x tl IH]; intros Hall Hne; [now elim Hne|].
  cbn [forallb] in Hall. apply andb_true_iff in Hall as [Hx Htl].
  destruct tl as [|y tl].
  - cbn [spaced app]. pose proof (tokensOf_token x [] Hx I) as H.
    now rewrite app_nil_r in H.
  - change (spaced (x :: y :: tl)) with (x ++ 32 :: spaced (y :: tl)).
    rewrite toks_word; [|exact Hx|now left].
    cbn [app]. f_equal.
    transitivity (tokensOf (spaced (y :: tl)));
      [|apply (IH Htl); discriminate].
    cbn [forallb] in Htl. apply andb_true_iff in Htl as [Hy _].
    destruct tl as [|z tl].
    + cbn [spaced]. pose proof (toks_blank y [] (oneToken_starts y Hy)) as H.
      now rewrite app_nil_r in H.
    + change (spaced (y :: z :: tl)) with (y ++ 32 :: spaced (z :: tl)).
      apply toks_blank. now apply oneToken_starts.
Qed.

Lemma show_oneToken (e : Expr) :
  opTree e = true -> forallb oneToken (names e) = true ->
  forall k, forallb oneToken (show k e) = true.
Proof.
  assert (Hpar : forall (k : nat) (e : Expr),
             forallb oneToken (show 0 e) = true ->
             forallb oneToken (show k e) = true).
  { intros k e0 H. rewrite show_body. destruct (Nat.ltb _ k); [|exact H].
    cbn [forallb]. rewrite forallb_app, H. reflexivity. }
  induction e as [|x|f IHf a IHa|op a IHa|op l IHl r IHr];
    cbn [opTree names]; intros He Hn k; try discriminate; apply Hpar.
  - exact Hn.
  - cbn [forallb] in Hn. apply andb_true_iff in Hn as [Hop Hn].
    apply andb_true_iff in He as [_ Ha].
    rewrite show0_Unary. destruct (isOp op [go "'"]).
    + rewrite forallb_app, (IHa Ha Hn). cbn [forallb]. now rewrite Hop.
    + cbn [forallb]. now rewrite Hop, (IHa Ha Hn).
  - cbn [forallb] in Hn. apply andb_true_iff in Hn as [Hop Hn].
    rewrite forallb_app in Hn. apply andb_true_iff in Hn as [Hnl Hnr].
    apply andb_true_iff in He as [He Hr].
    apply andb_true_iff in He as [_ Hl].
    rewrite show0_Binary. destruct (Nat.eqb _ 3);
      rewrite forallb_app; cbn [forallb];
      now rewrite (IHl Hl Hnl), Hop, (IHr Hr Hnr).
Qed.

(** The whole of the tokens of a tree, the marker after them. *)
Lemma show_round_trip (e : Expr) :
  opTree e = true ->
  runExpr PEMDAS 0 (show 0 e ++ [eof]) = Returns ([eof], e, None).
Proof.
  intros He. destruct (show_parses e He) as (HP & _).
  apply (HP 0%nat); [lia | reflexivity].
Qed.

(** The text of the tokens of a tree. *)
Lemma show_ParseExpr (e : Expr) :
  opTree e = true -> forallb oneToken (names e) = true ->
  tokensOf (spaced (show 0 e)) = show 0 e ++ [eof]
  /\ ParseExpr PEMDAS (spaced (show 0 e)) = Returns (e, None).
Proof.
  intros He Hn.
  assert (Htok : tokensOf (spaced (show 0 e)) = show 0 e ++ [eof]).
  { apply tokensOf_spaced; [now apply show_oneToken|].
    destruct (show_head e He 0%nat) as (h & tl & -> & _). discriminate. }
  split; [exact Htok|].
  rewrite (tokensOf_ParseExpr PEMDAS _ _ Htok), (show_round_trip e He).
  reflexivity.
Qed.

Lemma prefix_not_suffix (op : str) :
  isOp op [go "-"; go "+"] = true -> isOp op [go "'"] = false.
Proof.
  intros H. apply isOp_In in H. destruct H as [<-|[<-|[]]]; reflexivity.
Qed.

Lemma show_suffixed (x : str) (n k : nat) :
  (k <= 5)%nat ->
  show k (suffixed (go "'") n (Var x)) = x :: repeat (go "'") n.
Proof.
  revert k. induction n as [|n IH]; intros k Hk.
  - cbn [suffixed Nat.iter repeat]. rewrite show_le by (cbn; lia).
    reflexivity.
  - change (suffixed (go "'") (S n) (Var x))
      with (Unary (go "'") (suffixed (go "'") n (Var x))).
    rewrite show_le by (cbn; lia). rewrite show0_Unary.
    change (isOp (go "'") [go "'"]) with true. cbv iota.
    rewrite IH by lia. cbn [app]. f_equal.
    symmetry. apply repeat_cons.
Qed.

Lemma show_prefixed (ops : list str) (x : str) (n k : nat) :
  forallb (fun o => isOp o [go "-"; go "+"]) ops = true ->
  (k <= 4)%nat ->
  show k (prefixed ops (suffixed (go "'") n (Var x)))
  = ops ++ x :: repeat (go "'") n.
Proof.
  intros Hops. revert k. induction ops as [|o ops IH]; intros k Hk.
  - cbn [prefixed fold_right app]. apply show_suffixed. lia.
  - cbn [forallb] in Hops. apply andb_true_iff in Hops as [Ho Hops].
    change (prefixed (o :: ops) (suffixed (go "'") n (Var x)))
      with (Unary o (prefixed ops (suffixed (go "'") n (Var x)))).
    pose proof (prefix_not_suffix o Ho) as Hs.
    rewrite show_le by (cbn [levelOf]; rewrite Hs; lia).
    rewrite show0_Unary, Hs, (IH Hops) by lia. reflexivity.
Qed.

Lemma opTree_prefixed (ops : list str) (x : str) (n : nat) :
  forallb (fun o => isOp o [go "-"; go "+"]) ops = true ->
  isVar x = true ->
  opTree (prefixed ops (suffixed (go "'") n (Var x))) = true.
Proof.
  intros Hops Hx. induction ops as [|o ops IH].
  - cbn [prefixed fold_right]. induction n as [|n IHn]; [exact Hx|].
    change (suffixed (go "'") (S n) (Var x))
      with (Unary (go "'") (suffixed (go "'") n (Var x))).
    cbn [opTree]. now rewrite IHn, Bool.orb_true_r.
  - cbn [forallb] in Hops. apply andb_true_iff in Hops as [Ho Hops].
    change (prefixed (o :: ops) (suffixed (go "'") n (Var x)))
      with (Unary o (prefixed ops (suffixed (go "'") n (Var x)))).
    cbn [opTree]. now rewrite Ho, (IH Hops).
Qed.

(** Two operands, each a variable under a run of prefix operators and
    before a run of suffix operators, on the two sides of an infix
    operator. *)
Lemma infix_between (o : str) (ops1 ops2 : list str) (x y : str)
    (n m : nat) :
  isOp o infixGlyphs = true ->
  forallb (fun g => isOp g [go "-"; go "+"]) ops1 = true ->
  forallb (fun g => isOp g [go "-"; go "+"]) ops2 = true ->
  isVar x = true -> isVar y = true ->
  runExpr PEMDAS 0
    (ops1 ++ x :: repeat (go "'") n
     ++ o :: ops2 ++ y :: repeat (go "'") m ++ [eof])
  = Returns ([eof],
             Binary o (prefixed ops1 (suffixed (go "'") n (Var x)))
                      (prefixed ops2 (suffixed (go "'") m (Var y))),
             None).
Proof.
  intros Ho H1 H2 Hx Hy.
  set (l := prefixed ops1 (suffixed (go "'") n (Var x))).
  set (r := prefixed ops2 (suffixed (go "'") m (Var y))).
  assert (He : opTree (Binary o l r) = true).
  { cbn [opTree]. unfold l, r.
    now rewrite Ho, !opTree_prefixed. }
  pose proof (show_round_trip (Binary o l r) He) as H.
  rewrite show0_Binary in H.
  pose proof (levelOf_Binary o l r) as H3.
  assert (E : show 0 (Binary o l r) ++ [eof]
              = ops1 ++ x :: repeat (go "'") n
                ++ o :: ops2 ++ y :: repeat (go "'") m ++ [eof]).
  { rewrite show0_Binary. unfold l, r in *.
    destruct (Nat.eqb _ 3); rewrite !show_prefixed by (trivial; lia);
      rewrite <- !app_assoc; cbn [app]; rewrite <- !app_assoc;
      reflexivity. }
  rewrite show0_Binary in E. rewrite <- E. exact H.
Qed.

(** The operators of a left-infix level are at that level in a tree. *)
Lemma levelOf_infixLeft (q : nat) (opc : Prec) (op : str) (l r : Expr) :
  nth_error (Operators PEMDAS) q = Some opc -> Type_ opc = InfixLeft ->
  isOp op (Glyphs opc) = true ->
  levelOf (Binary op l r) = q /\ isOp op infixGlyphs = true.
Proof.
  intros Hn Ht Hop. pose proof (infixLeft_levels q opc Hn Ht) as Hq.
  destruct q as [|[|[|q]]]; try lia; cbn in Hn; injection Hn as <-;
    apply isOp_In in Hop; cbn [Glyphs In] in Hop;
    repeat (destruct Hop as [<-|Hop]; [split; reflexivity|]);
    now elim Hop.
Qed.

(** The tokens of a chain of variables under operators of one left-infix
    level. *)
Lemma show_leftChain (q : nat) (opc : Prec) (x0 : str)
    (items : list (str * str)) :
  nth_error (Operators PEMDAS) q = Some opc -> Type_ opc = InfixLeft ->
  isVar x0 = true ->
  forallb (fun ox => isOp (fst ox) (Glyphs opc) && isVar (snd ox)) items
  = true ->
  opTree (leftChain (Var x0) items) = true
  /\ show q (leftChain (Var x0) items) = x0 :: chainTokens items
  /\ show 0 (leftChain (Var x0) items) = x0 :: chainTokens items.
Proof.
  intros Hn Ht Hx. pose proof (infixLeft_levels q opc Hn Ht) as Hq.
  induction items as [|[op y] items IH] using rev_ind; intros Hall.
  - cbn [leftChain fold_left chainTokens flat_map].
    split; [exact Hx|]. split; [|reflexivity].
    rewrite show_le by (cbn; lia). reflexivity.
  - rewrite forallb_app in Hall. apply andb_true_iff in Hall as [Hall Hlast].
    cbn [forallb fst snd] in Hlast. rewrite Bool.andb_true_r in Hlast.
    apply andb_true_iff in Hlast as [Hop Hy].
    destruct (IH Hall) as (Htree & Hshow & _).
    unfold leftChain in *. rewrite fold_left_app. cbn [fold_left fst snd].
    set (L := fold_left _ items (Var x0)) in *.
    destruct (levelOf_infixLeft q opc op L (Var y) Hn Ht Hop) as (Hlev & Hin).
    assert (H0 : show 0 (Binary op L (Var y)) = x0 :: chainTokens (items ++ [(op, y)])).
    { rewrite show0_Binary, Hlev.
      destruct (Nat.eqb_spec q 3); [lia|].
      rewrite Hshow, (show_le (S q)) by (cbn; lia).
      unfold chainTokens. rewrite flat_map_app. cbn [flat_map fst snd app].
      reflexivity. }
    split; [cbn [opTree]; now rewrite Hin, Htree, Hy|].
    split; [|exact H0].
    rewrite show_le by lia. exact H0.
Qed.

(** Trees of operators whose tokens are the same are the same. *)
Lemma show_injective (e e' : Expr) :
  opTree e = true -> opTree e' = true -> show 0 e = show 0 e' -> e = e'.
Proof.
  intros He He' Hs.
  pose proof (show_round_trip e He) as H.
  pose proof (show_round_trip e' He') as H'.
  rewrite Hs in H. rewrite H in H'. now injection H'.
Qed.

Lemma infix_stops (o : str) :
  isOp o infixGlyphs = true -> stops 4 o = true /\ stops 5 o = true.
Proof.
  intros H. apply isOp_In in H. unfold infixGlyphs in H. cbn [In] in H.
  destruct H as [<-|[<-|[<-|[<-|[<-|[<-|[<-|[]]]]]]]]; split; reflexivity.
Qed.

(* ================================================================== *)
(** ** The table: precedence, associativity, prefix and suffix *)

(** C1: with the PEMDAS grammar [parseExpr] reads the operators as the
    ordered table asks, at every depth.  The four sources of the claim,
    and, where a power meets a sum or a product, four more; every chain of
    variables joined by [+] and [-], or by [^]; and for every tree [e] of
    variables and of operators of the table, the tokens [show 0 e] of the
    tree, which have the parentheses that the table makes necessary and no
    other (around a node of a lower level than its place asks for: the
    right operand of a left-infix operator and the left operand of the
    right-infix one are asked one level above the operator, the other
    operand at the level of the operator), parse to [e], from [parseExpr]
    at the lowest level and, as a text, from [ParseExpr]: the product
    under the sum, the power under the product, an operand of the level of
    its left-infix operator on the left of it and nowhere else, and of the
    level of [^] on the right of it and nowhere else.  The same holds from
    every level [k] with the tokens [show k e], before every token that
    ends the level; a chain of variables under operators of one
    left-infix level, whichever, leans left; trees whose tokens are the
    same are the same; and the level of a node is the place of its
    operator in the table, the right-infix one the level 3. *)
Theorem PEMDAS_precedence_associativity (x0 : str) (items : list (str * str))
    (xs : list str) (e : Expr) (k : nat) (nt : str) (rest : list str)
    (o : str) (l r : Expr) :
  ParseExpr PEMDAS (go "a+b*c")
  = Returns (Binary (go "+") (Var (go "a"))
               (Binary (go "*") (Var (go "b")) (Var (go "c"))), None)
  /\ ParseExpr PEMDAS (go "a*b+c")
     = Returns (Binary (go "+")
                  (Binary (go "*") (Var (go "a")) (Var (go "b")))
                  (Var (go "c")), None)
  /\ ParseExpr PEMDAS (go "a+b+c+d")
     = Returns (Binary (go "+")
                  (Binary (go "+")
                     (Binary (go "+") (Var (go "a")) (Var (go "b")))
                     (Var (go "c")))
                  (Var (go "d")), None)
  /\ ParseExpr PEMDAS (go "a^b^c^d")
     = Returns (Binary (go "^") (Var (go "a"))
                  (Binary (go "^") (Var (go "b"))
                     (Binary (go "^") (Var (go "c")) (Var (go "d")))), None)
  /\ (isVar x0 = true ->
      forallb (fun ox => isOp (fst ox) [go "+"; go "-"] && isVar (snd ox))
              items = true ->
      runExpr PEMDAS 0 (x0 :: chainTokens items ++ [eof])
      = Returns ([eof], leftChain (Var x0) items, None))
  /\ (isVar x0 = true -> forallb isVar xs = true ->
      runExpr PEMDAS 0 (x0 :: flat_map (fun x => [go "^"; x]) xs ++ [eof])
      = Returns ([eof], rightChain (go "^") x0 xs, None))
  /\ (opTree e = true ->
      runExpr PEMDAS 0 (show 0 e ++ [eof]) = Returns ([eof], e, None))
  /\ (opTree e = true -> forallb oneToken (names e) = true ->
      tokensOf (spaced (show 0 e)) = show 0 e ++ [eof]
      /\ ParseExpr PEMDAS (spaced (show 0 e)) = Returns (e, None))
  /\ (opTree e = true -> (k <= 6)%nat -> stops k nt = true ->
      runExpr PEMDAS k (show k e ++ nt :: rest)
      = Returns (nt :: rest, e, None))
  /\ (forall q opc,
        nth_error (Operators PEMDAS) q = Some opc ->
        Type_ opc = InfixLeft ->
        isVar x0 = true ->
        forallb (fun ox => isOp (fst ox) (Glyphs opc) && isVar (snd ox))
                items = true ->
        runExpr PEMDAS 0 (x0 :: chainTokens items ++ [eof])
        = Returns ([eof], leftChain (Var x0) items, None))
  /\ (forall e', opTree e = true -> opTree e' = true ->
                 show 0 e = show 0 e' -> e = e')
  /\ (isOp o infixGlyphs = true ->
      exists opc,
        nth_error (Operators PEMDAS) (levelOf (Binary o l r)) = Some opc
        /\ isOp o (Glyphs opc) = true
        /\ ((Type_ opc = InfixLeft /\ levelOf (Binary o l r) <> 3%nat)
            \/ (Type_ opc = InfixRight
                /\ levelOf (Binary o l r) = 3%nat)))
  /\ show 0 (Binary (go "+") (Binary (go "^") (Var (go "a")) (Var (go "b")))
                    (Var (go "c")))
     = [go "a"; go "^"; go "b"; go "+"; go "c"]
  /\ show 0 (Binary (go "^") (Var (go "a"))
                    (Binary (go "+") (Var (go "b")) (Var (go "c"))))
     = [go "a"; go "^"; go "("; go "b"; go "+"; go "c"; go ")"]
  /\ show 0 (Binary (go "-") (Var (go "a"))
                    (Binary (go "-") (Var (go "b")) (Var (go "c"))))
     = [go "a"; go "-"; go "("; go "b"; go "-"; go "c"; go ")"]
  /\ show 0 (Binary (go "^")
                    (Binary (go "^") (Var (go "a")) (Var (go "b")))
                    (Var (go "c")))
     = [go "("; go "a"; go "^"; go "b"; go ")"; go "^"; go "c"]
  /\ ParseExpr PEMDAS (go "a^b+c")
     = Returns (Binary (go "+")
                  (Binary (go "^") (Var (go "a")) (Var (go "b")))
                  (Var (go "c")), None)
  /\ ParseExpr PEMDAS (go "a+b^c")
     = Returns (Binary (go "+") (Var (go "a"))
                  (Binary (go "^") (Var (go "b")) (Var (go "c"))), None)
  /\ ParseExpr PEMDAS (go "a^b*c")
     = Returns (Binary (go "*")
                  (Binary (go "^") (Var (go "a")) (Var (go "b")))
                  (Var (go "c")), None)
  /\ ParseExpr PEMDAS (go "a/b*c,d-e")
     = Returns (Binary (go ",")
                  (Binary (go "*")
                     (Binary (go "/") (Var (go "a")) (Var (go "b")))
                     (Var (go "c")))
                  (Binary (go "-") (Var (go "d")) (Var (go "e"))), None).
Proof.
  split; [vm_compute; reflexivity|].
  split; [vm_compute; reflexivity|].
  split; [vm_compute; reflexivity|].
  split; [vm_compute; reflexivity|].
  split; [apply PEMDAS_left_chain|].
  split; [apply PEMDAS_right_chain|].
  split; [apply show_round_trip|].
  split; [apply show_ParseExpr|].
  split.
  { intros He Hk Hnt. destruct (show_parses e He) as (HP & _).
    now apply HP. }
  split.
  { intros q opc Hn Ht Hx Hall.
    destruct (show_leftChain q opc x0 items Hn Ht Hx Hall)
      as (Htree & _ & Hshow).
    pose proof (show_round_trip _ Htree) as H.
    now rewrite Hshow in H. }
  split; [intros e'; apply show_injective|].
  split.
  { intros Ho.
    destruct (infix_level o l r Ho)
      as (q & opc & Hq & Hn & Hg & _ & [[Hq3 Ht]|[Hq3 Ht]]);
      exists opc; rewrite Hq; repeat split; trivial;
      [left | right]; split; trivial; lia. }
  repeat (split; [vm_compute; reflexivity|]).
  vm_compute; reflexivity.
Qed.

(** C4: with the PEMDAS grammar the prefix operators nest to the right, the
    transposition wraps its operand from left to right, and it binds
    tighter than every other operator.  The three sources of the claim,
    and four more where an infix operator stands beside a prefix or a
    suffix operator; every run of prefix operators before a variable that
    any number of transpositions follow; two such operands on the two
    sides of any infix operator of the table, which are its operands as
    they stand; and for every tree [a] of variables and of operators of
    the table: a prefix operator before the tokens [show 4 a] of [a] makes
    the node of the operator over [a], read from the level of the prefix
    operators itself, so that [a] may start with a prefix operator, and
    up to a token that ends this level, as every infix operator does; and
    the suffix operator after the tokens [show 5 a], where whatever is not
    a variable or a transposed operand stands between parentheses, makes
    the node of the operator over [a], up to a token that ends the suffix
    level, as every infix operator does. *)
Theorem PEMDAS_prefix_suffix (ops : list str) (x : str) (n : nat)
    (ops2 : list str) (y : str) (m : nat) (o g nt : str) (rest : list str)
    (a : Expr) :
  ParseExpr PEMDAS (go "a++++b")
  = Returns (Binary (go "+") (Var (go "a"))
               (Unary (go "+") (Unary (go "+") (Unary (go "+")
                  (Var (go "b"))))), None)
  /\ ParseExpr PEMDAS (go "a''")
     = Returns (Unary (go "'") (Unary (go "'") (Var (go "a"))), None)
  /\ ParseExpr PEMDAS (go "-b'")
     = Returns (Unary (go "-") (Unary (go "'") (Var (go "b"))), None)
  /\ (forallb (fun o => isOp o [go "-"; go "+"]) ops = true ->
      isVar x = true ->
      runExpr PEMDAS 0 (ops ++ x :: repeat (go "'") n ++ [eof])
      = Returns ([eof],
                 fold_right Unary (Nat.iter n (Unary (go "'")) (Var x)) ops,
                 None))
  /\ (isOp o infixGlyphs = true ->
      forallb (fun g => isOp g [go "-"; go "+"]) ops = true ->
      forallb (fun g => isOp g [go "-"; go "+"]) ops2 = true ->
      isVar x = true -> isVar y = true ->
      runExpr PEMDAS 0
        (ops ++ x :: repeat (go "'") n
         ++ o :: ops2 ++ y :: repeat (go "'") m ++ [eof])
      = Returns ([eof],
                 Binary o (prefixed ops (suffixed (go "'") n (Var x)))
                          (prefixed ops2 (suffixed (go "'") m (Var y))),
                 None))
  /\ (opTree a = true -> isOp g [go "-"; go "+"] = true ->
      stops 4 nt = true ->
      runExpr PEMDAS 4 (g :: show 4 a ++ nt :: rest)
      = Returns (nt :: rest, Unary g a, None))
  /\ (opTree a = true -> stops 5 nt = true ->
      runExpr PEMDAS 5 (show 5 a ++ go "'" :: nt :: rest)
      = Returns (nt :: rest, Unary (go "'") a, None))
  /\ (isOp o infixGlyphs = true -> stops 4 o = true /\ stops 5 o = true)
  /\ stops 4 eof = true /\ stops 4 (go ")") = true
  /\ show 4 (Unary (go "-") (Unary (go "'") (Var (go "a"))))
     = [go "-"; go "a"; go "'"]
  /\ show 5 (Unary (go "-") (Var (go "a")))
     = [go "("; go "-"; go "a"; go ")"]
  /\ show 4 (Binary (go "+") (Var (go "a")) (Var (go "b")))
     = [go "("; go "a"; go "+"; go "b"; go ")"]
  /\ ParseExpr PEMDAS (go "-a+b")
     = Returns (Binary (go "+") (Unary (go "-") (Var (go "a")))
                  (Var (go "b")), None)
  /\ ParseExpr PEMDAS (go "-a^b")
     = Returns (Binary (go "^") (Unary (go "-") (Var (go "a")))
                  (Var (go "b")), None)
  /\ ParseExpr PEMDAS (go "a^b'")
     = Returns (Binary (go "^") (Var (go "a"))
                  (Unary (go "'") (Var (go "b"))), None)
  /\ ParseExpr PEMDAS (go "-a'*-b'")
     = Returns (Binary (go "*")
                  (Unary (go "-") (Unary (go "'") (Var (go "a"))))
                  (Unary (go "-") (Unary (go "'") (Var (go "b")))), None).
Proof.
  split; [vm_compute; reflexivity|].
  split; [vm_compute; reflexivity|].
  split; [vm_compute; reflexivity|].
  split.
  { intros Hops Hx.
    pose proof (PEMDAS_prefix_level x n ops Hops Hx) as H.
    destruct ops as [|o' ops'].
    - apply (runExpr_climb PEMDAS x eof _ [] _ 4) with (d := 4%nat);
        [exact H | reflexivity | reflexivity].
    - apply (runExpr_climb PEMDAS o' eof _ [] _ 4) with (d := 4%nat);
        [exact H | reflexivity | reflexivity]. }
  split; [apply infix_between|].
  split.
  { intros Ha Hg Hnt.
    assert (He : opTree (Unary g a) = true)
      by (cbn [opTree]; now rewrite Hg, Ha).
    destruct (show_parses (Unary g a) He) as (HP & _).
    pose proof (HP 4%nat ltac:(lia) nt rest Hnt) as H.
    pose proof (prefix_not_suffix g Hg) as Hs.
    rewrite show_le in H by (cbn [levelOf]; rewrite Hs; lia).
    rewrite show0_Unary, Hs in H. exact H. }
  split.
  { intros Ha Hnt.
    assert (He : opTree (Unary (go "'") a) = true)
      by (cbn [opTree]; now rewrite Ha).
    destruct (show_parses (Unary (go "'") a) He) as (HP & _).
    pose proof (HP 5%nat ltac:(lia) nt rest Hnt) as H.
    rewrite show_le in H by (cbn; lia).
    rewrite show0_Unary in H.
    change (isOp (go "'") [go "'"]) with true in H. cbv iota in H.
    rewrite <- app_assoc in H. exact H. }
  split; [apply infix_stops|].
  repeat (split; [vm_compute; reflexivity|]).
  vm_compute; reflexivity.
Qed.

(* ================================================================== *)
(** ** The variables of a tree *)

Lemma existsb_str_In (vars : list str) (x : str) :
  existsb (fun v => str_eqb v x) vars = true <-> In x vars.
Proof.
  rewrite existsb_exists. split.
  - intros [v [Hin Hv]]. apply str_eqb_eq in Hv. now subst.
  - intros Hin. exists x. split; [trivial | apply str_eqb_refl].
Qed.

Lemma fold_addName (names0 : list str) :
  forall vars,
    fold_left addName names0 vars = vars ++ firstUse vars names0.
Proof.
  induction names0 as [|x tl IH]; intros vars; cbn [fold_left firstUse].
  - now rewrite app_nil_r.
  - rewrite IH. unfold addName.
    destruct (existsb (fun v => str_eqb v x) vars); [reflexivity|].
    now rewrite <- app_assoc.
Qed.

Lemma firstUse_spec (l : list str) :
  forall seen,
    (forall y, In y (firstUse seen l) <-> In y l /\ ~ In y seen)
    /\ (NoDup seen -> NoDup (seen ++ firstUse seen l)).
Proof.
  induction l as [|x tl IH]; intros seen; cbn [firstUse].
  - split; [intros y; cbn; tauto | now rewrite app_nil_r].
  - destruct (existsb (fun v => str_eqb v x) seen) eqn:E.
    + apply existsb_str_In in E. destruct (IH seen) as [IH1 IH2].
      split; [|exact IH2].
      intros y. rewrite IH1. cbn [In]. split; [tauto|].
      intros [[<-|H] Hn]; [contradiction | tauto].
    + assert (Hx : ~ In x seen).
      { intros H. apply existsb_str_In in H. congruence. }
      destruct (IH (seen ++ [x])) as [IH1 IH2]. split.
      * intros y. cbn [In]. rewrite IH1, in_app_iff. cbn [In].
        split.
        -- intros [<-|[H Hn]]; [tauto|]. split; [tauto|]. tauto.
        -- intros [[<-|H] Hn]; [now left|].
           destruct (list_eq_dec Z.eq_dec x y) as [<-|Hne]; [now left|].
           right. split; [trivial|]. intros [H'|[H'|[]]]; tauto.
      * intros Hnd.
        change (x :: firstUse (seen ++ [x]) tl)
          with ([x] ++ firstUse (seen ++ [x]) tl).
        rewrite app_assoc. apply IH2.
        apply NoDup_app; [exact Hnd | constructor; [cbn; tauto | constructor] |].
        intros y Hy [<-|[]]. contradiction.
Qed.

Lemma addVars_fold (e : Expr) :
  forall vars,
    addVars e vars
    = if hasNil e then Panics
      else Returns (fold_left addName (varNames e) vars).
Proof.
  induction e as [|x|f IHf a IHa|op a IHa|op l IHl r IHr]; intros vars;
    cbn [addVars hasNil varNames fold_left]; trivial.
  - unfold addName. now destruct (existsb _ vars).
  - rewrite IHf. destruct (hasNil f); [reflexivity|]. cbn [bind orb].
    rewrite IHa, fold_left_app. reflexivity.
  - rewrite IHl. destruct (hasNil l); [reflexivity|]. cbn [bind orb].
    rewrite IHr, fold_left_app. reflexivity.
Qed.

(** X15: [addVars] lists the variables in the order of their first use.
    On a tree with no nil in it, it returns the list it was given, as it
    was, followed by the names of the variables of the tree that are not in
    it, each once, in the order in which the tree, read from left to right,
    first uses them; a list without repeats stays without repeats. *)
Theorem addVars_first_use (e : Expr) (vars : list str) :
  hasNil e = false ->
  addVars e vars = Returns (vars ++ firstUse vars (varNames e))
  /\ (forall y, In y (firstUse vars (varNames e))
                <-> In y (varNames e) /\ ~ In y vars)
  /\ (NoDup vars -> NoDup (vars ++ firstUse vars (varNames e))).
Proof.
  intros Hnil. rewrite addVars_fold, Hnil, fold_addName.
  split; [reflexivity | apply firstUse_spec].
Qed.

(** X16: [addVars] panics on the trees that have a nil operand in them and
    on no other; such a tree is what [Parse] returns, with no error, for
    [x=*a], so that the variable pass of [Eval] panics on this source. *)
Theorem addVars_panics_on_nil (e : Expr) (vars : list str) :
  (addVars e vars = Panics <-> hasNil e = true)
  /\ Parse PEMDAS (go "x=*a")
     = Returns (Some (mkEquation (Var (go "x"))
                        (Binary (go "*") nilExpr (Var (go "a")))), None)
  /\ addVarsEquation
       (mkEquation (Var (go "x")) (Binary (go "*") nilExpr (Var (go "a"))))
       []
     = Panics.
Proof.
  split; [|split; vm_compute; reflexivity].
  rewrite addVars_fold. destruct (hasNil e); split; trivial; discriminate.
Qed.

(** X17: for an equation with a variable on the left, [addVars] from the
    empty list returns that variable first and once, then the other
    variables of the right side, each once: a right side that uses the
    left variable gives it no second place. *)
Theorem addVars_equation (y : str) (r : Expr) (vars' : list str) :
  addVarsEquation (mkEquation (Var y) r) [] = Returns vars' ->
  hasNil r = false
  /\ vars' = y :: firstUse [y] (varNames r)
  /\ NoDup vars'
  /\ (forall x, In x (firstUse [y] (varNames r))
                <-> In x (varNames r) /\ x <> y).
Proof.
  cbn [addVarsEquation addVars existsb bind app].
  rewrite addVars_fold. destruct (hasNil r); [discriminate|].
  rewrite fold_addName. cbn [app]. intros H. injection H as <-.
  destruct (firstUse_spec (varNames r) [y]) as [H1 H2].
  split; [reflexivity|]. split; [reflexivity|]. split.
  - apply (H2 (NoDup_cons y (@in_nil _ y) (NoDup_nil _))).
  - intros x. rewrite H1. cbn [In]. split.
    + intros [Hin Hn]. split; [trivial|]. intros ->. tauto.
    + intros [Hin Hn]. split; [trivial|]. intros [<-|[]]. tauto.
Qed.

(* ================================================================== *)
(** ** eval.go: the matrices *)

Section MatricesFacts.

Variable K : Floats.
Local Open Scope nat_scope.

Lemma index_nth {A} (l : list A) (i : nat) (d : A) :
  i < length l -> index l i = Returns (nth i l d).
Proof.
  intros H. unfold index.
  destruct (nth_error l i) eqn:E.
  - now rewrite (nth_error_nth _ _ d E).
  - apply nth_error_None in E. lia.
Qed.

Lemma index_out {A} (l : list A) (i : nat) :
  length l <= i -> index l i = Panics.
Proof.
  intros H. unfold index.
  apply nth_error_None in H. now rewrite H.
Qed.

(** What [l[i] = v] leaves. *)
Lemma assign_in {A} (l : list A) (i : nat) (v : A) :
  i < length l ->
  exists l', assign l i v = Returns l'
             /\ length l' = length l
             /\ forall k d, nth k l' d = if Nat.eqb k i then v else nth k l d.
Proof.
  revert i. induction l as [|x l IH]; intros [|i] H; cbn in H; try lia.
  - exists (v :: l). repeat split; trivial. now intros [|k] d.
  - destruct (IH i) as (l' & E & Hlen & Hnth); [lia|].
    exists (x :: l'). cbn [assign]. rewrite E. cbn [bind length].
    repeat split; [lia|]. intros [|k] d; cbn; trivial.
Qed.

Lemma assign_out {A} (l : list A) (i : nat) (v : A) :
  length l <= i -> assign l i v = Panics.
Proof.
  revert i. induction l as [|x l IH]; intros [|i] H; cbn in *; trivial;
    try lia.
  rewrite IH; trivial; lia.
Qed.

Lemma assign_app {A} (pre : list A) (x v : A) (tl : list A) :
  assign (pre ++ x :: tl) (length pre) v = Returns (pre ++ v :: tl).
Proof.
  induction pre as [|y pre IH]; cbn; trivial. now rewrite IH.
Qed.

(** What [m[j][i] = v] leaves. *)
Lemma assign2_in (m : mat K) (j i : nat) (v : float64 K) :
  j < length m -> i < length (nth j m []) ->
  exists m', assign2 m j i v = Returns m'
             /\ length m' = length m
             /\ (forall j', length (nth j' m' []) = length (nth j' m []))
             /\ forall j' i',
                 entry K m' j' i'
                 = if Nat.eqb j' j && Nat.eqb i' i then v
                   else entry K m j' i'.
Proof.
  intros Hj Hi. unfold assign2.
  rewrite (index_nth m j [] Hj). cbn [bind].
  destruct (assign_in (nth j m []) i v Hi) as (row' & E & Hlen & Hnth).
  rewrite E. cbn [bind].
  destruct (assign_in m j row' Hj) as (m' & E' & Hlen' & Hnth').
  exists m'. repeat split; trivial.
  - intros j'. rewrite Hnth'. destruct (Nat.eqb j' j) eqn:Ej; trivial.
    apply Nat.eqb_eq in Ej. now subst.
  - intros j' i'. unfold entry. rewrite Hnth'.
    destruct (Nat.eqb j' j) eqn:Ej; cbn [andb]; trivial.
    apply Nat.eqb_eq in Ej. subst. apply Hnth.
Qed.

(** A loop whose body returns and keeps an invariant returns, with the
    invariant. *)
Lemma forRange_inv {St} (I : nat -> St -> Prop) (n from : nat)
    (body : nat -> St -> outcome St) (s : St) :
  I from s ->
  (forall i s, from <= i < from + n -> I i s ->
               exists s', body i s = Returns s' /\ I (S i) s') ->
  exists s', forRange n from body s = Returns s' /\ I (from + n) s'.
Proof.
  revert from s. induction n as [|n IH]; intros from s H0 Hstep.
  - exists s. now rewrite Nat.add_0_r.
  - destruct (Hstep from s) as (s1 & E & H1); [lia|trivial|].
    cbn [forRange]. rewrite E. cbn [bind].
    destruct (IH (S from) s1 H1) as (s' & E' & H').
    + intros i s2 Hi. apply Hstep. lia.
    + exists s'. split; trivial. now replace (from + S n) with (S from + n) by lia.
Qed.

Lemma forEach_inv {A St} (I : nat -> St -> Prop) (l : list A) (from : nat)
    (body : nat -> A -> St -> outcome St) (s : St) :
  I from s ->
  (forall k x s, nth_error l k = Some x -> I (from + k) s ->
                 exists s', body (from + k) x s = Returns s'
                            /\ I (S (from + k)) s') ->
  exists s', forEach l from body s = Returns s' /\ I (from + length l) s'.
Proof.
  revert from s. induction l as [|x l IH]; intros from s H0 Hstep.
  - exists s. cbn. now rewrite Nat.add_0_r.
  - destruct (Hstep 0 x s) as (s1 & E & H1); [reflexivity|now rewrite Nat.add_0_r|].
    rewrite Nat.add_0_r in E, H1.
    cbn [forEach]. rewrite E. cbn [bind].
    destruct (IH (S from) s1 H1) as (s' & E' & H').
    + intros k y s2 Hk Hi.
      replace (S from + k) with (from + S k) in * by lia.
      now apply Hstep.
    + exists s'. split; trivial. cbn [length].
      now replace (from + S (length l)) with (S from + length l) by lia.
Qed.

Lemma settled_bind {A B} (o : outcome A) (k : A -> outcome B) :
  settled o -> (forall a, settled (k a)) -> settled (bind o k).
Proof.
  intros Ho Hk. destruct o; cbn; [apply Hk | discriminate | now elim Ho].
Qed.

Lemma settled_index {A} (l : list A) i : settled (index l i).
Proof. unfold index. now destruct (nth_error l i). Qed.

Lemma settled_assign {A} (l : list A) i v : settled (assign l i v).
Proof.
  revert i. induction l as [|x l IH]; intros [|i]; cbn; try discriminate.
  apply settled_bind; trivial. discriminate.
Qed.

Lemma settled_assign2 {A} (m : list (list A)) j i v :
  settled (assign2 m j i v).
Proof.
  unfold assign2. apply settled_bind; [apply settled_index|]. intros r.
  apply settled_bind; [apply settled_assign|]. intros r'.
  apply settled_assign.
Qed.

Lemma settled_forRange {St} n from (body : nat -> St -> outcome St) s :
  (forall i s, settled (body i s)) -> settled (forRange n from body s).
Proof.
  intros Hb. revert from s. induction n as [|n IH]; intros from s; cbn.
  - discriminate.
  - apply settled_bind; trivial.
Qed.

Lemma settled_forEach {A St} (l : list A) from
    (body : nat -> A -> St -> outcome St) s :
  (forall i x s, settled (body i x s)) -> settled (forEach l from body s).
Proof.
  intros Hb. revert from s. induction l as [|x l IH]; intros from s; cbn.
  - discriminate.
  - apply settled_bind; trivial.
Qed.

Ltac settle :=
  repeat first
    [ apply settled_assign2 | apply settled_assign | apply settled_index
    | apply settled_forRange; intros ? ?
    | apply settled_forEach; intros ? ? ?
    | apply settled_bind; [|intros ?] ].

(** A loop panics when one of its rounds panics whatever the state. *)
Lemma forRange_panics {St} (n from i : nat)
    (body : nat -> St -> outcome St) (s : St) :
  (forall i s, settled (body i s)) ->
  from <= i < from + n -> (forall s, body i s = Panics) ->
  forRange n from body s = Panics.
Proof.
  intros Hb. revert from s. induction n as [|n IH]; intros from s Hi Hp;
    [lia|].
  cbn [forRange]. destruct (Nat.eq_dec i from) as [->|Hne].
  - now rewrite Hp.
  - specialize (Hb from s). destruct (body from s) as [s1| |]; cbn [bind];
      trivial; [|now elim Hb].
    apply IH; trivial. lia.
Qed.

Lemma nth_map_seq {A} (g : nat -> A) (n i : nat) (d : A) :
  i < n -> nth i (map g (seq 0 n)) d = g i.
Proof.
  intros H. rewrite (nth_indep _ d (g 0)) by now rewrite length_map, length_seq.
  rewrite map_nth. now rewrite seq_nth.
Qed.

Lemma table_length n m f : length (table K n m f) = n.
Proof. unfold table. now rewrite length_map, length_seq. Qed.

Lemma table_row n m f i :
  i < n -> nth i (table K n m f) [] = map (f i) (seq 0 m).
Proof. intros H. unfold table. now rewrite nth_map_seq. Qed.

Lemma table_row_length n m f i :
  i < n -> length (nth i (table K n m f) []) = m.
Proof. intros H. rewrite table_row; trivial. now rewrite length_map, length_seq. Qed.

Lemma table_entry n m f i j :
  i < n -> j < m -> entry K (table K n m f) i j = f i j.
Proof.
  intros Hi Hj. unfold entry. rewrite table_row; trivial.
  now rewrite nth_map_seq.
Qed.

(** A matrix is the table of its entries. *)
Lemma mat_eq_table (a : mat K) n m f :
  length a = n ->
  (forall i, i < n -> length (nth i a []) = m) ->
  (forall i j, i < n -> j < m -> entry K a i j = f i j) ->
  a = table K n m f.
Proof.
  intros Hn Hm He. apply (nth_ext _ _ [] []).
  - now rewrite table_length.
  - intros i Hi. rewrite Hn in Hi. rewrite table_row; trivial.
    apply (nth_ext _ _ (fzero K) (fzero K)).
    + rewrite length_map, length_seq. now apply Hm.
    + intros j Hj. rewrite Hm in Hj; trivial. rewrite nth_map_seq; trivial.
      now apply He.
Qed.

Lemma rect_rows (a : mat K) :
  rect K a = true -> forall i, i < length a -> length (nth i a []) = cols K a.
Proof.
  unfold rect. intros H i Hi. rewrite forallb_forall in H.
  apply Nat.eqb_eq, H, nth_In, Hi.
Qed.

Lemma dim_rect (a : mat K) :
  dim K a = if rect K a then Returns (length a, cols K a) else Panics.
Proof.
  destruct a as [|x0 rest]; trivial.
  unfold dim, rect. cbn [cols forallb]. rewrite Nat.eqb_refl. cbn [andb].
  generalize (length x0) as c. intros c.
  assert (H : forall from,
             forEach rest from
               (fun _ r u => if Nat.eqb c (length r) then Returns u
                             else Panics) tt
             = if forallb (fun r => Nat.eqb (length r) c) rest
               then Returns tt else Panics).
  { induction rest as [|r rest IH]; intros from; trivial.
    cbn [forEach forallb]. rewrite (Nat.eqb_sym c).
    destruct (Nat.eqb (length r) c); cbn [bind andb]; trivial. }
  rewrite H. now destruct (forallb _ rest).
Qed.

Lemma make_rows (n m : nat) (pre : mat K) :
  forRange m (length pre) (fun i result => assign result i (zeros K n))
    (pre ++ repeat [] m)
  = Returns (pre ++ repeat (zeros K n) m).
Proof.
  revert pre. induction m as [|m IH]; intros pre; trivial.
  cbn [forRange repeat]. rewrite assign_app. cbn [bind].
  specialize (IH (pre ++ [zeros K n])).
  rewrite length_app, Nat.add_1_r, <- !app_assoc in IH. exact IH.
Qed.

Lemma zeros_entry (n m i j : nat) :
  entry K (repeat (zeros K n) m) i j = fzero K.
Proof.
  unfold entry, zeros.
  destruct (Nat.lt_ge_cases i m) as [Hi|Hi].
  - rewrite (nth_indep _ [] (repeat (fzero K) n)) by now rewrite repeat_length.
    rewrite nth_repeat. apply nth_repeat.
  - rewrite (nth_overflow (repeat (repeat (fzero K) n) m) [])
      by now rewrite repeat_length.
    now destruct j.
Qed.

Ltac cases_nat :=
  repeat match goal with
         | |- context [Nat.eqb ?a ?b] => destruct (Nat.eqb_spec a b)
         | |- context [Nat.ltb ?a ?b] => destruct (Nat.ltb_spec a b)
         | |- context [Nat.leb ?a ?b] => destruct (Nat.leb_spec a b)
         end;
  cbn [andb orb negb]; try subst; trivial; try lia.

Lemma transposeMat_table (a : mat K) :
  transposeMat K a
  = if rect K a
    then Returns (table K (cols K a) (length a) (fun j i => entry K a i j))
    else Panics.
Proof.
  unfold transposeMat. rewrite dim_rect.
  destruct (rect K a) eqn:Hr; [|reflexivity]. cbn [bind].
  pose proof (rect_rows a Hr) as Hrows.
  set (n := length a) in *. set (m := cols K a) in *.
  pose proof (make_rows n m []) as Hm. cbn [app length] in Hm.
  rewrite Hm. cbn [bind]. clear Hm.
  set (I := fun (i : nat) (res : mat K) =>
              length res = m
              /\ (forall j, j < m -> length (nth j res []) = n)
              /\ forall j i', j < m -> i' < n ->
                   entry K res j i'
                   = if Nat.ltb i' i then entry K a i' j else fzero K).
  match goal with
  | |- forEach a 0 ?body ?s = _ =>
      destruct (forEach_inv I a 0 body s) as (res & E & HI)
  end.
  - repeat split.
    + apply repeat_length.
    + intros j Hj.
      rewrite (nth_indep _ [] (zeros K n)) by now rewrite repeat_length.
      rewrite nth_repeat. apply repeat_length.
    + intros j i' _ _. apply zeros_entry.
  - intros k x s Hk (Hlen & Hrow & Hent). cbn [Nat.add].
    assert (Hkn : k < n) by (apply nth_error_Some; congruence).
    assert (Hx : nth k a [] = x) by now apply nth_error_nth.
    assert (Hxm : length x = m) by (rewrite <- Hx; now apply Hrows).
    set (J := fun (j : nat) (s' : mat K) =>
                length s' = m
                /\ (forall j', j' < m -> length (nth j' s' []) = n)
                /\ forall j' i', j' < m -> i' < n ->
                     entry K s' j' i'
                     = if Nat.eqb i' k && Nat.ltb j' j then entry K a k j'
                       else entry K s j' i').
    match goal with
    | |- exists s', forEach x 0 ?body ?s0 = _ /\ _ =>
        destruct (forEach_inv J x 0 body s0) as (s' & E' & HJ)
    end.
    + repeat split; trivial. intros j' i' _ _.
      now rewrite Bool.andb_false_r.
    + intros j y s' Hj (Hlen' & Hrow' & Hent'). cbn [Nat.add].
      assert (Hjm : j < m) by (rewrite <- Hxm; apply nth_error_Some; congruence).
      assert (Hy : entry K a k j = y)
        by (unfold entry; rewrite Hx; now apply nth_error_nth).
      unfold index at 1. rewrite Hk. cbn [bind].
      unfold index at 1. rewrite Hj. cbn [bind].
      destruct (assign2_in s' j k y) as (m' & Em & Hl & Hr' & He).
      { now rewrite Hlen'. }
      { now rewrite Hrow'. }
      exists m'. split; trivial. repeat split.
      * now rewrite Hl.
      * intros j' Hj'. rewrite Hr'. now apply Hrow'.
      * intros j' i' Hj' Hi'. rewrite He, Hent'; trivial.
        cases_nat.
    + rewrite Hxm in HJ. cbn [Nat.add] in HJ.
      destruct HJ as (Hlen' & Hrow' & Hent').
      exists s'. split; trivial. repeat split; trivial.
      intros j' i' Hj' Hi'. rewrite Hent', Hent; trivial.
      cases_nat.
  - refine (eq_trans E _). f_equal. cbn [Nat.add] in HI.
    destruct HI as (Hlen & Hrow & Hent).
    apply mat_eq_table; trivial.
    intros j i' Hj Hi'. rewrite Hent; trivial. fold n. cases_nat.
Qed.

(** X18: [transposeMat] panics on a matrix whose rows differ in length and
    on no other; of a matrix of [n] rows of [m] numbers it returns the [m]
    rows of [n] numbers with [a[i][j]] at row [j] and column [i]. *)
Theorem transposeMat_entries (a : mat K) :
  transposeMat K a
  = (if rect K a
     then Returns (table K (cols K a) (length a) (fun j i => entry K a i j))
     else Panics)
  /\ forall t,
       transposeMat K a = Returns t ->
       length t = cols K a
       /\ forall i j, i < length a -> j < cols K a ->
                      length (nth j t []) = length a
                      /\ entry K t j i = entry K a i j.
Proof.
  split; [exact (transposeMat_table a)|].
  intros t. rewrite transposeMat_table.
  destruct (rect K a); [|discriminate]. intros E. injection E as <-.
  split; [apply table_length|]. intros i j Hi Hj.
  split; [apply table_row_length; exact Hj|].
  now rewrite table_entry.
Qed.

Lemma cols_nth (a : mat K) : cols K a = length (nth 0 a []).
Proof. now destruct a. Qed.

Lemma rect_table n m f : rect K (table K n m f) = true.
Proof.
  unfold rect. apply forallb_forall. intros r Hr.
  apply (In_nth _ _ []) in Hr. destruct Hr as (i & Hi & <-).
  rewrite table_length in Hi. apply Nat.eqb_eq.
  rewrite cols_nth, !table_row_length; trivial. lia.
Qed.

Lemma cols_table n m f : 0 < n -> cols K (table K n m f) = m.
Proof. intros H. rewrite cols_nth. now apply table_row_length. Qed.

(** X19: transposing twice.  Of a matrix whose rows have one length, not
    zero, the transpose of the transpose is the matrix; of a matrix of
    empty rows the transpose is the empty matrix, and so is the transpose
    of that: the number of the rows is lost. *)
Theorem transposeMat_twice (a : mat K) :
  rect K a = true ->
  exists t, transposeMat K a = Returns t
            /\ transposeMat K t
               = Returns (if Nat.eqb (cols K a) 0 then [] else a).
Proof.
  intros Hr. rewrite transposeMat_table, Hr.
  eexists. split; [reflexivity|].
  rewrite transposeMat_table, rect_table, table_length.
  destruct (Nat.eqb_spec (cols K a) 0) as [E|E].
  - rewrite E. reflexivity.
  - rewrite cols_table by lia. f_equal. symmetry.
    apply mat_eq_table; trivial.
    + now apply rect_rows.
    + intros i j Hi Hj. now rewrite table_entry.
Qed.

Lemma assign_returns {A} (l l' : list A) (i : nat) (v : A) :
  assign l i v = Returns l' -> i < length l.
Proof.
  intros E. destruct (Nat.lt_ge_cases i (length l)) as [H|H]; trivial.
  now rewrite assign_out in E.
Qed.

Lemma assign2_returns (m m' : mat K) (j i : nat) (v : float64 K) :
  assign2 m j i v = Returns m' ->
  j < length m /\ i < length (nth j m []).
Proof.
  unfold assign2. intros E.
  destruct (Nat.lt_ge_cases j (length m)) as [Hj|Hj].
  - split; trivial. rewrite (index_nth m j [] Hj) in E. cbn [bind] in E.
    destruct (Nat.lt_ge_cases i (length (nth j m []))) as [Hi|Hi]; trivial.
    now rewrite assign_out in E.
  - now rewrite index_out in E.
Qed.

(** A loop panics when one of its rounds panics in every state that the
    rounds before it can leave. *)
Lemma forRange_panics_inv {St} (I : St -> Prop) (n from i : nat)
    (body : nat -> St -> outcome St) (s : St) :
  (forall i s, settled (body i s)) ->
  I s ->
  (forall k s s', from <= k < i -> I s -> body k s = Returns s' -> I s') ->
  from <= i < from + n ->
  (forall s, I s -> body i s = Panics) ->
  forRange n from body s = Panics.
Proof.
  intros Hb. revert from s.
  induction n as [|n IH]; intros from s H0 Hkeep Hi Hp; [lia|].
  cbn [forRange]. destruct (Nat.eq_dec i from) as [->|Hne].
  - now rewrite Hp.
  - pose proof (Hb from s) as Hs.
    destruct (body from s) as [s1| |] eqn:E; cbn [bind]; trivial;
      [|now elim Hs].
    apply IH; trivial.
    + apply (Hkeep from s); trivial. lia.
    + intros k s2 s3 Hk. apply Hkeep. lia.
    + lia.
Qed.

Lemma forallb_seq_false (p : nat -> bool) (n : nat) :
  forallb p (seq 0 n) = false -> exists i, i < n /\ p i = false.
Proof.
  induction n as [|n IH]; [discriminate|].
  rewrite seq_S, forallb_app. cbn [forallb Nat.add].
  destruct (forallb p (seq 0 n)).
  - rewrite Bool.andb_true_r. cbn [andb]. intros H. exists n. split; [lia|trivial].
  - intros _. destruct IH as (i & Hi & Hpi); trivial. exists i. split; [lia|trivial].
Qed.

Lemma forallb_seq_true (p : nat -> bool) (n : nat) :
  forallb p (seq 0 n) = true -> forall i, i < n -> p i = true.
Proof.
  intros H i Hi. rewrite forallb_forall in H. apply H, in_seq. lia.
Qed.

Lemma addMats_table (a b : mat K) :
  addMats K a b
  = if fits K a b
    then Returns (table K (length a) (cols K a)
                    (fun i j => if Nat.ltb j (length (nth i a []))
                                then fadd K (entry K a i j) (entry K b i j)
                                else fzero K))
    else Panics.
Proof.
  unfold addMats. set (n := length a). set (m := cols K a).
  set (f := fun i j => if Nat.ltb j (length (nth i a []))
                       then fadd K (entry K a i j) (entry K b i j)
                       else fzero K).
  destruct (fits K a b) eqn:Hfit.
  - pose proof (forallb_seq_true _ _ Hfit) as Hf. cbn beta in Hf. fold n in Hf.
    set (I := fun (i : nat) (res : mat K) =>
                length res = n
                /\ (forall i', i' < i -> length (nth i' res []) = m)
                /\ forall i' j, i' < i -> j < m -> entry K res i' j = f i' j).
    match goal with
    | |- forRange n 0 ?body ?s = _ =>
        destruct (forRange_inv I n 0 body s) as (res & E & HI)
    end.
    + repeat split; try (intros; lia). apply repeat_length.
    + intros i s Hi (Hlen & Hrow & Hent). cbn [Nat.add] in Hi.
      specialize (Hf i (proj2 Hi)). apply andb_prop in Hf.
      destruct Hf as (Hf1 & Hf2).
      apply Nat.leb_le in Hf1, Hf2. fold m in Hf1.
      rewrite (index_nth a 0 []) by (fold n; lia). cbn [bind].
      rewrite <- cols_nth. fold m.
      destruct (assign_in s i (zeros K m)) as (s1 & E1 & Hlen1 & Hnth1);
        [lia|].
      rewrite E1. cbn [bind].
      rewrite (index_nth a i []) by (fold n; lia). cbn [bind].
      set (J := fun (j : nat) (s' : mat K) =>
                  length s' = n
                  /\ (forall i', length (nth i' s' []) = length (nth i' s1 []))
                  /\ forall i' j',
                       entry K s' i' j'
                       = if Nat.eqb i' i && Nat.ltb j' j
                         then fadd K (entry K a i j') (entry K b i j')
                         else entry K s1 i' j').
      match goal with
      | |- exists s', forRange ?k 0 ?body ?s0 = _ /\ _ =>
          destruct (forRange_inv J k 0 body s0) as (s' & E' & HJ)
      end.
      * repeat split; [lia|]. intros i' j'. now rewrite Bool.andb_false_r.
      * intros j s' Hj (Hlen' & Hrow' & Hent'). cbn [Nat.add] in Hj.
        rewrite (index_nth _ j (fzero K)) by lia. cbn [bind].
        assert (Hib : i < length b).
        { destruct (Nat.lt_ge_cases i (length b)) as [H|H]; trivial.
          rewrite (nth_overflow b [] H) in Hf2. cbn in Hf2. lia. }
        rewrite (index_nth b i [] Hib). cbn [bind].
        rewrite (index_nth _ j (fzero K)) by lia. cbn [bind].
        destruct (assign2_in s' i j
                    (fadd K (nth j (nth i a []) (fzero K))
                            (nth j (nth i b []) (fzero K))))
          as (m' & Em & Hl & Hr' & He).
        { lia. }
        { rewrite Hrow', Hnth1, Nat.eqb_refl. unfold zeros.
          rewrite repeat_length. lia. }
        exists m'. split; trivial. repeat split.
        -- lia.
        -- intros i'. now rewrite Hr'.
        -- intros i' j'. rewrite He, Hent'. unfold entry. cases_nat.
      * cbn [Nat.add] in HJ. destruct HJ as (Hlen' & Hrow' & Hent').
        exists s'. split; trivial. repeat split; trivial.
        -- intros i' Hi'. rewrite Hrow', Hnth1.
           destruct (Nat.eqb_spec i' i) as [->|Hne].
           ++ apply repeat_length.
           ++ apply Hrow. lia.
        -- intros i' j Hi' Hj. rewrite Hent'.
           destruct (Nat.eqb_spec i' i) as [->|Hne]; cbn [andb].
           ++ unfold f. destruct (Nat.ltb j (length (nth i a []))); trivial.
              unfold entry. rewrite Hnth1, Nat.eqb_refl. apply nth_repeat.
           ++ unfold entry at 1. rewrite Hnth1.
              destruct (Nat.eqb_spec i' i) as [Hx|_]; [contradiction|].
              apply Hent; trivial. lia.
    + refine (eq_trans E _). f_equal. cbn [Nat.add] in HI.
      destruct HI as (Hlen & Hrow & Hent). now apply mat_eq_table.
  - destruct (forallb_seq_false _ _ Hfit) as (i & Hi & Hbad). fold n in Hi.
    apply (forRange_panics n 0 i); [| lia |].
    + intros i0 s. settle.
    + intros s.
      rewrite (index_nth a 0 []) by (fold n; lia). cbn [bind].
      rewrite <- cols_nth. fold m.
      destruct (assign s i (zeros K m)) as [s1| |] eqn:E1; cbn [bind];
        trivial; [|now elim (settled_assign s i (zeros K m))].
      pose proof (assign_returns _ _ _ _ E1) as His.
      destruct (assign_in s i (zeros K m) His) as (s1' & E1' & Hlen1 & Hnth1).
      rewrite E1 in E1'. injection E1' as <-.
      rewrite (index_nth a i []) by (fold n; lia). cbn [bind].
      set (ai := nth i a []) in *.
      set (j := Nat.min m (length (nth i b []))).
      assert (Hj : j < length ai).
      { apply Bool.andb_false_iff in Hbad. fold m in Hbad.
        destruct Hbad as [H|H]; apply Nat.leb_gt in H; unfold j; lia. }
      apply (forRange_panics_inv
               (fun s' : mat K => length (nth i s' []) = m)
               (length ai) 0 j).
      * intros j0 s2. settle.
      * rewrite Hnth1, Nat.eqb_refl. apply repeat_length.
      * intros k s2 s3 _ Hs2.
        destruct (index ai k) as [aik| |]; cbn [bind];
          try discriminate.
        destruct (index b i) as [bi| |]; cbn [bind]; try discriminate.
        destruct (index bi k) as [bik| |]; cbn [bind]; try discriminate.
        intros E2. destruct (assign2_returns _ _ _ _ _ E2) as (H1 & H2).
        destruct (assign2_in s2 i k (fadd K aik bik) H1 H2)
          as (s3' & E3 & _ & Hr3 & _).
        rewrite E2 in E3. injection E3 as <-. now rewrite Hr3.
      * lia.
      * intros s2 Hs2.
        rewrite (index_nth ai j (fzero K) Hj). cbn [bind].
        destruct (Nat.lt_ge_cases i (length b)) as [Hib|Hib];
          [|now rewrite index_out].
        rewrite (index_nth b i [] Hib). cbn [bind].
        destruct (Nat.lt_ge_cases j (length (nth i b []))) as [Hjb|Hjb];
          [|now rewrite index_out].
        rewrite (index_nth _ j (fzero K) Hjb). cbn [bind].
        destruct (assign2 s2 i j _) as [s3| |] eqn:E3; trivial.
        -- destruct (assign2_returns _ _ _ _ _ E3) as (_ & H2).
           rewrite Hs2 in H2. unfold j in H2, Hjb. lia.
        -- now elim (settled_assign2 s2 i j
                       (fadd K (nth j ai (fzero K))
                               (nth j (nth i b []) (fzero K)))).
Qed.

(** X20: [addMats] checks no size.  It returns when no row of [a] is
    longer than the first row of [a] or than the row of [b] at its place,
    and panics otherwise; the sum has the rows of [a], each as long as the
    first row of [a], with zeros after the end of a shorter row: the rows
    and the columns that [b] has beyond [a] are ignored.  For two matrices
    of one size it is the matrix of the sums of the entries. *)
Theorem addMats_unchecked (a b : mat K) :
  addMats K a b
  = (if fits K a b
     then Returns (table K (length a) (cols K a)
                     (fun i j => if Nat.ltb j (length (nth i a []))
                                 then fadd K (entry K a i j) (entry K b i j)
                                 else fzero K))
     else Panics)
  /\ (rect K a = true -> rect K b = true ->
      length b = length a -> cols K b = cols K a ->
      addMats K a b
      = Returns (table K (length a) (cols K a)
                   (fun i j => fadd K (entry K a i j) (entry K b i j)))).
Proof.
  split; [exact (addMats_table a b)|].
  intros Ha Hb Hn Hm. rewrite addMats_table.
  pose proof (rect_rows a Ha) as Hra. pose proof (rect_rows b Hb) as Hrb.
  assert (Hfit : fits K a b = true).
  { unfold fits. apply forallb_forall. intros i Hi. apply in_seq in Hi.
    rewrite Hra, Hrb, Hm, Nat.leb_refl by lia. reflexivity. }
  rewrite Hfit. f_equal. apply mat_eq_table.
  - apply table_length.
  - intros i Hi. now apply table_row_length.
  - intros i j Hi Hj. rewrite table_entry, Hra; trivial.
    destruct (Nat.ltb_spec j (cols K a)); [trivial|lia].
Qed.

Lemma multMats_table (a b : mat K) :
  multMats K a b
  = if rect K a && rect K b && Nat.eqb (cols K a) (length b)
       && (Nat.eqb (length a) 0 || negb (Nat.eqb (length b) 0))
    then Returns (table K (length a) (cols K b) (dot K a b))
    else Panics.
Proof.
  unfold multMats. rewrite !dim_rect.
  destruct (rect K a) eqn:Hra; [|reflexivity]. cbn [bind andb].
  destruct (rect K b) eqn:Hrb; [|reflexivity]. cbn [bind andb].
  pose proof (rect_rows a Hra) as Hrowa.
  pose proof (rect_rows b Hrb) as Hrowb.
  destruct (Nat.eqb_spec (cols K a) (length b)) as [Hm|Hm];
    [|reflexivity]. cbn [negb andb].
  set (n := length a) in *. set (m := cols K a) in *.
  set (p := cols K b) in *.
  destruct (Nat.eqb_spec n 0) as [Hn|Hn]; cbn [orb].
  { rewrite Hn. reflexivity. }
  destruct (Nat.eqb_spec (length b) 0) as [Hb|Hb]; cbn [negb].
  { apply (forRange_panics n 0 0); [|lia|].
    - intros i s. settle.
    - intros s. now rewrite index_out by lia. }
  set (I := fun (i : nat) (res : mat K) =>
              length res = n
              /\ (forall i', i' < i -> length (nth i' res []) = p)
              /\ forall i' j, i' < i -> j < p ->
                   entry K res i' j = dot K a b i' j).
  match goal with
  | |- forRange n 0 ?body ?s = _ =>
      destruct (forRange_inv I n 0 body s) as (res & E & HI)
  end.
  - repeat split; try (intros; lia). apply repeat_length.
  - intros i s Hi (Hlen & Hrow & Hent). cbn [Nat.add] in Hi.
    rewrite (index_nth b 0 []) by lia. cbn [bind].
    rewrite <- cols_nth. fold p.
    destruct (assign_in s i (zeros K p)) as (s1 & E1 & Hlen1 & Hnth1);
      [lia|].
    rewrite E1. cbn [bind].
    assert (Hs1 : length (nth i s1 []) = p)
      by (rewrite Hnth1, Nat.eqb_refl; apply repeat_length).
    set (J := fun (j : nat) (s' : mat K) =>
                length s' = n
                /\ (forall i', length (nth i' s' []) = length (nth i' s1 []))
                /\ forall i' j',
                     entry K s' i' j'
                     = if Nat.eqb i' i && Nat.ltb j' j
                       then dot K a b i j'
                       else entry K s1 i' j').
    match goal with
    | |- exists s', forRange ?k 0 ?body ?s0 = _ /\ _ =>
        destruct (forRange_inv J k 0 body s0) as (s' & E' & HJ)
    end.
    + repeat split; [lia|]. intros i' j'. now rewrite Bool.andb_false_r.
    + intros j s' Hj (Hlen' & Hrow' & Hent'). cbn [Nat.add] in Hj.
      rewrite (index_nth a 0 []) by (fold n; lia). cbn [bind].
      rewrite <- cols_nth. fold m.
      set (step := fun acc k =>
                     fmuladd K acc (entry K a i k) (entry K b k j)).
      set (L := fun (k : nat) (s2 : mat K) =>
                  length s2 = n
                  /\ (forall i', length (nth i' s2 [])
                                 = length (nth i' s1 []))
                  /\ forall i' j',
                       entry K s2 i' j'
                       = if Nat.eqb i' i && Nat.eqb j' j
                         then fold_left step (seq 0 k) (fzero K)
                         else entry K s' i' j').
      match goal with
      | |- exists _, forRange ?k 0 ?body ?s0 = _ /\ _ =>
          destruct (forRange_inv L k 0 body s0) as (s2 & E2 & HL)
      end.
      * repeat split; trivial. intros i' j'.
        destruct (Nat.eqb_spec i' i) as [->|Hne]; cbn [andb]; trivial.
        destruct (Nat.eqb_spec j' j) as [->|Hne]; trivial.
        rewrite Hent', Nat.eqb_refl, Nat.ltb_irrefl. cbn [andb fold_left seq].
        unfold entry. rewrite Hnth1, Nat.eqb_refl. apply nth_repeat.
      * intros k s2 Hk (Hlen2 & Hrow2 & Hent2). cbn [Nat.add] in Hk.
        rewrite (index_nth s2 i []) by lia. cbn [bind].
        rewrite (index_nth _ j (fzero K)) by (rewrite Hrow2, Hs1; lia).
        cbn [bind].
        rewrite (index_nth a i []) by (fold n; lia). cbn [bind].
        rewrite (index_nth _ k (fzero K)) by (rewrite Hrowa; lia).
        cbn [bind].
        rewrite (index_nth b k []) by lia. cbn [bind].
        rewrite (index_nth _ j (fzero K)) by (rewrite Hrowb; lia).
        cbn [bind].
        match goal with
        | |- exists _, assign2 s2 i j ?v = _ /\ _ =>
            destruct (assign2_in s2 i j v) as (s3 & E3 & Hl3 & Hr3 & He3)
        end.
        { lia. }
        { rewrite Hrow2, Hs1. lia. }
        exists s3. split; trivial. repeat split.
        -- lia.
        -- intros i'. now rewrite Hr3.
        -- intros i' j'. rewrite He3, Hent2.
           destruct (Nat.eqb i' i && Nat.eqb j' j) eqn:Eij; trivial.
           apply andb_prop in Eij. destruct Eij as (Ei & Ej).
           apply Nat.eqb_eq in Ei, Ej. subst i' j'.
           rewrite seq_S, fold_left_app. cbn [fold_left Nat.add].
           unfold step at 1. f_equal.
           change (nth j (nth i s2 []) (fzero K)) with (entry K s2 i j).
           now rewrite Hent2, !Nat.eqb_refl.
      * cbn [Nat.add] in HL. destruct HL as (Hlen2 & Hrow2 & Hent2).
        exists s2. split; trivial. repeat split; trivial.
        intros i' j'. rewrite Hent2, Hent'.
        fold (dot K a b i j). cases_nat.
    + cbn [Nat.add] in HJ. destruct HJ as (Hlen' & Hrow' & Hent').
      exists s'. split; trivial. repeat split; trivial.
      * intros i' Hi'. rewrite Hrow', Hnth1.
        destruct (Nat.eqb_spec i' i) as [->|Hne].
        -- apply repeat_length.
        -- apply Hrow. lia.
      * intros i' j Hi' Hj. rewrite Hent'.
        destruct (Nat.eqb_spec i' i) as [->|Hne]; cbn [andb].
        -- destruct (Nat.ltb_spec j p); [trivial|lia].
        -- unfold entry at 1. rewrite Hnth1.
           destruct (Nat.eqb_spec i' i) as [Hx|_]; [contradiction|].
           apply Hent; trivial. lia.
  - refine (eq_trans E _). f_equal. cbn [Nat.add] in HI.
    destruct HI as (Hlen & Hrow & Hent). now apply mat_eq_table.
Qed.

(** X21: the sizes [multMats] accepts, and the product.  It returns when
    the rows of each matrix have one length, [a] has as many columns as
    [b] has rows, and [b] is not empty unless [a] is; it panics otherwise,
    so also on rows of no numbers times the empty matrix, which the
    comparison of the sizes lets pass.  The product has the rows of [a] and
    the columns of [b], each entry the sum of the products along the row
    and the column, added in the order of the index. *)
Theorem multMats_sizes (a b : mat K) :
  multMats K a b
  = (if rect K a && rect K b && Nat.eqb (cols K a) (length b)
        && (Nat.eqb (length a) 0 || negb (Nat.eqb (length b) 0))
     then Returns (table K (length a) (cols K b) (dot K a b))
     else Panics)
  /\ (forall n, dim K (repeat [] (S n)) = Returns (S n, 0)
                /\ dim K [] = Returns (0, 0)
                /\ multMats K (repeat [] (S n)) [] = Panics).
Proof.
  split; [exact (multMats_table a b)|].
  intros n. split; [|split; [reflexivity|]].
  - rewrite dim_rect.
    assert (Hr : rect K (repeat [] (S n)) = true).
    { unfold rect. apply forallb_forall. intros r Hr.
      apply repeat_spec in Hr. now subst. }
    rewrite Hr, repeat_length. reflexivity.
  - rewrite multMats_table. cbn [length Nat.eqb negb orb].
    rewrite repeat_length. cbn [Nat.eqb orb].
    now rewrite !Bool.andb_false_r.
Qed.

Lemma bind_returns {A B} (o : outcome A) (k : A -> outcome B) (b : B) :
  bind o k = Returns b -> exists a, o = Returns a /\ k a = Returns b.
Proof. destruct o as [a| |]; cbn; try discriminate. now exists a. Qed.

Lemma settled_dim (x : mat K) : settled (dim K x).
Proof. rewrite dim_rect. now destruct (rect K x). Qed.

Lemma settled_transposeMat (a : mat K) : settled (transposeMat K a).
Proof. rewrite transposeMat_table. now destruct (rect K a). Qed.

Lemma settled_addMats (a b : mat K) : settled (addMats K a b).
Proof. rewrite addMats_table. now destruct (fits K a b). Qed.

Lemma settled_multMats (a b : mat K) : settled (multMats K a b).
Proof.
  rewrite multMats_table.
  now destruct (rect K a && rect K b && Nat.eqb (cols K a) (length b)
                && (Nat.eqb (length a) 0 || negb (Nat.eqb (length b) 0))).
Qed.

Lemma settled_eval (e : Expr) (vars : list (str * mat K)) :
  settled (eval K e vars).
Proof.
  induction e as [|x|f IHf a IHa|op a IHa|op l IHl r IHr]; cbn [eval].
  - discriminate.
  - now destruct (lookup K vars x).
  - apply settled_bind; trivial. intros x.
    apply settled_bind; trivial. intros y. apply settled_multMats.
  - destruct (str_eqb op (go "'")); [|discriminate].
    apply settled_bind; trivial. intros x. apply settled_transposeMat.
  - destruct (str_eqb op (go "+")).
    + apply settled_bind; trivial. intros x.
      apply settled_bind; trivial. intros y. apply settled_addMats.
    + destruct (str_eqb op (go "*")); [|discriminate].
      apply settled_bind; trivial. intros x.
      apply settled_bind; trivial. intros y. apply settled_multMats.
Qed.

Lemma eval_returns (vars : list (str * mat K)) (e : Expr) (v : mat K) :
  eval K e vars = Returns v ->
  evaluable e = true
  /\ Forall (fun x => lookup K vars x <> None) (varNames e)
  /\ ((forall x, e <> Var x) -> rect K v = true).
Proof.
  revert v. induction e as [|x|f IHf a IHa|op a IHa|op l IHl r IHr];
    cbn [eval evaluable varNames]; intros v E.
  - discriminate.
  - split; trivial. split.
    + constructor; trivial. now destruct (lookup K vars x).
    + intros H. now elim (H x).
  - apply bind_returns in E. destruct E as (x & Ex & E).
    apply bind_returns in E. destruct E as (y & Ey & E).
    destruct (IHf _ Ex) as (H1 & H2 & _).
    destruct (IHa _ Ey) as (H3 & H4 & _).
    rewrite H1, H3. repeat split; trivial.
    + apply Forall_app. now split.
    + intros _. rewrite multMats_table in E.
      destruct (_ && _) in E; [|discriminate].
      injection E as <-. apply rect_table.
  - destruct (str_eqb op (go "'")); [|discriminate].
    apply bind_returns in E. destruct E as (x & Ex & E).
    destruct (IHa _ Ex) as (H1 & H2 & _).
    rewrite H1. repeat split; trivial.
    intros _. rewrite transposeMat_table in E.
    destruct (rect K x); [|discriminate].
    injection E as <-. apply rect_table.
  - destruct (str_eqb op (go "+")).
    + apply bind_returns in E. destruct E as (x & Ex & E).
      apply bind_returns in E. destruct E as (y & Ey & E).
      destruct (IHl _ Ex) as (H1 & H2 & _).
      destruct (IHr _ Ey) as (H3 & H4 & _).
      rewrite H1, H3. repeat split; trivial.
      * apply Forall_app. now split.
      * intros _. rewrite addMats_table in E.
        destruct (fits K x y); [|discriminate].
        injection E as <-. apply rect_table.
    + destruct (str_eqb op (go "*")); [|discriminate].
      apply bind_returns in E. destruct E as (x & Ex & E).
      apply bind_returns in E. destruct E as (y & Ey & E).
      destruct (IHl _ Ex) as (H1 & H2 & _).
      destruct (IHr _ Ey) as (H3 & H4 & _).
      rewrite H1, H3. repeat split; trivial.
      * apply Forall_app. now split.
      * intros _. rewrite multMats_table in E.
        destruct (_ && _) in E; [|discriminate].
        injection E as <-. apply rect_table.
Qed.

(** X22: what [eval] evaluates.  It returns only for a tree made of
    variables that the scope holds, of applications, of the sums and the
    products and of the transposition; on every other tree, so on every
    tree that holds another operator of the PEMDAS grammar or a nil,
    it panics.  What it returns for a node with an operator is a matrix
    whose rows have one length. *)
Theorem eval_what_it_evaluates (e : Expr) (vars : list (str * mat K)) :
  (forall v, eval K e vars = Returns v ->
             evaluable e = true
             /\ Forall (fun x => lookup K vars x <> None) (varNames e)
             /\ ((forall x, e <> Var x) -> rect K v = true))
  /\ (evaluable e = false
      \/ Exists (fun x => lookup K vars x = None) (varNames e) ->
      eval K e vars = Panics).
Proof.
  split; [apply eval_returns|].
  intros Hbad. pose proof (settled_eval e vars) as Hs.
  destruct (eval K e vars) as [v| |] eqn:E; trivial; [|now elim Hs].
  destruct (eval_returns vars e v E) as (H1 & H2 & _).
  destruct Hbad as [Hbad|Hbad]; [congruence|].
  apply Exists_exists in Hbad. destruct Hbad as (x & Hx & Hnone).
  rewrite Forall_forall in H2. now elim (H2 x Hx).
Qed.

Lemma readMat_vector (xs : list (float64 K)) (pre : mat K) :
  forEach xs (length pre) (fun i v result => assign result i [v])
    (pre ++ repeat [] (length xs))
  = Returns (pre ++ map (fun v => [v]) xs).
Proof.
  revert pre. induction xs as [|x xs IH]; intros pre; trivial.
  cbn [forEach length repeat map]. rewrite assign_app. cbn [bind].
  specialize (IH (pre ++ [[x]])).
  rewrite length_app, Nat.add_1_r, <- !app_assoc in IH. exact IH.
Qed.

Lemma writeMat_check (xs : list (float64 K)) (from : nat) :
  forEach (map (fun v => [v]) xs) from
    (fun _ row u => if negb (Nat.eqb (length row) 1) then Panics
                    else Returns u) tt
  = Returns tt.
Proof.
  revert from. induction xs as [|x xs IH]; intros from; trivial.
  cbn [map forEach length Nat.eqb negb bind]. apply IH.
Qed.

Lemma writeMat_copy (xs pre old : list (float64 K)) :
  length old = length xs ->
  forEach (map (fun v => [v]) xs) (length pre)
    (fun i row ys => v <- index row 0 ;; assign ys i v) (pre ++ old)
  = Returns (pre ++ xs).
Proof.
  revert pre old. induction xs as [|x xs IH]; intros pre [|o old] Hlen;
    try discriminate; trivial.
  cbn [map forEach]. unfold index at 1. cbn [nth_error bind].
  rewrite assign_app. cbn [bind].
  specialize (IH (pre ++ [x]) old).
  rewrite length_app, Nat.add_1_r, <- !app_assoc in IH. apply IH.
  now injection Hlen.
Qed.

(** X23: what [readMat] reads, [writeMat] writes back.  For an argument
    of one of the three kinds and a target of the same kind, which for a
    vector is nil or as long as the vector read, [readMat] returns a matrix
    and [writeMat] of it leaves in the target what the argument holds. *)
Theorem readMat_then_writeMat (x t : arg K) :
  takes K t x = true ->
  exists m, readMat K x = Returns m
            /\ writeMat K t m = Returns (written K x).
Proof.
  destruct x as [v|[xs|]|m|]; destruct t as [w|[ts|]|m'|]; cbn [takes];
    try discriminate; intros H.
  - exists [[v]]. split; reflexivity.
  - exists (map (fun v => [v]) xs). split.
    + apply (readMat_vector xs []).
    + cbn [writeMat written]. apply Nat.eqb_eq in H.
      rewrite length_map, H, Nat.eqb_refl. cbn [negb bind].
      rewrite writeMat_check. cbn [bind].
      pose proof (writeMat_copy xs [] ts H) as Hc. cbn [app length] in Hc.
      now rewrite Hc.
  - exists (map (fun v => [v]) xs). split.
    + apply (readMat_vector xs []).
    + cbn [writeMat written bind]. rewrite writeMat_check. cbn [bind].
      rewrite length_map.
      pose proof (writeMat_copy xs [] (zeros K (length xs))
                    (repeat_length _ _)) as Hc.
      cbn [app length] in Hc. now rewrite Hc.
  - exists []. split; [reflexivity|]. apply Nat.eqb_eq in H.
    cbn [writeMat written length]. rewrite H. cbn.
    destruct ts; [reflexivity|discriminate].
  - exists []. split; reflexivity.
  - exists m. split; reflexivity.
Qed.

End MatricesFacts.

(* ================================================================== *)
(** ** eval.go: [Eval] *)

Lemma settled_readMat (K : Floats) (x : arg K) : settled (readMat K x).
Proof.
  destruct x as [v|x|m|]; cbn [readMat]; try discriminate.
  apply settled_forEach. intros i v s. apply settled_assign.
Qed.

Lemma lookup_eq (K : Floats) (k : str) (m : mat K)
    (scope : list (str * mat K)) (name : str) :
  lookup K ((k, m) :: scope) name <> None ->
  k = name \/ lookup K scope name <> None.
Proof.
  cbn [lookup]. destruct (str_eqb k name) eqn:E.
  - left. now apply str_eqb_eq.
  - now right.
Qed.

(** The scope of [Eval] holds the names it was made from, and no other. *)
Lemma scope_keys (K : Floats) (args : list (arg K)) (rest : list str) :
  forall from scope scope',
    forEach rest from
      (fun i v scope =>
         x <- index args (S i) ;;
         m <- readMat K x ;;
         Returns ((v, m) :: scope)) scope
    = Returns scope' ->
    forall name, lookup K scope' name <> None ->
                 lookup K scope name <> None \/ In name rest.
Proof.
  induction rest as [|v rest IH]; intros from scope scope' E name Hname.
  - injection E as <-. now left.
  - cbn [forEach] in E. apply bind_returns in E.
    destruct E as (s1 & E1 & E).
    apply bind_returns in E1. destruct E1 as (x & _ & E1).
    apply bind_returns in E1. destruct E1 as (m & _ & E1).
    injection E1 as <-.
    destruct (IH _ _ _ E name Hname) as [H|H]; [|right; now right].
    apply lookup_eq in H. destruct H as [->|H]; [right; now left|now left].
Qed.

Lemma settled_scope (K : Floats) (args : list (arg K)) (rest : list str)
    (from : nat) (scope : list (str * mat K)) :
  settled (forEach rest from
             (fun i v scope =>
                x <- index args (S i) ;;
                m <- readMat K x ;;
                Returns ((v, m) :: scope)) scope).
Proof.
  apply settled_forEach. intros i v s.
  apply settled_bind; [apply settled_index|]. intros x.
  apply settled_bind; [apply settled_readMat|]. discriminate.
Qed.

(** The variable on the left is not in the scope. *)
Lemma left_not_in_scope (K : Floats) (args : list (arg K)) (y : str)
    (r : Expr) (scope : list (str * mat K)) :
  forEach (firstUse [y] (varNames r)) O
    (fun i v scope =>
       x <- index args (S i) ;;
       m <- readMat K x ;;
       Returns ((v, m) :: scope)) []
  = Returns scope ->
  lookup K scope y = None.
Proof.
  intros E. destruct (lookup K scope y) eqn:El; trivial.
  destruct (scope_keys K args _ _ _ _ E y) as [H|H].
  - now rewrite El.
  - now elim H.
  - apply (firstUse_spec (varNames r) [y]) in H. destruct H as (_ & H).
    elim H. now left.
Qed.

Lemma addVarsEquation_left (y : str) (r : Expr) :
  addVarsEquation (mkEquation (Var y) r) []
  = if hasNil r then Panics
    else Returns (y :: firstUse [y] (varNames r)).
Proof.
  cbn [addVarsEquation addVars existsb bind app].
  rewrite addVars_fold. destruct (hasNil r); trivial.
  now rewrite fold_addName.
Qed.

(** What the loop that fills the scope has read. *)
Lemma scope_reads (K : Floats) (args : list (arg K)) (rest : list str) :
  forall from scope scope',
    forEach rest from
      (fun i v scope =>
         x <- index args (S i) ;;
         m <- readMat K x ;;
         Returns ((v, m) :: scope)) scope
    = Returns scope' ->
    forall i, (i < length rest)%nat ->
      exists x, nth_error args (S (from + i)) = Some x /\ x <> OtherArg K.
Proof.
  induction rest as [|v rest IH]; intros from scope scope' E i Hi;
    [cbn in Hi; lia|].
  cbn [forEach] in E. apply bind_returns in E.
  destruct E as (s1 & E1 & E).
  apply bind_returns in E1. destruct E1 as (x & Ex & E1).
  apply bind_returns in E1. destruct E1 as (m & Em & _).
  destruct i as [|i].
  - exists x. rewrite Nat.add_0_r. split.
    + unfold index in Ex.
      destruct (nth_error args (S from)); [|discriminate].
      now injection Ex as ->.
    + intros ->. discriminate Em.
  - cbn [length] in Hi.
    destruct (IH _ _ _ E i) as (x' & Hx' & Hne); [lia|].
    exists x'. split; [|exact Hne].
    now replace (from + S i)%nat with (S from + i)%nat by lia.
Qed.

(** X24: what a call of [Eval] that returns no error has met.  The source
    is an equation with a variable on the left; the right side is made of
    variables, applications, sums, products and transpositions and does
    not use the variable of the left; the arguments are one more than the
    variables of the right side, and each of them is of one of the three
    kinds that [readMat] and [writeMat] know. *)
Theorem Eval_returns_nil (K : Floats) (code : str)
    (args args' : list (arg K)) :
  Eval K code args = Returns (None, args') ->
  exists y r,
    Parse PEMDAS code = Returns (Some (mkEquation (Var y) r), None)
    /\ evaluable r = true
    /\ ~ In y (varNames r)
    /\ length args = S (length (firstUse [y] (varNames r)))
    /\ Forall (fun x => x <> OtherArg K) args.
Proof.
  unfold Eval.
  destruct (Parse PEMDAS code) as [[tree [u|]]| |]; cbn [bind];
    try discriminate.
  destruct tree as [[l r]|]; [|discriminate].
  destruct l as [|y|f a|op a|op a b]; try discriminate.
  rewrite addVarsEquation_left.
  destruct (hasNil r); [discriminate|]. cbn [bind length].
  destruct (Nat.eqb_spec (S (length (firstUse [y] (varNames r))))
                         (length args)) as [Hlen|Hlen];
    cbn [negb]; [|discriminate].
  cbn [bind]. intros E.
  apply bind_returns in E. destruct E as (scope & Es & E).
  apply bind_returns in E. destruct E as (x0 & Ex & E).
  apply bind_returns in E. destruct E as (val & Ev & E).
  apply bind_returns in E. destruct E as (x0' & Ew & _).
  destruct (eval_returns K scope r val Ev) as (H1 & H2 & _).
  exists y, r. repeat split; trivial.
  - intros Hin. rewrite Forall_forall in H2.
    apply (H2 y Hin). exact (left_not_in_scope K args y r scope Es).
  - now symmetry.
  - apply Forall_forall. intros x Hin.
    apply In_nth_error in Hin. destruct Hin as ([|i] & Hi).
    + unfold index in Ex. rewrite Hi in Ex. injection Ex as <-.
      intros ->. discriminate Ew.
    + assert (Hlt : (i < length (firstUse [y] (varNames r)))%nat).
      { assert (H : (S i < length args)%nat)
          by (apply nth_error_Some; congruence).
        lia. }
      destruct (scope_reads K args _ _ _ _ Es i Hlt) as (x' & Hx' & Hne).
      cbn [Nat.add] in Hx'. congruence.
Qed.

(** X25: an equation that uses on the right the variable of its left, as
    [y = y + a], is not evaluated: [Eval] returns the error of the count
    where the arguments are not as many as the variables, and panics
    where they are, for the variable of the left is not in the scope. *)
Theorem Eval_left_on_the_right (K : Floats) (code : str) (y : str)
    (r : Expr) (args : list (arg K)) :
  Parse PEMDAS code = Returns (Some (mkEquation (Var y) r), None) ->
  In y (varNames r) ->
  (length args = S (length (firstUse [y] (varNames r))) ->
   Eval K code args = Panics)
  /\ (length args <> S (length (firstUse [y] (varNames r))) ->
      Eval K code args = Panics
      \/ Eval K code args
         = Returns (Some (ArgCount (length args)
                            (y :: firstUse [y] (varNames r))), args)).
Proof.
  intros HP Hin. unfold Eval. rewrite HP. cbn [bind].
  rewrite addVarsEquation_left.
  destruct (hasNil r); [split; intros _; [|left]; reflexivity|].
  cbn [bind length].
  destruct (Nat.eqb_spec (S (length (firstUse [y] (varNames r))))
                         (length args)) as [Hlen|Hlen]; cbn [negb].
  - split; [intros _|intros H; now elim H]. cbn [bind].
    match goal with
    | |- bind ?o _ = _ =>
        pose proof (settled_scope K args (firstUse [y] (varNames r)) O [])
          as Hs;
        destruct o as [scope| |] eqn:Es; cbn [bind]; trivial;
        [|now elim Hs]
    end.
    pose proof (settled_index args O) as Hx.
    destruct (index args O) as [x0| |]; cbn [bind]; trivial;
      [|now elim Hx].
    pose proof (settled_eval K r scope) as Hv.
    destruct (eval K r scope) as [val| |] eqn:Ev; cbn [bind]; trivial;
      [|now elim Hv].
    destruct (eval_returns K scope r val Ev) as (_ & H2 & _).
    rewrite Forall_forall in H2.
    elim (H2 y Hin). exact (left_not_in_scope K args y r scope Es).
  - split; [intros H; now elim Hlen|intros _]. now right.
Qed.

End Mast.

(* ================================================================== *)
(** ** The theorems at work

    Each conditional statement above, at inputs of the PEMDAS grammar and
    of a Go library that knows ASCII only. *)

Lemma tokenize_class_runs_witness :
  tokensOf asciiLib (go "x+ab1")
  = [go "x"; go "+"] ++ go "ab" :: tokensOf asciiLib (go "1")
  /\ tokensOf asciiLib (go "42") = [] ++ [go "42"; eof]
  /\ tokensOf asciiLib (go "42x") = [] ++ go "42" :: tokensOf asciiLib (go "x").
Proof.
  destruct (tokenize_class_runs asciiLib (go "x+") 97 [98])
    as (Hletters & _ & _).
  destruct (tokenize_class_runs asciiLib [] 52 [50]) as (_ & Hdigits & _).
  destruct (Hletters eq_refl eq_refl eq_refl eq_refl) as [_ Hl].
  destruct (Hdigits eq_refl eq_refl eq_refl eq_refl eq_refl) as [Hd1 Hd2].
  split; [exact (Hl 49 [] eq_refl)|].
  split; [exact Hd1 | exact (Hd2 120 [] eq_refl)].
Defined.

(** C6 as it was stated fails at [a1]: the text is one run of letters and
    digits, and the tokenizer makes two tokens of it. *)
Lemma tokenize_a1_two_tokens :
  forallb (fun c => IsLetter asciiLib c || IsDigit asciiLib c) (go "a1") = true
  /\ tokensOf asciiLib (go "a1") = [go "a"; go "1"; eof]
  /\ tokensOf asciiLib (go "a1") <> [go "a1"; eof].
Proof.
  split; [reflexivity|]. split; [reflexivity|].
  intros H. vm_compute in H. discriminate H.
Qed.

Lemma parse_terminates_witness :
  (fuelExpr PEMDAS 1 [go "a"; eof] < fuelExpr PEMDAS 0 [go "a"; eof])%nat.
Proof.
  destruct (parse_terminates asciiLib PEMDAS 0 (go "a") [go "a"; eof] false 0)
    as (_ & _ & _ & _ & _ & _ & _ & _ & H & _).
  apply H. simpl. lia.
Defined.

Lemma mismatched_closer_witness :
  closeGroup asciiLib (mkGroup (go "(") (go ")")) (fun e => e)
             ([go "]"; eof], Var (go "a"), None)
  = Returns ([go "]"; eof], nilExpr,
             Some (mkUnexpected (go "]") (Quote asciiLib (go ")")))).
Proof.
  destruct (mismatched_closer asciiLib (mkGroup (go "(") (go ")"))
              (fun e => e) (go "]") [eof] (Var (go "a")) None)
    as (_ & _ & _ & _ & H).
  apply H. reflexivity.
Defined.

Lemma PEMDAS_precedence_associativity_witness :
  runExpr asciiLib PEMDAS 0
    (go "a" :: chainTokens [(go "+", go "b"); (go "-", go "c")] ++ [eof])
  = Returns ([eof],
             Binary (go "-") (Binary (go "+") (Var (go "a")) (Var (go "b")))
                    (Var (go "c")), None)
  /\ runExpr asciiLib PEMDAS 0
       (go "a" :: flat_map (fun x => [go "^"; x]) [go "b"; go "c"] ++ [eof])
     = Returns ([eof],
                Binary (go "^") (Var (go "a"))
                       (Binary (go "^") (Var (go "b")) (Var (go "c"))), None)
  /\ runExpr asciiLib PEMDAS 0
       (show 0 (Binary (go "*")
                  (Binary (go "+") (Var (go "a")) (Var (go "b")))
                  (Binary (go "^") (Var (go "c"))
                     (Binary (go "/") (Var (go "d")) (Var (go "e")))))
        ++ [eof])
     = Returns ([eof],
                Binary (go "*")
                  (Binary (go "+") (Var (go "a")) (Var (go "b")))
                  (Binary (go "^") (Var (go "c"))
                     (Binary (go "/") (Var (go "d")) (Var (go "e")))),
                None)
  /\ ParseExpr asciiLib PEMDAS (go "( a + b ) * c ^ ( d / e )")
     = Returns (Binary (go "*")
                  (Binary (go "+") (Var (go "a")) (Var (go "b")))
                  (Binary (go "^") (Var (go "c"))
                     (Binary (go "/") (Var (go "d")) (Var (go "e")))),
                None)
  /\ runExpr asciiLib PEMDAS 2
       (show 2 (Binary (go "*")
                  (Binary (go "+") (Var (go "a")) (Var (go "b")))
                  (Binary (go "^") (Var (go "c"))
                     (Binary (go "/") (Var (go "d")) (Var (go "e")))))
        ++ go "+" :: [go "z"; eof])
     = Returns (go "+" :: [go "z"; eof],
                Binary (go "*")
                  (Binary (go "+") (Var (go "a")) (Var (go "b")))
                  (Binary (go "^") (Var (go "c"))
                     (Binary (go "/") (Var (go "d")) (Var (go "e")))),
                None)
  /\ runExpr asciiLib PEMDAS 0
       (go "a"
        :: chainTokens [(go "*", go "b"); (go "/", go "c"); (go "\", go "d")]
        ++ [eof])
     = Returns ([eof],
                leftChain (Var (go "a"))
                  [(go "*", go "b"); (go "/", go "c"); (go "\", go "d")],
                None).
Proof.
  destruct (PEMDAS_precedence_associativity asciiLib (go "a")
              [(go "+", go "b"); (go "-", go "c")] [go "b"; go "c"]
              (Binary (go "*")
                 (Binary (go "+") (Var (go "a")) (Var (go "b")))
                 (Binary (go "^") (Var (go "c"))
                    (Binary (go "/") (Var (go "d")) (Var (go "e")))))
              2 (go "+") [go "z"; eof] (go "*") nilExpr nilExpr)
    as (_ & _ & _ & _ & Hleft & Hright & Htree & Htext & Hlevel & Hchain
        & _).
  split; [apply Hleft; reflexivity|].
  split; [apply Hright; reflexivity|].
  split; [apply Htree; reflexivity|].
  split; [exact (proj2 (Htext eq_refl eq_refl))|].
  split; [apply Hlevel; [reflexivity | lia | reflexivity]|].
  destruct (PEMDAS_precedence_associativity asciiLib (go "a")
              [(go "*", go "b"); (go "/", go "c"); (go "\", go "d")] []
              nilExpr 0 eof [] eof nilExpr nilExpr)
    as (_ & _ & _ & _ & _ & _ & _ & _ & _ & Hchain2 & _).
  apply (Hchain2 2%nat (mkPrec [go "*"; go "/"; go "\"] InfixLeft));
    reflexivity.
Defined.

Lemma juxtaposition_folds_left_witness :
  runSingle asciiLib PEMDAS (go "f" :: [go "x"; go "y"] ++ eof :: []) false
  = Returns ([eof], Apply (Apply (Var (go "f")) (Var (go "x"))) (Var (go "y")),
             None)
  /\ runSingle asciiLib PEMDAS
       (go "f" :: atomTokens [([go "("; go "a"; go ")"], Var (go "a"));
                              ([go "y"], Var (go "y"))] [eof]) false
     = Returns ([eof], Apply (Apply (Var (go "f")) (Var (go "a"))) (Var (go "y")),
                None)
  /\ runSingle asciiLib PEMDAS [go "f"; go "x"; eof] true
     = Returns ([go "x"; eof], Var (go "f"), None).
Proof.
  destruct (juxtaposition_folds_left asciiLib PEMDAS (go "f") eof
              [go "x"; go "y"] [] []) as (Hchain & _).
  destruct (juxtaposition_folds_left asciiLib PEMDAS (go "f") eof [] []
              [([go "("; go "a"; go ")"], Var (go "a"));
               ([go "y"], Var (go "y"))]) as (_ & Hatoms & _).
  destruct (juxtaposition_folds_left asciiLib PEMDAS (go "f") eof
              [] [go "x"; eof] []) as (_ & _ & Hone & _).
  split; [apply Hchain; reflexivity|].
  split; [|apply Hone; reflexivity].
  apply Hatoms; try reflexivity.
  simpl. split; [eexists _, _; split; reflexivity|].
  split; [reflexivity|].
  split; [eexists _, _; split; reflexivity|].
  split; [reflexivity | exact I].
Defined.

Lemma PEMDAS_prefix_suffix_witness :
  runExpr asciiLib PEMDAS 0
    ([go "-"; go "+"] ++ go "b" :: repeat (go "'") 2 ++ [eof])
  = Returns ([eof],
             Unary (go "-") (Unary (go "+")
               (Unary (go "'") (Unary (go "'") (Var (go "b"))))), None)
  /\ runExpr asciiLib PEMDAS 0
       ([go "-"; go "+"] ++ go "b" :: repeat (go "'") 2
        ++ go "^" :: [go "-"] ++ go "c" :: repeat (go "'") 1 ++ [eof])
     = Returns ([eof],
                Binary (go "^")
                  (prefixed [go "-"; go "+"]
                     (suffixed (go "'") 2 (Var (go "b"))))
                  (prefixed [go "-"] (suffixed (go "'") 1 (Var (go "c")))),
                None)
  /\ runExpr asciiLib PEMDAS 4
       (go "-"
        :: show 4 (Unary (go "+") (Binary (go "*") (Var (go "a"))
                                          (Var (go "b"))))
        ++ go "+" :: [go "c"; eof])
     = Returns (go "+" :: [go "c"; eof],
                Unary (go "-")
                  (Unary (go "+") (Binary (go "*") (Var (go "a"))
                                          (Var (go "b")))),
                None)
  /\ runExpr asciiLib PEMDAS 5
       (show 5 (Unary (go "-") (Var (go "a")))
        ++ go "'" :: go "*" :: [go "c"; eof])
     = Returns (go "*" :: [go "c"; eof],
                Unary (go "'") (Unary (go "-") (Var (go "a"))), None).
Proof.
  destruct (PEMDAS_prefix_suffix asciiLib [go "-"; go "+"] (go "b") 2
              [go "-"] (go "c") 1 (go "^") (go "-") (go "+")
              [go "c"; eof]
              (Unary (go "+") (Binary (go "*") (Var (go "a"))
                                      (Var (go "b")))))
    as (_ & _ & _ & Hrun & Hboth & Hpre & _).
  destruct (PEMDAS_prefix_suffix asciiLib [] (go "b") 0
              [] (go "c") 0 (go "^") (go "-") (go "*")
              [go "c"; eof] (Unary (go "-") (Var (go "a"))))
    as (_ & _ & _ & _ & _ & _ & Hsuf & _).
  split; [apply Hrun; reflexivity|].
  split; [apply Hboth; reflexivity|].
  split; [apply Hpre; reflexivity|].
  apply Hsuf; reflexivity.
Defined.

Lemma groups_and_nodes_witness :
  runSingle asciiLib PEMDAS [go "("; go "a"; go ")"; eof] false
  = Returns ([eof], Var (go "a"), None)
  /\ runSingle asciiLib PEMDAS [go "{"; go "}"; eof] false
     = Returns ([eof], Var (go "{}"), None)
  /\ runSingle asciiLib PEMDAS [go "{"; go "a"; go "}"; eof] false
     = Returns ([eof], Unary (go "{}") (Var (go "a")), None).
Proof.
  destruct (groups_and_nodes asciiLib PEMDAS (go "(")
              (mkGroup (go "(") (go ")")) [go "a"; go ")"; eof] [eof]
              (Var (go "a")) None false) as (_ & _ & _ & Hparen & _).
  destruct (groups_and_nodes asciiLib PEMDAS (go "{")
              (mkGroup (go "{") (go "}")) [eof] [eof]
              (Var (go "a")) None false) as (_ & _ & _ & _ & Hempty & _).
  destruct (groups_and_nodes asciiLib PEMDAS (go "{")
              (mkGroup (go "{") (go "}")) [go "a"; go "}"; eof] [eof]
              (Var (go "a")) None false) as (_ & _ & _ & _ & _ & Hfull).
  split; [apply Hparen; reflexivity|].
  split; [apply Hempty; reflexivity|].
  apply Hfull; try reflexivity.
  intros rest2 H. vm_compute in H. discriminate H.
Defined.

(* ================================================================== *)
(** ** The further theorems at work *)

Lemma tokenize_single_rune_witness :
  tokensOf asciiLib (go "Ax")
  = emitted (tokAfter asciiLib []) ++ go "A" :: tokensOf asciiLib (go "x")
  /\ tokensOf asciiLib (go "a+b")
     = emitted (tokAfter asciiLib (go "a")) ++ go "+"
       :: tokensOf asciiLib (go "b").
Proof.
  split.
  - apply (tokenize_single_rune asciiLib [] 65 120 []); [reflexivity|].
    left. reflexivity.
  - apply (tokenize_single_rune asciiLib (go "a") 43 98 []); [reflexivity|].
    right. repeat split; reflexivity.
Defined.

Lemma tokenize_blanks_between_witness :
  tokensOf asciiLib (go "a  b")
  = emitted (tokAfter asciiLib (go "a")) ++ tokensOf asciiLib (go "b").
Proof.
  apply (tokenize_blanks_between asciiLib (go "a") 32 [32] 98 []);
    reflexivity.
Defined.

Lemma remainder_is_suffix_witness :
  exists taken,
    [go "a"; go "+"; go "b"; go ")"; eof] = taken ++ [go ")"; eof]
    /\ (@None Unexpected = None -> taken <> []).
Proof.
  apply (remainder_is_suffix asciiLib PEMDAS 0
           [go "a"; go "+"; go "b"; go ")"; eof] [go ")"; eof] false
           (Binary (go "+") (Var (go "a")) (Var (go "b"))) None).
  left. vm_compute. reflexivity.
Defined.

Lemma error_names_a_token_witness :
  In (go ")") (tokensOf asciiLib (go "a)"))
  /\ In (go "]") (tokensOf asciiLib (go "a]")).
Proof.
  split.
  - apply (proj1 (error_names_a_token asciiLib PEMDAS (go "a)")
                    (mkUnexpected (go ")") (go "end-of-input"))) nilExpr).
    vm_compute. reflexivity.
  - apply (proj2 (error_names_a_token asciiLib PEMDAS (go "a]")
                    (mkUnexpected (go "]") (go "="))) None).
    vm_compute. reflexivity.
Defined.

Lemma tree_names_are_tokens_witness :
  Forall (known PEMDAS (tokensOf asciiLib (go "f{a}")))
         (names (Apply (Var (go "f")) (Unary (go "{}") (Var (go "a")))))
  /\ Forall (known PEMDAS (tokensOf asciiLib (go "y=-a")))
            (names (Var (go "y")) ++ names (Unary (go "-") (Var (go "a")))).
Proof.
  split.
  - apply (proj1 (tree_names_are_tokens asciiLib PEMDAS (go "f{a}")) _ None).
    vm_compute. reflexivity.
  - apply (proj2 (tree_names_are_tokens asciiLib PEMDAS (go "y=-a")) _ _ None).
    vm_compute. reflexivity.
Defined.

Lemma nothing_to_parse_witness :
  runExpr asciiLib PEMDAS 2 [eof; go "a"]
  = Returns ([eof; go "a"], nilExpr, Some (mkUnexpected eof (options PEMDAS)))
  /\ ParseExpr asciiLib PEMDAS []
     = Returns (nilExpr, Some (mkUnexpected eof (options PEMDAS)))
  /\ Parse asciiLib PEMDAS []
     = Returns (None, Some (mkUnexpected eof (options PEMDAS))).
Proof.
  apply (nothing_to_parse asciiLib PEMDAS 2 [go "a"]). reflexivity.
Defined.

Lemma error_clears_tree_witness :
  nilExpr = nilExpr
  /\ forallb (clearsTree PEMDAS) (seq 0 (length (Operators PEMDAS))) = true.
Proof.
  apply (error_clears_tree asciiLib PEMDAS 0 [go "f"; go "("; eof] [eof]
           nilExpr (mkUnexpected eof (Quote asciiLib (go ")")))).
  - reflexivity.
  - vm_compute. reflexivity.
Defined.

Lemma adjacency_is_application_witness :
  ParseExpr asciiLib PEMDAS_apart (go "sin x")
  = Returns (nilExpr, Some (mkUnexpected (go "x") (go "end-of-input")))
  /\ ParseExpr asciiLib PEMDAS (go "sin x")
     = Returns (Apply (Var (go "sin")) (Var (go "x")), None)
  /\ ParseExpr asciiLib PEMDAS (go "sin(x)")
     = Returns (Apply (Var (go "sin")) (Var (go "x")), None).
Proof.
  destruct (adjacency_is_application asciiLib PEMDAS_apart (go "sin x")
              (go "sin") (go "x") [eof] eq_refl eq_refl) as (Hoff & _).
  destruct (adjacency_is_application asciiLib PEMDAS (go "sin x")
              (go "sin") (go "x") [] eq_refl eq_refl) as (_ & Hon & _).
  destruct (adjacency_is_application asciiLib PEMDAS (go "sin(x)")
              (go "sin") (go "x") [] eq_refl eq_refl) as (_ & _ & Hparen).
  split; [apply Hoff; reflexivity|].
  split; [apply Hon | apply Hparen]; reflexivity.
Defined.

Lemma expression_or_equation_witness :
  Parse asciiLib PEMDAS (go "a+b")
  = Returns (None, Some (mkUnexpected eof (go "=")))
  /\ ParseExpr asciiLib PEMDAS (go "y=a")
     = Returns (nilExpr, Some (mkUnexpected (go "=") (go "end-of-input"))).
Proof.
  split.
  - apply (proj1 (expression_or_equation asciiLib PEMDAS (go "a+b"))
             (Binary (go "+") (Var (go "a")) (Var (go "b")))).
    vm_compute. reflexivity.
  - apply (proj2 (expression_or_equation asciiLib PEMDAS (go "y=a"))
             (mkEquation (Var (go "y")) (Var (go "a")))).
    vm_compute. reflexivity.
Defined.

Lemma render_tokens_parse_back_witness :
  runExpr asciiLib PEMDAS 0
    (treeTokens (Binary (go "+") (Var (go "a")) (Unary (go "-") (Var (go "b"))))
     ++ [eof])
  = Returns ([eof],
             Binary (go "+") (Var (go "a")) (Unary (go "-") (Var (go "b"))),
             None).
Proof.
  apply (proj1 (render_tokens_parse_back asciiLib
                  (Binary (go "+") (Var (go "a"))
                          (Unary (go "-") (Var (go "b"))))
                  eq_refl)).
Defined.

Lemma String_then_ParseExpr_witness :
  ExprString (Binary (go "*") (Apply (Var (go "f")) (Var (go "x")))
                     (Var (go "42")))
  = Returns (go "((f x) * 42)")
  /\ tokensOf asciiLib (go "((f x) * 42)")
     = [go "("; go "("; go "f"; go "x"; go ")"; go "*"; go "42"; go ")"; eof]
  /\ ParseExpr asciiLib PEMDAS (go "((f x) * 42)")
     = Returns (Binary (go "*") (Apply (Var (go "f")) (Var (go "x")))
                       (Var (go "42")), None).
Proof.
  apply (String_then_ParseExpr asciiLib
           (Binary (go "*") (Apply (Var (go "f")) (Var (go "x")))
                   (Var (go "42")))); reflexivity.
Defined.

Lemma String_then_Parse_witness :
  tokensOf asciiLib (go "y = (a + b)")
  = [go "y"; go "="; go "("; go "a"; go "+"; go "b"; go ")"; eof]
  /\ Parse asciiLib PEMDAS (go "y = (a + b)")
     = Returns (Some (mkEquation (Var (go "y"))
                        (Binary (go "+") (Var (go "a")) (Var (go "b")))),
                None).
Proof.
  apply (String_then_Parse asciiLib (Var (go "y"))
           (Binary (go "+") (Var (go "a")) (Var (go "b")))); reflexivity.
Defined.

Lemma addVars_first_use_witness :
  addVars (Binary (go "+") (Var (go "a"))
                  (Binary (go "*") (Var (go "b")) (Var (go "a"))))
          [go "b"]
  = Returns ([go "b"] ++ [go "a"]).
Proof.
  apply (addVars_first_use
           (Binary (go "+") (Var (go "a"))
                   (Binary (go "*") (Var (go "b")) (Var (go "a"))))
           [go "b"]).
  reflexivity.
Defined.

Lemma addVars_equation_witness :
  [go "y"; go "b"] = go "y" :: firstUse [go "y"] [go "y"; go "b"]
  /\ NoDup [go "y"; go "b"].
Proof.
  destruct (addVars_equation (go "y")
              (Binary (go "+") (Var (go "y")) (Var (go "b")))
              [go "y"; go "b"] eq_refl) as (_ & H1 & H2 & _).
  split; [exact H1 | exact H2].
Defined.

Lemma transposeMat_twice_witness :
  exists t, transposeMat intFloats [[1; 2; 3]; [4; 5; 6]] = Returns t
            /\ transposeMat intFloats t
               = Returns (if Nat.eqb (cols intFloats [[1; 2; 3]; [4; 5; 6]]) 0
                          then [] else [[1; 2; 3]; [4; 5; 6]]).
Proof.
  apply (transposeMat_twice intFloats [[1; 2; 3]; [4; 5; 6]]). reflexivity.
Defined.

Lemma eval_what_it_evaluates_witness :
  eval intFloats (Binary (go "-") (Var (go "a")) (Var (go "b")))
       [(go "a", [[1]]); (go "b", [[2]])]
  = Panics
  /\ eval intFloats (Binary (go "+") (Var (go "a")) (Var (go "c")))
          [(go "a", [[1]]); (go "b", [[2]])]
     = Panics.
Proof.
  split.
  - apply (proj2 (eval_what_it_evaluates intFloats
                    (Binary (go "-") (Var (go "a")) (Var (go "b")))
                    [(go "a", [[1]]); (go "b", [[2]])])).
    left. reflexivity.
  - apply (proj2 (eval_what_it_evaluates intFloats
                    (Binary (go "+") (Var (go "a")) (Var (go "c")))
                    [(go "a", [[1]]); (go "b", [[2]])])).
    right. apply Exists_cons_tl, Exists_cons_hd. reflexivity.
Defined.

Lemma readMat_then_writeMat_witness :
  exists m, readMat intFloats (VectorPtr intFloats (Some [5; 6]))
            = Returns m
            /\ writeMat intFloats (VectorPtr intFloats None) m
               = Returns (written intFloats
                            (VectorPtr intFloats (Some [5; 6]))).
Proof.
  apply (readMat_then_writeMat intFloats
           (VectorPtr intFloats (Some [5; 6])) (VectorPtr intFloats None)).
  reflexivity.
Defined.

Lemma Eval_returns_nil_witness :
  exists y r,
    Parse asciiLib PEMDAS (go "y = A * x + b")
    = Returns (Some (mkEquation (Var y) r), None)
    /\ evaluable r = true
    /\ ~ In y (varNames r)
    /\ length [VectorPtr intFloats (Some [0; 0]);
               MatrixPtr intFloats [[1; 2]; [3; 4]];
               VectorPtr intFloats (Some [5; 6]);
               VectorPtr intFloats (Some [7; 8])]
       = S (length (firstUse [y] (varNames r)))
    /\ Forall (fun x => x <> OtherArg intFloats)
              [VectorPtr intFloats (Some [0; 0]);
               MatrixPtr intFloats [[1; 2]; [3; 4]];
               VectorPtr intFloats (Some [5; 6]);
               VectorPtr intFloats (Some [7; 8])].
Proof.
  apply (Eval_returns_nil asciiLib intFloats (go "y = A * x + b")
           [VectorPtr intFloats (Some [0; 0]);
            MatrixPtr intFloats [[1; 2]; [3; 4]];
            VectorPtr intFloats (Some [5; 6]);
            VectorPtr intFloats (Some [7; 8])]
           [VectorPtr intFloats (Some [24; 47]);
            MatrixPtr intFloats [[1; 2]; [3; 4]];
            VectorPtr intFloats (Some [5; 6]);
            VectorPtr intFloats (Some [7; 8])]).
  vm_compute. reflexivity.
Defined.

Lemma Eval_left_on_the_right_witness :
  Eval asciiLib intFloats (go "y = y + a")
    [MatrixPtr intFloats [[0]]; MatrixPtr intFloats [[1]]]
  = Panics.
Proof.
  apply (proj1 (Eval_left_on_the_right asciiLib intFloats (go "y = y + a")
                  (go "y") (Binary (go "+") (Var (go "y")) (Var (go "a")))
                  [MatrixPtr intFloats [[0]]; MatrixPtr intFloats [[1]]]
                  eq_refl (or_introl eq_refl))).
  reflexivity.
Defined.

Lemma transposeMat_entries_witness :
  length [[1; 4]; [2; 5]; [3; 6]] = cols intFloats [[1; 2; 3]; [4; 5; 6]].
Proof.
  apply (proj2 (transposeMat_entries intFloats [[1; 2; 3]; [4; 5; 6]])
           [[1; 4]; [2; 5]; [3; 6]] eq_refl).
Defined.

Lemma addMats_unchecked_witness :
  addMats intFloats [[1; 2]; [3; 4]] [[10; 20]; [30; 40]]
  = Returns (table intFloats 2 2
               (fun i j => fadd intFloats
                             (entry intFloats [[1; 2]; [3; 4]] i j)
                             (entry intFloats [[10; 20]; [30; 40]] i j))).
Proof.
  apply (proj2 (addMats_unchecked intFloats [[1; 2]; [3; 4]]
                  [[10; 20]; [30; 40]]));
    reflexivity.
Defined.
